(** * Cubby Logic Remote: articulation parsing, auto-assignment, matching,
      MIDI dispatch and the bridge server

    A shallow embedding of the TypeScript/JavaScript sources

      - [logicArticulationParser.ts]  (parser, auto-assignment helpers)
      - [midiHandler.ts]              (channel policy, dispatch)
      - [app/page.tsx]                (track-name handler)
      - [app/api/articulations]       (catalogue search, GET)
      - [midi-server.js]              (WebSocket bridge)

    JavaScript values are modelled as a tagged union, numbers as exact
    rationals extended with NaN and the two infinities, exceptions as an
    error result, objects used as dictionaries as finite maps.  Built-ins
    of the host (DOMParser, parseFloat, string-to-number coercion, Date,
    the clock and the random generator) are parameters of the embedding. *)

From Stdlib Require Import ZArith QArith List String Ascii Bool Lia DecimalString.
From stdpp Require Import base gmap strings list sorting.

Set Warnings "-register-all".
Local Open Scope Z_scope.

(* ===================================================================== *)
(** * JavaScript values *)
(* ===================================================================== *)

Module JS.

(** ** Numbers

    A finite double is represented by the rational it denotes; [-0] is
    identified with [0] (no operation of the sources distinguishes them). *)

Inductive number :=
  | NaN
  | PosInf
  | NegInf
  | Fin (q : Q).

Definition of_Z (z : Z) : number := Fin (inject_Z z).

(** [a <= b] on numbers: false as soon as one side is NaN. *)
Definition num_leb (a b : number) : bool :=
  match a, b with
  | NaN, _ | _, NaN => false
  | NegInf, _ => true
  | _, PosInf => true
  | PosInf, _ => false
  | _, NegInf => false
  | Fin x, Fin y => Qle_bool x y
  end.

(** [a < b] on numbers. *)
Definition num_ltb (a b : number) : bool :=
  match a, b with
  | NaN, _ | _, NaN => false
  | Fin x, Fin y => negb (Qle_bool y x)
  | NegInf, NegInf => false
  | NegInf, _ => true
  | PosInf, _ => false
  | Fin _, PosInf => true
  | Fin _, NegInf => false
  end.

(** [a >= b] is [b <= a]; [a > b] is [b < a]. *)
Definition num_geb (a b : number) : bool := num_leb b a.
Definition num_gtb (a b : number) : bool := num_ltb b a.

(** SameValueZero on numbers (the key equality of [Map] and [Set]). *)
Definition num_same (a b : number) : bool :=
  match a, b with
  | NaN, NaN => true
  | PosInf, PosInf => true
  | NegInf, NegInf => true
  | Fin x, Fin y => Qeq_bool x y
  | _, _ => false
  end.

(** ToBoolean on numbers: [0] and NaN are falsy. *)
Definition num_truthy (a : number) : bool :=
  match a with
  | NaN => false
  | Fin x => negb (Qeq_bool x 0)
  | _ => true
  end.

(** [Math.min] and [Math.max] of two numbers: NaN is contagious. *)
Definition Math_min (a b : number) : number :=
  match a, b with
  | NaN, _ | _, NaN => NaN
  | _, _ => if num_leb a b then a else b
  end.

Definition Math_max (a b : number) : number :=
  match a, b with
  | NaN, _ | _, NaN => NaN
  | _, _ => if num_leb a b then b else a
  end.

(** ToInt32: truncate toward zero, wrap modulo 2^32 into the signed range;
    NaN and the infinities become 0. *)
Definition wrap32 (z : Z) : Z :=
  let m := z mod 2 ^ 32 in
  if 2 ^ 31 <=? m then m - 2 ^ 32 else m.

Definition ToInt32 (a : number) : Z :=
  match a with
  | Fin q => wrap32 (Z.quot (Qnum q) (Z.pos (Qden q)))
  | _ => 0
  end.

(** The bitwise operators [&] and [|]. *)
Definition bit_and (a b : number) : number :=
  of_Z (wrap32 (Z.land (ToInt32 a) (ToInt32 b))).
Definition bit_or (a b : number) : number :=
  of_Z (wrap32 (Z.lor (ToInt32 a) (ToInt32 b))).

(** ** Values

    The values that a decoded property list can hold, and [undefined] for
    a missing property.  [null] never arises: every value comes from an
    element of the document.  Objects built by the property-list decoder
    are dictionaries of data (a finite map from keys to values), without
    their prototype.  That is exact where no [dict] of the document has the
    key ["__proto__"] (assigning to it would set the prototype) and for
    reads of keys that [Object.prototype] does not define, which is the
    case of every key that the sources read; a statement of what a read
    gives for any key of any [dict] carries these two conditions. *)

Inductive value :=
  | VUndefined
  | VBool (b : bool)
  | VNumber (n : number)
  | VString (s : string)
  | VDate (time : number)
  | VObject (props : gmap string value)
  | VArray (elems : list value).

(** ToBoolean. *)
Definition truthy (v : value) : bool :=
  match v with
  | VUndefined => false
  | VBool b => b
  | VNumber n => num_truthy n
  | VString s => negb (String.eqb s "")
  | VDate _ | VObject _ | VArray _ => true
  end.

(** [a || b], [a ?? b] and [v !== undefined]. *)
Definition or_ (a b : value) : value := if truthy a then a else b.
Definition nullish (a b : value) : value :=
  match a with VUndefined => b | _ => a end.
Definition defined (v : value) : bool :=
  match v with VUndefined => false | _ => true end.

(** Property read [v[k]] for a property-list key [k]: only dictionaries
    have such properties.  (Reading a property of [undefined] throws; the
    sources read properties of the elements of decoded arrays and of values
    just tested truthy only, and none of these is [undefined].) *)
Definition get (v : value) (k : string) : value :=
  match v with
  | VObject m => default VUndefined (m !! k)
  | _ => VUndefined
  end.

(** [v === s] for a string literal [s]. *)
Definition is_string (v : value) (s : string) : bool :=
  match v with VString t => String.eqb t s | _ => false end.

(** SameValueZero between a key stored in a [Map] and a key looked up, both
    decoded from distinct elements of the document: two objects are never
    the same object. *)
Definition same_key (a b : value) : bool :=
  match a, b with
  | VUndefined, VUndefined => true
  | VBool x, VBool y => Bool.eqb x y
  | VNumber x, VNumber y => num_same x y
  | VString x, VString y => String.eqb x y
  | _, _ => false
  end.

(** ** Exceptions *)

Inductive exn :=
  | TypeError
  | Error (message : string).

Inductive result (A : Type) :=
  | Ok (a : A)
  | Throw (e : exn).
Arguments Ok {A} a.
Arguments Throw {A} e.

Definition bind {A B} (r : result A) (k : A -> result B) : result B :=
  match r with
  | Ok a => k a
  | Throw e => Throw e
  end.

Definition returns {A} (r : result A) : Prop := exists a, r = Ok a.

(** [r1] and [r2] throw the same exception, or return values related by
    [R]. *)
Definition agree {A} (R : A -> A -> Prop) (r1 r2 : result A) : Prop :=
  match r1, r2 with
  | Ok a, Ok b => R a b
  | Throw x, Throw y => x = y
  | _, _ => False
  end.

(** [Array.prototype.map] / [forEach] with a callback that may throw: the
    first exception aborts the loop.  The callback receives the index. *)
Fixpoint mapM_from {A B} (f : A -> nat -> result B) (l : list A) (i : nat)
  : result (list B) :=
  match l with
  | [] => Ok []
  | x :: rest =>
      bind (f x i) (fun y =>
      bind (mapM_from f rest (S i)) (fun ys => Ok (y :: ys)))
  end.

(** ** Strings

    A string is a sequence of code units, taken in 0..255.  Letter case
    is Unicode's on these code units: beside the ASCII letters, the
    capitals 192..222 (but the sign 215) and the small letters 224..254
    (but the sign 247) are 32 apart.  Two small letters have their capital
    above 255, where these strings do not reach: 181 (micro sign, capital
    U+039C) and 255 (capital U+0178); [toUpperCase] leaves them as they are,
    and a statement that depends on their capitals is outside the model. *)

Definition is_upper (c : ascii) : bool :=
  let n := nat_of_ascii c in (65 <=? n)%nat && (n <=? 90)%nat.
Definition is_lower (c : ascii) : bool :=
  let n := nat_of_ascii c in (97 <=? n)%nat && (n <=? 122)%nat.
Definition is_digit (c : ascii) : bool :=
  let n := nat_of_ascii c in (48 <=? n)%nat && (n <=? 57)%nat.
(** White space ([\s], and what [parseInt] skips): TAB, LF, VT, FF, CR,
    SPACE and NBSP. *)
Definition is_space (c : ascii) : bool :=
  let n := nat_of_ascii c in
  ((9 <=? n)%nat && (n <=? 13)%nat) || (n =? 32)%nat || (n =? 160)%nat.

(** The capitals and the small letters beyond ASCII. *)
Definition is_upper_latin (c : ascii) : bool :=
  let n := nat_of_ascii c in (192 <=? n)%nat && (n <=? 222)%nat && negb (n =? 215)%nat.
Definition is_lower_latin (c : ascii) : bool :=
  let n := nat_of_ascii c in (224 <=? n)%nat && (n <=? 254)%nat && negb (n =? 247)%nat.

Definition lower_char (c : ascii) : ascii :=
  if is_upper c || is_upper_latin c then ascii_of_nat (nat_of_ascii c + 32) else c.

(** The capital of a code unit; that of 223 (sharp s) is "SS". *)
Definition upper_char (c : ascii) : string :=
  if (nat_of_ascii c =? 223)%nat then "SS"
  else if is_lower c || is_lower_latin c
       then String (ascii_of_nat (nat_of_ascii c - 32)) EmptyString
       else String c EmptyString.

Fixpoint map_string (f : ascii -> ascii) (s : string) : string :=
  match s with
  | EmptyString => EmptyString
  | String c t => String (f c) (map_string f t)
  end.

Definition toLowerCase : string -> string := map_string lower_char.

Fixpoint toUpperCase (s : string) : string :=
  match s with
  | EmptyString => EmptyString
  | String c t => upper_char c +:+ toUpperCase t
  end.

Fixpoint drop_string (n : nat) (s : string) : string :=
  match n, s with
  | O, _ => s
  | S _, EmptyString => EmptyString
  | S m, String _ t => drop_string m t
  end.

(** [hay.includes(needle)]. *)
Fixpoint includes (hay needle : string) : bool :=
  String.prefix needle hay ||
  match hay with
  | EmptyString => false
  | String _ t => includes t needle
  end.

(** [s.replace(pat, rep)] for a non-empty string pattern: the first
    occurrence only. *)
Fixpoint replace_first (pat rep s : string) : string :=
  if String.prefix pat s then rep +:+ drop_string (String.length pat) s
  else match s with
       | EmptyString => EmptyString
       | String c t => String c (replace_first pat rep t)
       end.

(** [s.endsWith(suffix)]. *)
Fixpoint endsWith (s suffix : string) : bool :=
  String.eqb s suffix ||
  match s with
  | EmptyString => false
  | String _ t => endsWith t suffix
  end.

(** [s.replace(/\.plist$/, '')]. *)
Definition strip_plist_suffix (s : string) : string :=
  if endsWith s ".plist"
  then String.substring 0 (String.length s - 6) s
  else s.

(** Length of the longest prefix whose code units satisfy [p]. *)
Fixpoint span_length (p : ascii -> bool) (s : string) : nat :=
  match s with
  | String c t => if p c then S (span_length p t) else O
  | EmptyString => O
  end.

(** [s.replace(/^[A-Z]{2,}\s+/, '')]: a leading run of at least two
    capitals followed by at least one white space is removed, with all the
    white space that follows the run. *)
Definition strip_vendor_tag (s : string) : string :=
  let n := span_length is_upper s in
  let rest := drop_string n s in
  let m := span_length is_space rest in
  if (2 <=? n)%nat && (1 <=? m)%nat then drop_string m rest else s.

(** [s.split(sep).pop()]: what follows the last separator. *)
Fixpoint after_last (sep : ascii) (s : string) : string :=
  match s with
  | EmptyString => EmptyString
  | String c t =>
      if existsb (Ascii.eqb sep) (list_ascii_of_string t) then after_last sep t
      else if Ascii.eqb c sep then t else s
  end.

(** Decimal rendering of an integer inside a template literal. *)
Definition decimal (z : Z) : string := NilZero.string_of_int (Z.to_int z).

(** The Number value for an integer: the integer itself below 2^53 in
    magnitude, beyond that the nearest double, ties to the even
    significand, and an infinity from 2^1024 on. *)
Definition nearest_double (z : Z) : number :=
  let a := Z.abs z in
  if a <? 2 ^ 53 then of_Z z
  else
    let e := Z.log2 a - 52 in
    let q := Z.shiftr a e in
    let r := a - Z.shiftl q e in
    let half := Z.shiftl 1 (e - 1) in
    let q' := if (half <? r) || ((r =? half) && Z.odd q) then q + 1 else q in
    let v := Z.shiftl q' e in
    if 2 ^ 1024 <=? v then (if 0 <=? z then PosInf else NegInf)
    else of_Z (Z.sgn z * v).

(** [parseInt(s, 10)]: leading white space, an optional sign, then the
    longest run of decimal digits; NaN when there is no digit.  The digits
    are read exactly and the integer rounded once (the licence to drop
    digits after the twentieth is not taken). *)
Fixpoint digits_value (s : string) (acc : Z) : Z :=
  match s with
  | String c t =>
      if is_digit c then digits_value t (10 * acc + Z.of_nat (nat_of_ascii c - 48))
      else acc
  | EmptyString => acc
  end.

Definition parse_unsigned (s : string) : option Z :=
  match s with
  | String c _ => if is_digit c then Some (digits_value s 0) else None
  | EmptyString => None
  end.

Definition parseInt (s : string) : number :=
  let t := drop_string (span_length is_space s) s in
  match t with
  | String "-" u =>
      match parse_unsigned u with Some z => nearest_double (- z) | None => NaN end
  | String "+" u =>
      match parse_unsigned u with Some z => nearest_double z | None => NaN end
  | _ =>
      match parse_unsigned t with Some z => nearest_double z | None => NaN end
  end.

End JS.

(* ===================================================================== *)
(** * The articulation model and the property-list parser
      ([logicArticulationParser.ts]) *)
(* ===================================================================== *)

Module Parser.
Import JS.

(** ** Data model

    Fields filled from the document hold whatever value the document
    gave: the TypeScript annotations are erased at run time. *)

Record MidiMessage := {
  status : number;   (* 144 = Note On, 176 = CC *)
  data1 : value;     (* note number or CC number *)
  data2 : value      (* velocity or CC value *)
}.

Record RemoteTrigger := {
  rt_status : number;
  rt_data1 : value;
  isAutoAssigned : option bool
}.

Record Articulation := {
  art_id : string;
  name : value;
  shortName : value;
  description : value;
  color : value;
  group : value;
  midiMessages : list MidiMessage;
  remoteTrigger : option RemoteTrigger;
  keySwitch : value;
  articulationType : number;   (* 0 = attribute, 1 = direction *)
  midiChannel : option number;
  sourceMap : option string
}.

Record ArticulationSet := {
  set_name : string;
  fileName : string;
  articulations : list Articulation;
  isMerged : option bool;
  sourceMapNames : option (list string)
}.

(** An articulation with its generated [id] blanked: every other field. *)
Definition without_id (art : Articulation) : Articulation :=
  {| art_id := "";
     name := name art;
     shortName := shortName art;
     description := description art;
     color := color art;
     group := group art;
     midiMessages := midiMessages art;
     remoteTrigger := remoteTrigger art;
     keySwitch := keySwitch art;
     articulationType := articulationType art;
     midiChannel := midiChannel art;
     sourceMap := sourceMap art |}.

(** ** The document

    An element of the DOM, through the three properties the parser reads:
    [tagName], [textContent] and [children] (the element children). *)

Inductive Element :=
  | Elem (tagName : string) (textContent : string) (children : list Element).

Definition tagName (e : Element) : string :=
  match e with Elem t _ _ => t end.
Definition textContent (e : Element) : string :=
  match e with Elem _ t _ => t end.
Definition children (e : Element) : list Element :=
  match e with Elem _ _ c => c end.

(** ** The host

    Built-ins that the parser calls.  [DOMParser_parseFromString] gives
    the document element
    of [new DOMParser().parseFromString(text, 'text/xml')];
    [ObjectToNumber] is the numeric coercion of an object or array (it can
    throw); [Date_time] the time value of [new Date(text)]. *)

Record Host := {
  DOMParser_parseFromString : string -> Element;
  parseFloat : string -> number;
  StringToNumber : string -> number;
  Date_time : string -> number;
  ObjectToNumber : value -> result number
}.

(** The readings of [Date.now()] and of
    [Math.random().toString(36).substr(2, 9)] at the n-th articulation. *)
Record Entropy := {
  Date_now : nat -> Z;
  Math_random_suffix : nat -> string
}.

(** ** [document.querySelector('plist > dict')]

    The first element, in document order, that is a [dict] whose parent
    element is a [plist]. *)
Fixpoint find_plist_dict (parent_is_plist : bool) (e : Element) : option Element :=
  match e with
  | Elem tag _ kids =>
      if parent_is_plist && String.eqb tag "dict" then Some e
      else
        (fix first (l : list Element) : option Element :=
           match l with
           | [] => None
           | k :: rest =>
               match find_plist_dict (String.eqb tag "plist") k with
               | Some r => Some r
               | None => first rest
               end
           end) kids
  end.

Definition querySelector_plist_dict (doc : Element) : option Element :=
  find_plist_dict false doc.

Section WithHost.
Variable h : Host.

(** [s || '0'] on strings. *)
Definition or_str (s d : string) : string := if String.eqb s "" then d else s.

(** ** [parsePlistValue] and [parsePlistDict] *)
Fixpoint parsePlistValue (element : Element) : value :=
  match element with
  | Elem tag text kids =>
      if String.eqb tag "string" then VString (or_str text "")
      else if String.eqb tag "integer" then VNumber (parseInt (or_str text "0"))
      else if String.eqb tag "real" then VNumber (parseFloat h (or_str text "0"))
      else if String.eqb tag "true" then VBool true
      else if String.eqb tag "false" then VBool false
      else if String.eqb tag "dict" then
        VObject
          ((fix pairs (l : list Element) (result : gmap string value) :=
              match l with
              | keyElement :: valueElement :: rest =>
                  pairs rest
                    (if String.eqb (tagName keyElement) "key"
                     then <[or_str (textContent keyElement) "" := parsePlistValue valueElement]> result
                     else result)
              | _ => result
              end) kids ∅)
      else if String.eqb tag "array" then VArray (map parsePlistValue kids)
      else if String.eqb tag "data" then VString (or_str text "")
      else if String.eqb tag "date" then VDate (Date_time h (or_str text ""))
      else VString text
  end.

(** The loop of [parsePlistDict]: children taken two by two. *)
Fixpoint parsePlistDict_pairs (l : list Element) (result : gmap string value)
  : gmap string value :=
  match l with
  | keyElement :: valueElement :: rest =>
      parsePlistDict_pairs rest
        (if String.eqb (tagName keyElement) "key"
         then <[or_str (textContent keyElement) "" := parsePlistValue valueElement]> result
         else result)
  | _ => result
  end.

Definition parsePlistDict (dictElement : Element) : gmap string value :=
  parsePlistDict_pairs (children dictElement) ∅.

(** ** Coercions used by the range tests *)

Definition ToNumber (v : value) : result number :=
  match v with
  | VUndefined => Ok NaN
  | VBool b => Ok (if b then of_Z 1 else of_Z 0)
  | VNumber n => Ok n
  | VString s => Ok (StringToNumber h s)
  | VDate t => Ok t
  | VObject _ | VArray _ => ObjectToNumber h v
  end.

(** [v !== undefined && v >= 0 && v <= 127]. *)
Definition in_note_range (v : value) : result bool :=
  if defined v
  then bind (ToNumber v) (fun n => Ok (num_geb n (of_Z 0) && num_leb n (of_Z 127)))
  else Ok false.

(** [v !== undefined && v >= 0]. *)
Definition defined_nonneg (v : value) : result bool :=
  if defined v
  then bind (ToNumber v) (fun n => Ok (num_geb n (of_Z 0)))
  else Ok false.

(** The [Status] string enum, Note On for anything unrecognised. *)
Definition status_of (statusStr : value) : number :=
  if is_string statusStr "Note On" then of_Z 144
  else if is_string statusStr "Control Change" then of_Z 176
  else if is_string statusStr "Poly Pressure" then of_Z 160
  else of_Z 144.

(** ** The switch table: a [Map] keyed by the switches' [ID] *)

Definition SwitchMap := list (value * value).

Fixpoint Map_set (m : SwitchMap) (k v : value) : SwitchMap :=
  match m with
  | [] => [(k, v)]
  | (k', v') :: rest =>
      if same_key k' k then (k', v) :: rest else (k', v') :: Map_set rest k v
  end.

Fixpoint Map_get (m : SwitchMap) (k : value) : value :=
  match m with
  | [] => VUndefined
  | (k', v') :: rest => if same_key k' k then v' else Map_get rest k
  end.

Definition build_switchesMap (switchesData : list value) : SwitchMap :=
  fold_left
    (fun m sw => if defined (get sw "ID") then Map_set m (get sw "ID") sw else m)
    switchesData [].

(** ** One iteration of [articulationsData.forEach] *)

(** The CC messages of an [Output] sub-tree. *)
Definition cc_messages (ccMessages : value) : list MidiMessage :=
  match ccMessages with
  | VArray l =>
      flat_map
        (fun cc =>
           if defined (get cc "Number") && defined (get cc "Value")
           then [{| status := of_Z 176; data1 := get cc "Number"; data2 := get cc "Value" |}]
           else [])
        l
  | _ => []
  end.

(** The remote trigger that the switch table gives, if any. *)
Definition switch_trigger (switchData : value) : result (option RemoteTrigger) :=
  if truthy switchData then
    let switchMb1 := get switchData "MB1" in
    let switchStatus := or_ (get switchData "Status") (VString "Note On") in
    bind (in_note_range switchMb1) (fun ok =>
    Ok (if ok
        then Some {| rt_status := status_of switchStatus;
                     rt_data1 := switchMb1;
                     isAutoAssigned := Some false |}
        else None))
  else Ok None.

(** [name.substring(0, 4).toUpperCase()]: only strings have the method. *)
Definition default_shortName (name : value) : result value :=
  match name with
  | VString s => Ok (VString (toUpperCase (String.substring 0 4 s)))
  | _ => Throw TypeError
  end.

Definition make_id (e : Entropy) (index : nat) : string :=
  "logic_art_" +:+ decimal (Z.of_nat index) +:+ "_" +:+
  decimal (Date_now e index) +:+ "_" +:+ Math_random_suffix e index.

Definition parse_articulation (e : Entropy) (switchesMap : SwitchMap)
    (artData : value) (index : nat) : result Articulation :=
  let name :=
    or_ (get artData "Name")
      (or_ (get artData "name")
         (VString ("Articulation " +:+ decimal (Z.of_nat index + 1)))) in
  bind (if truthy (get artData "ShortName") then Ok (get artData "ShortName")
        else if truthy (get artData "shortName") then Ok (get artData "shortName")
        else default_shortName name) (fun shortName =>
  let outputSettings :=
    or_ (get artData "Output") (or_ (get artData "output") (VObject ∅)) in
  (* Art Conductor format: MB1 is note number, Status is string *)
  let mb1 := get outputSettings "MB1" in
  let statusStr := or_ (get outputSettings "Status") (VString "Note On") in
  bind (in_note_range mb1) (fun mb1_ok =>
  let from_mb1 :=
    if mb1_ok
    then [{| status := status_of statusStr;
             data1 := mb1;
             data2 := or_ (get outputSettings "ValueLow") (VNumber (of_Z 127)) |}]
    else [] in
  (* Standard Logic format: Note key *)
  let keySwitch := nullish (get outputSettings "Note") (get outputSettings "note") in
  bind (in_note_range keySwitch) (fun note_ok =>
  let from_note :=
    if note_ok
    then [{| status := of_Z 144;
             data1 := keySwitch;
             data2 := or_ (get outputSettings "Velocity") (VNumber (of_Z 127)) |}]
    else [] in
  (* CC messages *)
  let ccMessages :=
    or_ (get outputSettings "CC") (or_ (get outputSettings "cc") (VArray [])) in
  let midiMessages := from_mb1 ++ from_note ++ cc_messages ccMessages in
  (* Remote trigger - check Switches array (Art Conductor format) *)
  let artId := or_ (get artData "ID") (get artData "id") in
  let switchData := Map_get switchesMap artId in
  bind (switch_trigger switchData) (fun from_switch =>
  (* Fallback: use output note as remote trigger *)
  bind (match from_switch with
        | Some rt => Ok (Some rt)
        | None =>
            bind (defined_nonneg mb1) (fun ok =>
            Ok (if ok
                then Some {| rt_status := of_Z 144;
                             rt_data1 := mb1;
                             isAutoAssigned := Some true |}
                else None))
        end) (fun remoteTrigger =>
  let color :=
    or_ (get artData "Color")
      (or_ (get artData "color") (VNumber (of_Z (Z.of_nat index mod 16)))) in
  let group :=
    or_ (get artData "Group") (or_ (get artData "group") (VNumber (of_Z 0))) in
  let artType :=
    or_ (get artData "Type") (or_ (get artData "type") (VString "attribute")) in
  let articulationType :=
    if is_string artType "direction" then of_Z 1 else of_Z 0 in
  Ok {| art_id := make_id e index;
        name := name;
        shortName := shortName;
        description :=
          or_ (get artData "Description") (or_ (get artData "description") name);
        color := color;
        group := group;
        midiMessages := midiMessages;
        remoteTrigger := remoteTrigger;
        keySwitch := nullish mb1 keySwitch;
        articulationType := articulationType;
        midiChannel := None;
        sourceMap := None |}))))).

(** ** Views of an entry, for stating what an iteration does *)

(** The [Output] sub-tree of an entry and its [MB1]. *)
Definition output_of (artData : value) : value :=
  or_ (get artData "Output") (or_ (get artData "output") (VObject ∅)).
Definition mb1_of (artData : value) : value := get (output_of artData) "MB1".
Definition id_of (artData : value) : value :=
  or_ (get artData "ID") (get artData "id").

(** ** [parseLogicArticulationSet] *)

Definition no_root_dict : exn := Error "Invalid plist format: no root dict found".

Definition parseLogicArticulationSet (e : Entropy) (plistContent fileName : string)
  : result ArticulationSet :=
  let doc := DOMParser_parseFromString h plistContent in
  match querySelector_plist_dict doc with
  | None => Throw no_root_dict
  | Some rootDict =>
      let rootData := VObject (parsePlistDict rootDict) in
      (* Get the articulation set name *)
      let setName :=
        or_ (get rootData "Name")
          (or_ (get rootData "name") (VString (replace_first ".plist" "" fileName))) in
      (* Clean up Art Conductor naming: only a string has [replace] *)
      bind (match setName with
            | VString s => Ok (strip_vendor_tag (strip_plist_suffix s))
            | _ => Throw TypeError
            end) (fun setName =>
      let articulationsData :=
        or_ (get rootData "Articulations")
          (or_ (get rootData "articulations") (VArray [])) in
      let switchesData :=
        or_ (get rootData "Switches") (or_ (get rootData "switches") (VArray [])) in
      (* only an array has [forEach] *)
      bind (match switchesData with
            | VArray l => Ok (build_switchesMap l)
            | _ => Throw TypeError
            end) (fun switchesMap =>
      bind (match articulationsData with
            | VArray l => mapM_from (parse_articulation e switchesMap) l 0
            | _ => Throw TypeError
            end) (fun articulations =>
      Ok {| set_name := setName;
            fileName := fileName;
            articulations := articulations;
            isMerged := None;
            sourceMapNames := None |})))
  end.

End WithHost.

End Parser.

(* ===================================================================== *)
(** * Auto-assignment of remote triggers ([logicArticulationParser.ts]) *)
(* ===================================================================== *)

Module AutoAssign.
Import JS Parser.

(** [usedNotes], a [Set<number>]: the values added so far.  Membership of
    a number is by SameValueZero, so a repeated [add] changes nothing that
    [has] can observe. *)
Definition NoteSet := list value.

Definition Set_has (usedNotes : NoteSet) (note : Z) : bool :=
  existsb (fun v => same_key v (VNumber (of_Z note))) usedNotes.

Definition Set_add (usedNotes : NoteSet) (v : value) : NoteSet := v :: usedNotes.

(** Truthiness of [rt.isAutoAssigned], an optional boolean. *)
Definition auto_flag (rt : RemoteTrigger) : bool :=
  match isAutoAssigned rt with Some b => b | None => false end.

(** The callback of the first [forEach]:
    [if (art.remoteTrigger && !art.remoteTrigger.isAutoAssigned)
       usedNotes.add(art.remoteTrigger.data1)]. *)
Definition add_if_manual (usedNotes : NoteSet) (art : Articulation) : NoteSet :=
  match remoteTrigger art with
  | Some rt =>
      if negb (auto_flag rt) then Set_add usedNotes (rt_data1 rt) else usedNotes
  | None => usedNotes
  end.

(** The notes of the non-auto-assigned remote triggers. *)
Definition collect_usedNotes (arts : list Articulation) : NoteSet :=
  fold_left add_if_manual arts [].

(** The variables captured by [getNextAvailableNote]. *)
Record Closure := {
  usedNotes : NoteSet;
  nextNote : Z
}.

(** [while (usedNotes.has(nextNote) && nextNote <= 127) nextNote++]; at
    most [128 - nextNote] iterations, which is the fuel given below. *)
Fixpoint skip_used (fuel : nat) (used : NoteSet) (next : Z) : Z :=
  match fuel with
  | O => next
  | S fuel' =>
      if Set_has used next && (next <=? 127)
      then skip_used fuel' used (next + 1)
      else next
  end.

Definition exhausted : exn := Error "No more available MIDI notes for remote triggers".

Definition getNextAvailableNote (c : Closure) : result (Z * Closure) :=
  let next := skip_used (Z.to_nat (128 - nextNote c)) (usedNotes c) (nextNote c) in
  if next >? 127 then Throw exhausted
  else
    let note := next in
    Ok (note, {| usedNotes := Set_add (usedNotes c) (VNumber (of_Z note));
                 nextNote := next + 1 |}).

(** [{ ...art, remoteTrigger: rt }]. *)
Definition with_remoteTrigger (art : Articulation) (rt : RemoteTrigger) : Articulation :=
  {| art_id := art_id art;
     name := name art;
     shortName := shortName art;
     description := description art;
     color := color art;
     group := group art;
     midiMessages := midiMessages art;
     remoteTrigger := Some rt;
     keySwitch := keySwitch art;
     articulationType := articulationType art;
     midiChannel := midiChannel art;
     sourceMap := sourceMap art |}.

Definition auto_trigger (note : Z) : RemoteTrigger :=
  {| rt_status := of_Z 144;
     rt_data1 := VNumber (of_Z note);
     isAutoAssigned := Some true |}.

(** [artSet.articulations.map(...)], threading the closure. *)
Fixpoint assign_articulations (arts : list Articulation) (c : Closure)
  : result (list Articulation) :=
  match arts with
  | [] => Ok []
  | art :: rest =>
      match remoteTrigger art with
      | Some _ =>
          bind (assign_articulations rest c) (fun updated => Ok (art :: updated))
      | None =>
          bind (getNextAvailableNote c) (fun '(note, c') =>
          bind (assign_articulations rest c') (fun updated =>
          Ok (with_remoteTrigger art (auto_trigger note) :: updated)))
      end
  end.

(** [{ ...artSet, articulations }]. *)
Definition with_articulations (artSet : ArticulationSet) (arts : list Articulation)
  : ArticulationSet :=
  {| set_name := set_name artSet;
     fileName := fileName artSet;
     articulations := arts;
     isMerged := isMerged artSet;
     sourceMapNames := sourceMapNames artSet |}.

Definition autoAssignRemoteTriggers (artSet : ArticulationSet) (startNote : Z)
  : result ArticulationSet :=
  let c := {| usedNotes := collect_usedNotes (articulations artSet);
              nextNote := startNote |} in
  bind (assign_articulations (articulations artSet) c) (fun updatedArticulations =>
  Ok (with_articulations artSet updatedArticulations)).

(** Check if any articulations need auto-assigned remote triggers. *)
Definition hasUnassignedRemotes (artSet : ArticulationSet) : bool :=
  existsb (fun art => negb (bool_decide (is_Some (remoteTrigger art))))
    (articulations artSet).

(** [art.remoteTrigger?.isAutoAssigned]. *)
Definition is_auto (art : Articulation) : bool :=
  match remoteTrigger art with
  | Some rt => auto_flag rt
  | None => false
  end.

(** Count auto-assigned remotes. *)
Definition countAutoAssignedRemotes (artSet : ArticulationSet) : nat :=
  List.length (List.filter is_auto (articulations artSet)).

(** Notes of [start..127] that [used] does not hold, ascending: what the
    scan of [getNextAvailableNote] can still hand out. *)
Definition free_notes (used : NoteSet) (start : Z) : list Z :=
  List.filter (fun n => negb (Set_has used n)) (seqZ start (128 - start)).

(** The articulations that lack a remote trigger. *)
Definition unassigned (arts : list Articulation) : list Articulation :=
  List.filter (fun art => negb (bool_decide (is_Some (remoteTrigger art)))) arts.

End AutoAssign.

(* ===================================================================== *)
(** * Track name to articulation set ([app/page.tsx],
      [app/api/articulations/route.ts]) *)
(* ===================================================================== *)

Module Matching.
Import JS Parser.

(** An entry of the catalogue as the search route returns it. *)
Record CatalogueEntry := {
  entry_name : string;
  path : string;
  fullPath : string
}.

Section Route.
(** The library directory, [ART_CONDUCTOR_DIR]. *)
Variable ART_CONDUCTOR_DIR : string.

(** Extract names from paths. *)
Definition entry_of_path (p : string) : CatalogueEntry :=
  let relativePath := replace_first (ART_CONDUCTOR_DIR +:+ "/") "" p in
  let name := after_last "/" (replace_first ".plist" "" relativePath) in
  {| entry_name := name; path := relativePath; fullPath := p |}.

(** [GET /api/articulations?search=...]: [plistFiles] is what the scan of
    the library found; [search] the query parameter, if present. *)
Definition GET (plistFiles : list string) (search : option string)
  : list CatalogueEntry :=
  let search := option_map toLowerCase search in
  let sets := map entry_of_path plistFiles in
  (* Filter by search term if provided *)
  let sets :=
    match search with
    | Some q =>
        if negb (String.eqb q "")
        then List.filter
               (fun s => includes (toLowerCase (entry_name s)) q
                         || includes (toLowerCase (path s)) q)
               sets
        else sets
    | None => sets
    end in
  (* Limit results *)
  firstn 100 sets.

End Route.

(** The test of the cache loop: containment in either direction. *)
Definition cache_hit (name trackName : string) : bool :=
  includes (toLowerCase name) (toLowerCase trackName)
  || includes (toLowerCase trackName) (toLowerCase name).

(** [for (const [name, artSet] of loadedSets)]: the first hit, in insertion
    order. *)
Definition find_cached (loadedSets : list (string * ArticulationSet))
    (trackName : string) : option ArticulationSet :=
  option_map snd (List.find (fun '(name, _) => cache_hit name trackName) loadedSets).

(** Find best match - prefer exact name matches. *)
Definition bestMatch (sets : list CatalogueEntry) (trackName : string)
  : option CatalogueEntry :=
  match sets with
  | [] => None
  | first :: _ =>
      match List.find
              (fun s => includes (toLowerCase (entry_name s)) (toLowerCase trackName))
              sets with
      | Some exactMatch => Some exactMatch
      | None => Some first
      end
  end.

(** What the [onTrackName] handler settles on. *)
Inductive Resolution :=
  | UseCached (artSet : ArticulationSet)
  | LoadFromCatalogue (entry : CatalogueEntry)
  | NoMatch.

Definition onTrackName (ART_CONDUCTOR_DIR : string) (plistFiles : list string)
    (loadedSets : list (string * ArticulationSet)) (trackName : string)
  : Resolution :=
  (* First check if we already have a matching loaded set *)
  match find_cached loadedSets trackName with
  | Some artSet => UseCached artSet
  | None =>
      (* Search API for matching articulation sets *)
      let sets := GET ART_CONDUCTOR_DIR plistFiles (Some trackName) in
      match bestMatch sets trackName with
      | Some entry => LoadFromCatalogue entry
      | None => NoMatch
      end
  end.

(** The catalogue alone: which entry a track name selects when no set is
    loaded yet. *)
Definition resolve (ART_CONDUCTOR_DIR : string) (plistFiles : list string)
    (trackName : string) : option CatalogueEntry :=
  match onTrackName ART_CONDUCTOR_DIR plistFiles [] trackName with
  | LoadFromCatalogue entry => Some entry
  | _ => None
  end.

(** The two tests on a catalogue entry, for a lower-cased query [q]: the
    filter of the route, and the preference of the handler. *)
Definition search_hit (q : string) (s : CatalogueEntry) : bool :=
  includes (toLowerCase (entry_name s)) q || includes (toLowerCase (path s)) q.
Definition name_hit (q : string) (s : CatalogueEntry) : bool :=
  includes (toLowerCase (entry_name s)) q.

(** The claimed rule: containment of the names in either direction. *)
Definition contains_either_way (entryName trackName : string) : bool :=
  includes (toLowerCase entryName) (toLowerCase trackName)
  || includes (toLowerCase trackName) (toLowerCase entryName).

End Matching.

(* ===================================================================== *)
(** * MIDI dispatch on the display side ([midiHandler.ts]) *)
(* ===================================================================== *)

Module MidiHandler.
Import JS Parser.

(** A Web MIDI output port: [send] throws on data it refuses. *)
Record MIDIOutput := {
  output_id : string;
  accepts : number -> value -> value -> bool
}.

(** The fields of the handler that dispatch reads or writes.
    [webSocketOpen] stands for
    [this.webSocket && this.webSocket.readyState === WebSocket.OPEN]. *)
Record MidiHandler := {
  channel : number;
  webSocketOpen : bool;
  selectedOutput : option MIDIOutput
}.

(** What leaves the handler. *)
Inductive Sent :=
  | WsMidi (status : number) (data1 data2 : value)     (* a [{type:'midi',...}] frame *)
  | PortSend (status : number) (data1 data2 : value).  (* [selectedOutput.send] *)

Definition initial : MidiHandler :=
  {| channel := of_Z 0; webSocketOpen := false; selectedOutput := None |}.

Definition setChannel (hd : MidiHandler) (c : number) : MidiHandler :=
  {| channel := Math_max (of_Z 0) (Math_min (of_Z 15) c);
     webSocketOpen := webSocketOpen hd;
     selectedOutput := selectedOutput hd |}.

Definition getChannel (hd : MidiHandler) : number := channel hd.

(** The status that goes on the wire:
    [if (useGlobalChannel && status >= 128 && status < 240)
       status = (status & 0xF0) | this.channel]. *)
Definition outgoing_status (hd : MidiHandler) (useGlobalChannel : bool)
    (status : number) : number :=
  if useGlobalChannel && num_geb status (of_Z 128) && num_ltb status (of_Z 240)
  then
    let messageType := bit_and status (of_Z 240) in
    bit_or messageType (channel hd)
  else status.

(** The Web MIDI loop: the first refused message ends it with [false]. *)
Fixpoint send_to_port (hd : MidiHandler) (out : MIDIOutput)
    (useGlobalChannel : bool) (messages : list MidiMessage) : bool * list Sent :=
  match messages with
  | [] => (true, [])
  | msg :: rest =>
      let status := outgoing_status hd useGlobalChannel (status msg) in
      if accepts out status (data1 msg) (data2 msg)
      then
        let '(ok, sent) := send_to_port hd out useGlobalChannel rest in
        (ok, PortSend status (data1 msg) (data2 msg) :: sent)
      else (false, [])
  end.

Definition sendMessages (hd : MidiHandler) (messages : list MidiMessage)
    (useGlobalChannel : bool) : bool * list Sent :=
  (* Prefer WebSocket if connected *)
  if webSocketOpen hd then
    (true,
     map (fun msg =>
            WsMidi (outgoing_status hd useGlobalChannel (status msg))
                   (data1 msg) (data2 msg))
         messages)
  else
    (* Fall back to Web MIDI *)
    match selectedOutput hd with
    | None => (false, [])
    | Some out => send_to_port hd out useGlobalChannel messages
    end.

(** The three bytes of a dispatched message. *)
Definition wire (s : Sent) : number * value * value :=
  match s with
  | WsMidi st d1 d2 => (st, d1, d2)
  | PortSend st d1 d2 => (st, d1, d2)
  end.

End MidiHandler.

(* ===================================================================== *)
(** * The bridge server ([midi-server.js]) *)
(* ===================================================================== *)

Module Server.
Import JS.

(** Inbound payloads, after [JSON.parse]. *)
Inductive json :=
  | JNull
  | JBool (b : bool)
  | JNumber (n : number)
  | JString (s : string)
  | JArray (elems : list json)
  | JObject (props : gmap string json).

(** [msg.field]: [None] is [undefined]. *)
Definition field (msg : json) (k : string) : option json :=
  match msg with
  | JObject m => m !! k
  | _ => None
  end.

Inductive ReadyState := CONNECTING | OPEN | CLOSING | CLOSED.

Inductive ClientType := BROWSER | TRACK_MONITOR.

(** Frames the server puts on a socket; an absent field was [undefined]
    and is left out by [JSON.stringify]. *)
Inductive Frame :=
  | Connected (port : option string) (status : string) (trackSwitching : bool)
      (wsPort : Z)
  | Pong (port : option string) (wsPort : Z)
  | TrackChange (trackName : option json)
  | ArticulationSetChange (articulationSetId : Z).

(** A socket of [wsClients], with what has been sent on it so far. *)
Record Client := {
  readyState : ReadyState;
  clientType : ClientType;
  outbox : list Frame
}.

Instance ReadyState_eq_dec : EqDecision ReadyState.
Proof. solve_decision. Defined.
Instance ClientType_eq_dec : EqDecision ClientType.
Proof. solve_decision. Defined.

(** The server: the sockets by identity, in insertion order, the MIDI
    output and what was sent to it. *)
Record State := {
  wsClients : list (nat * Client);
  midiOut : bool;
  selectedOutPortName : option string;
  WS_PORT : Z;
  midi_sent : list (option json * option json * option json)
}.

Definition send (c : Client) (f : Frame) : Client :=
  {| readyState := readyState c;
     clientType := clientType c;
     outbox := outbox c ++ [f] |}.

Definition with_clients (s : State) (clients : list (nat * Client)) : State :=
  {| wsClients := clients;
     midiOut := midiOut s;
     selectedOutPortName := selectedOutPortName s;
     WS_PORT := WS_PORT s;
     midi_sent := midi_sent s |}.

(** Broadcast track name to all browser clients. *)
Definition broadcastTrackName (s : State) (trackName : option json) : State :=
  with_clients s
    (map (fun '(id, client) =>
            if bool_decide (readyState client = OPEN)
               && bool_decide (clientType client = BROWSER)
            then (id, send client (TrackChange trackName))
            else (id, client))
         (wsClients s)).

(** Broadcast articulation set change to all browser clients. *)
Definition broadcastArticulationSetChange (s : State) (articulationSetId : Z) : State :=
  with_clients s
    (map (fun '(id, client) =>
            if bool_decide (readyState client = OPEN)
               && bool_decide (clientType client = BROWSER)
            then (id, send client (ArticulationSetChange articulationSetId))
            else (id, client))
         (wsClients s)).

(** Send MIDI message to Logic. *)
Definition sendMidi (s : State) (status data1 data2 : option json) : State :=
  if midiOut s
  then {| wsClients := wsClients s;
          midiOut := midiOut s;
          selectedOutPortName := selectedOutPortName s;
          WS_PORT := WS_PORT s;
          midi_sent := midi_sent s ++ [(status, data1, data2)] |}
  else s.

(** Apply [f] to the socket [ws]. *)
Definition update_client (s : State) (ws : nat) (f : Client -> Client) : State :=
  with_clients s
    (map (fun '(id, client) => if Nat.eqb id ws then (id, f client) else (id, client))
         (wsClients s)).

Definition identify_as_monitor (c : Client) : Client :=
  {| readyState := readyState c;
     clientType := TRACK_MONITOR;
     outbox := outbox c |}.

(** The socket of a new connection is a new object: an identity that no
    socket of [wsClients] has. *)
Definition new_socket (s : State) : nat :=
  S (list_max (map fst (wsClients s))).

(** [wss.on('connection')]. *)
Definition on_connection (s : State) : State :=
  let ws := new_socket s in
  let client :=
    {| readyState := OPEN;
       (* Default to browser client until identified *)
       clientType := BROWSER;
       (* Send current status *)
       outbox := [Connected (selectedOutPortName s)
                    (if midiOut s then "ready" else "no-midi") true (WS_PORT s)] |} in
  (* Track this client for broadcasting *)
  with_clients s (wsClients s ++ [(ws, client)]).

(** [msg.k === text]. *)
Definition field_is (msg : json) (k text : string) : bool :=
  match field msg k with
  | Some (JString s) => String.eqb s text
  | _ => false
  end.

(** [ws.on('message')]; [parsed] is the outcome of
    [JSON.parse(data.toString())], [None] when it throws.  An exception in
    the handler is caught and logged. *)
Definition on_message (s : State) (ws : nat) (parsed : option json) : State :=
  match parsed with
  | None => s
  | Some JNull => s   (* reading [msg.type] throws, caught *)
  | Some msg =>
      if field_is msg "type" "midi" then
        (* MIDI message from browser - send to Logic *)
        sendMidi s (field msg "status") (field msg "data1") (field msg "data2")
      else if field_is msg "type" "ping" then
        (* Browser ping - respond with status and port *)
        update_client s ws (fun c => send c (Pong (selectedOutPortName s) (WS_PORT s)))
      else if field_is msg "type" "identify" then
        (* Client identifying itself *)
        if field_is msg "clientType" "track-monitor"
        then update_client s ws identify_as_monitor
        else s
      else if field_is msg "type" "trackChange" then
        (* Track change from LogicTrackMonitor Swift app *)
        broadcastTrackName s (field msg "trackName")
      else s
  end.

(** [ws.on('close')]. *)
Definition on_close (s : State) (ws : nat) : State :=
  with_clients s (List.filter (fun '(id, _) => negb (Nat.eqb id ws)) (wsClients s)).

(** What the broadcast does to one socket. *)
Definition after_broadcast (trackName : option json) (c : Client) : Client :=
  if bool_decide (readyState c = OPEN) && bool_decide (clientType c = BROWSER)
  then send c (TrackChange trackName)
  else c.

(** What happens to the server, and a run of it. *)
Inductive Event :=
  | Connection
  | Message (ws : nat) (parsed : option json)
  | Close (ws : nat).

Definition step (s : State) (ev : Event) : State :=
  match ev with
  | Connection => on_connection s
  | Message ws parsed => on_message s ws parsed
  | Close ws => on_close s ws
  end.

Definition run (s : State) (events : list Event) : State :=
  fold_left step events s.

(** The [trackChange] frames among those sent on a socket. *)
Definition trackChanges (frames : list Frame) : list Frame :=
  List.filter (fun f => match f with TrackChange _ => true | _ => false end) frames.

(** The socket [ws] of the server, if it is one of [wsClients]. *)
Definition client_of (s : State) (ws : nat) : option Client :=
  option_map snd (List.find (fun '(id, _) => Nat.eqb id ws) (wsClients s)).

End Server.

(* ===================================================================== *)
(** * Auto-assignment over a store of objects

    The same function with its objects in a store: the set, its array of
    articulations, each articulation, and the two variables that
    [getNextAvailableNote] captures.  Writes are explicit here, so that
    what the function does to the objects it is given can be stated. *)
(* ===================================================================== *)

Module Store.
Import JS Parser AutoAssign.

Abbreviation loc := nat (only parsing).

(** The set object: [articulations] is a reference to the array. *)
Record SetObject := {
  o_name : string;
  o_fileName : string;
  o_articulations : loc;
  o_isMerged : option bool;
  o_sourceMapNames : option (list string)
}.

Inductive cell :=
  | CSet (o : SetObject)
  | CArray (elems : list loc)
  | CArticulation (art : Articulation)
  | CNoteSet (notes : NoteSet)      (* [usedNotes] *)
  | CNumber (n : Z).                (* [nextNote] *)

Abbreviation heap := (gmap loc cell) (only parsing).

(** Computations that read and write the store and may throw; the store
    written so far survives an exception. *)
Definition M (A : Type) : Type := heap -> heap * result A.

Definition ret {A} (a : A) : M A := fun h => (h, Ok a).
Definition throw {A} (e : exn) : M A := fun h => (h, Throw e).
Definition bindM {A B} (m : M A) (k : A -> M B) : M B :=
  fun h =>
    match m h with
    | (h', Ok a) => k a h'
    | (h', Throw e) => (h', Throw e)
    end.

Declare Scope store_scope.
Delimit Scope store_scope with store.
Notation "'let*' x ':=' m 'in' k" := (bindM m (fun x => k))
  (at level 10, x name, m at level 200, k at level 200) : store_scope.
Notation "'do' m 'then' k" := (bindM m (fun _ => k))
  (at level 10, m at level 200, k at level 200) : store_scope.
Local Open Scope store_scope.

(** [new]: a location that the store does not hold yet. *)
Definition alloc (c : cell) : M loc :=
  fun h => let l := fresh (dom h) in (<[l := c]> h, Ok l).

Definition write (l : loc) (c : cell) : M unit :=
  fun h => (<[l := c]> h, Ok tt).

Definition read_set (l : loc) : M SetObject :=
  fun h => match h !! l with Some (CSet o) => (h, Ok o) | _ => (h, Throw TypeError) end.
Definition read_array (l : loc) : M (list loc) :=
  fun h => match h !! l with Some (CArray a) => (h, Ok a) | _ => (h, Throw TypeError) end.
Definition read_articulation (l : loc) : M Articulation :=
  fun h => match h !! l with Some (CArticulation a) => (h, Ok a) | _ => (h, Throw TypeError) end.
Definition read_notes (l : loc) : M NoteSet :=
  fun h => match h !! l with Some (CNoteSet u) => (h, Ok u) | _ => (h, Throw TypeError) end.
Definition read_number (l : loc) : M Z :=
  fun h => match h !! l with Some (CNumber n) => (h, Ok n) | _ => (h, Throw TypeError) end.

(** [forEach] and [map] over an array of references. *)
Fixpoint forEach {A} (l : list A) (f : A -> M unit) : M unit :=
  match l with
  | [] => ret tt
  | x :: rest => do f x then forEach rest f
  end.

Fixpoint map_refs {A B} (l : list A) (f : A -> M B) : M (list B) :=
  match l with
  | [] => ret []
  | x :: rest =>
      let* y := f x in
      let* ys := map_refs rest f in
      ret (y :: ys)
  end.

(** [getNextAvailableNote], on the captured [usedNotes] and [nextNote]. *)
Definition getNextAvailableNote (usedNotes nextNote : loc) : M Z :=
  let* used := read_notes usedNotes in
  let* n := read_number nextNote in
  let next := skip_used (Z.to_nat (128 - n)) used n in
  do write nextNote (CNumber next) then
  if next >? 127 then throw exhausted
  else
    let note := next in
    do write usedNotes (CNoteSet (Set_add used (VNumber (of_Z note)))) then
    do write nextNote (CNumber (next + 1)) then
    ret note.

(** The callback of the first [forEach]. *)
Definition note_if_manual (usedNotes : loc) (a : loc) : M unit :=
  let* art := read_articulation a in
  match remoteTrigger art with
  | Some rt =>
      if negb (auto_flag rt)
      then let* used := read_notes usedNotes in
           write usedNotes (CNoteSet (Set_add used (rt_data1 rt)))
      else ret tt
  | None => ret tt
  end.

(** The callback of [map]: the same object when it has a trigger, a new
    object otherwise. *)
Definition assign_one (usedNotes nextNote : loc) (a : loc) : M loc :=
  let* art := read_articulation a in
  match remoteTrigger art with
  | Some _ => ret a
  | None =>
      let* note := getNextAvailableNote usedNotes nextNote in
      alloc (CArticulation (with_remoteTrigger art (auto_trigger note)))
  end.

Definition autoAssignRemoteTriggers (artSet : loc) (startNote : Z) : M loc :=
  let* o := read_set artSet in
  let* arts := read_array (o_articulations o) in
  let* usedNotes := alloc (CNoteSet []) in
  do forEach arts (note_if_manual usedNotes) then
  let* nextNote := alloc (CNumber startNote) in
  let* updatedArticulations := map_refs arts (assign_one usedNotes nextNote) in
  let* arr := alloc (CArray updatedArticulations) in
  alloc (CSet {| o_name := o_name o;
                 o_fileName := o_fileName o;
                 o_articulations := arr;
                 o_isMerged := o_isMerged o;
                 o_sourceMapNames := o_sourceMapNames o |}).

(** The articulation that a reference denotes in a store. *)
Definition articulation_at (h : heap) (a : loc) : option Articulation :=
  match h !! a with
  | Some (CArticulation art) => Some art
  | _ => None
  end.

(** The set that a reference denotes in a store. *)
Definition read_back (h : heap) (artSet : loc) : option ArticulationSet :=
  match h !! artSet with
  | Some (CSet o) =>
      match h !! o_articulations o with
      | Some (CArray elems) =>
          arts ← mapM (articulation_at h) elems;
          Some {| set_name := o_name o;
                  fileName := o_fileName o;
                  articulations := arts;
                  isMerged := o_isMerged o;
                  sourceMapNames := o_sourceMapNames o |}
      | _ => None
      end
  | _ => None
  end.

(** [keeps h0 m post]: run from any store that still holds every object of
    [h0] as it was, [m] leaves a store that does too, and a value it
    returns satisfies [post]. *)
Definition keeps {A} (h0 : heap) (m : M A) (post : A -> Prop) : Prop :=
  forall h, h0 ⊆ h ->
    h0 ⊆ fst (m h) /\ forall a, snd (m h) = Ok a -> post a.

End Store.

(* ===================================================================== *)
(** * Sample data *)
(* ===================================================================== *)

Module Samples.
Import JS Parser AutoAssign.

(** An articulation without remote trigger, as the parser yields for
    [{Name: n, Output: {Note: note}}]. *)
Definition bare (n : string) (note : Z) : Articulation :=
  {| art_id := "logic_art_0_0_x";
     name := VString n;
     shortName := VString (toUpperCase (String.substring 0 4 n));
     description := VString n;
     color := VNumber (of_Z 0);
     group := VNumber (of_Z 0);
     midiMessages :=
       [{| status := of_Z 144; data1 := VNumber (of_Z note);
           data2 := VNumber (of_Z 127) |}];
     remoteTrigger := None;
     keySwitch := VNumber (of_Z note);
     articulationType := of_Z 0;
     midiChannel := None;
     sourceMap := None |}.

(** The same with a remote trigger that was not auto-assigned. *)
Definition keyed (n : string) (note : Z) : Articulation :=
  with_remoteTrigger (bare n note)
    {| rt_status := of_Z 144; rt_data1 := VNumber (of_Z note);
       isAutoAssigned := Some false |}.

Definition set_of (arts : list Articulation) : ArticulationSet :=
  {| set_name := "Strings";
     fileName := "Strings.plist";
     articulations := arts;
     isMerged := None;
     sourceMapNames := None |}.

(** Two articulations to assign. *)
Definition two_bare : ArticulationSet :=
  set_of [bare "Legato" 24; bare "Staccato" 25].

(** One keyed articulation between two to assign. *)
Definition mixed : ArticulationSet :=
  set_of [bare "Legato" 24; keyed "Pizzicato" 0; bare "Staccato" 25].

(** All of 0..127 taken by non-auto remote triggers, and one articulation
    to assign. *)
Definition full_plus_one : ArticulationSet :=
  set_of (map (keyed "Key") (seqZ 0 128) ++ [bare "Legato" 24]).

(** ** Documents *)

Definition leaf (tag text : string) : Element := Elem tag text [].

(** Format B: one switch [{ID:1, MB1:62, Status:"Note On"}] and one
    articulation [{ID:1, Output:{MB1:60, Status:"Note On"}}].  The text
    of the seven container elements, which depends on the white space of
    the file, is left open: [w i] is the text of the i-th. *)
Definition formatB_document (w : nat -> string) : Element :=
  Elem "plist" (w 0%nat)
    [Elem "dict" (w 1%nat)
       [leaf "key" "Switches";
        Elem "array" (w 2%nat)
          [Elem "dict" (w 3%nat)
             [leaf "key" "ID"; leaf "integer" "1";
              leaf "key" "MB1"; leaf "integer" "62";
              leaf "key" "Status"; leaf "string" "Note On"]];
        leaf "key" "Articulations";
        Elem "array" (w 4%nat)
          [Elem "dict" (w 5%nat)
             [leaf "key" "ID"; leaf "integer" "1";
              leaf "key" "Output";
              Elem "dict" (w 6%nat)
                [leaf "key" "MB1"; leaf "integer" "60";
                 leaf "key" "Status"; leaf "string" "Note On"]]]]].

(** The document written without white space between the elements, and
    its DOM. *)
Definition formatB_text : string :=
  "<plist><dict><key>Switches</key><array><dict><key>ID</key><integer>1</integer>"
  +:+ "<key>MB1</key><integer>62</integer><key>Status</key><string>Note On</string>"
  +:+ "</dict></array><key>Articulations</key><array><dict><key>ID</key>"
  +:+ "<integer>1</integer><key>Output</key><dict><key>MB1</key><integer>60</integer>"
  +:+ "<key>Status</key><string>Note On</string></dict></dict></array></dict></plist>".

Definition compact_text (i : nat) : string :=
  match i with
  | 0 | 1 => "SwitchesID1MB162StatusNote OnArticulationsID1OutputMB160StatusNote On"
  | 2 | 3 => "ID1MB162StatusNote On"
  | 4 | 5 => "ID1OutputMB160StatusNote On"
  | _ => "MB160StatusNote On"
  end%nat.

Definition formatB_compact : Element := formatB_document compact_text.

(** A host whose DOM parser yields [doc] and whose other built-ins are
    not called on the sample documents. *)
Definition host_for (doc : Element) : Host :=
  {| DOMParser_parseFromString := fun _ => doc;
     parseFloat := fun _ => NaN;
     StringToNumber := fun _ => NaN;
     Date_time := fun _ => NaN;
     ObjectToNumber := fun _ => Ok NaN |}.

Definition entropy_a : Entropy :=
  {| Date_now := fun _ => 1700000000000;
     Math_random_suffix := fun _ => "k3j9x0q2a" |}.

Definition entropy_b : Entropy :=
  {| Date_now := fun i => 1700000000123 + Z.of_nat i;
     Math_random_suffix := fun _ => "z81hd73bq" |}.

(** A standard-format entry, decoded: [{Name: "Legato", Output: {Note: 60}}]. *)
Definition note_only_entry : value :=
  VObject (<["Name" := VString "Legato"]>
             (<["Output" := VObject (<["Note" := VNumber (of_Z 60)]> ∅)]> ∅)).

(** An Art Conductor entry without switch, decoded:
    [{Output: {MB1: 60, Status: "Note On"}}]. *)
Definition mb1_only_entry : value :=
  VObject (<["Output" :=
               VObject (<["MB1" := VNumber (of_Z 60)]>
                          (<["Status" := VString "Note On"]> ∅))]> ∅).

(** ** A library *)

Definition library_dir : string := "/Users/me/Music/Art Conductor Logic".

Definition library_files : list string :=
  [ "/Users/me/Music/Art Conductor Logic/Violin Section/Legato Pack.plist";
    "/Users/me/Music/Art Conductor Logic/Strings/Violin 1 Solo.plist";
    "/Users/me/Music/Art Conductor Logic/Strings/Violin.plist";
    "/Users/me/Music/Art Conductor Logic/Strings/Stradivari Violin.plist";
    "/Users/me/Music/Art Conductor Logic/Brass/Horn.plist" ].

(** ** A handler and a server *)

Definition handler_on_channel_5 : MidiHandler.MidiHandler :=
  {| MidiHandler.channel := of_Z 5; MidiHandler.webSocketOpen := true; MidiHandler.selectedOutput := None |}.

Import Server.

(** A server with one display client and the detector that reports. *)
Definition two_clients : State :=
  {| wsClients :=
       [(1%nat, {| readyState := OPEN; clientType := BROWSER; outbox := [] |});
        (2%nat, {| readyState := OPEN; clientType := TRACK_MONITOR; outbox := [] |})];
     midiOut := true;
     selectedOutPortName := Some "IAC Driver Bus 1";
     WS_PORT := 7101;
     midi_sent := [] |}.

Definition violin_trackChange : json :=
  JObject (<["type" := JString "trackChange"]>
             (<["trackName" := JString "Violin 1"]> ∅)).

End Samples.

(* ===================================================================== *)
(** * The other exports of [logicArticulationParser.ts] *)
(* ===================================================================== *)

Module ParserExports.
Import JS Parser AutoAssign.

(** Color mapping for Logic articulations. *)
Definition LOGIC_COLORS : gmap Z string :=
  list_to_map
    [ (0, "#808080"); (1, "#e74c3c"); (2, "#e67e22"); (3, "#f1c40f");
      (4, "#2ecc71"); (5, "#1abc9c"); (6, "#3498db"); (7, "#9b59b6");
      (8, "#e91e63"); (9, "#795548"); (10, "#607d8b"); (11, "#00bcd4");
      (12, "#8bc34a"); (13, "#ff5722"); (14, "#673ab7"); (15, "#03a9f4") ].

(** An element of the [keySwitches] argument:
    [{ name: string; note: number; color?: number }]. *)
Record KeySwitch := {
  ks_name : string;
  ks_note : number;
  ks_color : option number
}.

(** [ks.color || 0]. *)
Definition color_or_zero (c : option number) : value :=
  match c with
  | Some n => if num_truthy n then VNumber n else VNumber (of_Z 0)
  | None => VNumber (of_Z 0)
  end.

(** The callback of [keySwitches.map]; [now] is the reading of
    [Date.now()] in it. *)
Definition simple_articulation (now : Z) (ks : KeySwitch) (index : nat) : Articulation :=
  {| art_id := "simple_" +:+ decimal (Z.of_nat index) +:+ "_" +:+ decimal now;
     name := VString (ks_name ks);
     shortName := VString (toUpperCase (String.substring 0 4 (ks_name ks)));
     description := VString (ks_name ks);
     color := color_or_zero (ks_color ks);
     group := VNumber (of_Z 0);
     midiMessages :=
       [{| status := of_Z 144; data1 := VNumber (ks_note ks);
           data2 := VNumber (of_Z 127) |}];
     remoteTrigger :=
       Some {| rt_status := of_Z 144; rt_data1 := VNumber (ks_note ks);
               isAutoAssigned := Some false |};
     keySwitch := VNumber (ks_note ks);
     articulationType := of_Z 0;
     midiChannel := None;
     sourceMap := None |}.

Fixpoint map_indexed {A B} (f : A -> nat -> B) (l : list A) (i : nat) : list B :=
  match l with
  | [] => []
  | x :: rest => f x i :: map_indexed f rest (S i)
  end.

(** Create articulation set from simple key switch definitions; [now i]
    is the reading of [Date.now()] at the i-th key switch. *)
Definition createSimpleArticulationSet (now : nat -> Z) (name : string)
    (keySwitches : list KeySwitch) : ArticulationSet :=
  {| set_name := name;
     fileName := "custom";
     articulations :=
       map_indexed (fun ks index => simple_articulation (now index) ks index)
         keySwitches 0;
     isMerged := None;
     sourceMapNames := None |}.

(** The demo set of [page.tsx]. *)
Definition DEMO_ARTICULATION_SET (now : nat -> Z) : ArticulationSet :=
  createSimpleArticulationSet now "Demo Strings"
    [ {| ks_name := "Sustain"; ks_note := of_Z 0; ks_color := Some (of_Z 6) |};
      {| ks_name := "Staccato"; ks_note := of_Z 1; ks_color := Some (of_Z 1) |};
      {| ks_name := "Spiccato"; ks_note := of_Z 2; ks_color := Some (of_Z 2) |};
      {| ks_name := "Pizzicato"; ks_note := of_Z 3; ks_color := Some (of_Z 4) |};
      {| ks_name := "Tremolo"; ks_note := of_Z 4; ks_color := Some (of_Z 5) |};
      {| ks_name := "Trills"; ks_note := of_Z 5; ks_color := Some (of_Z 7) |};
      {| ks_name := "Harmonics"; ks_note := of_Z 6; ks_color := Some (of_Z 8) |};
      {| ks_name := "Col Legno"; ks_note := of_Z 7; ks_color := Some (of_Z 3) |} ].

(** Helper to convert MIDI note number to note name, for an integer
    note.  [%] takes the sign of the note, and an index outside the table
    reads [undefined]. *)
Definition note_names : list string :=
  ["C"; "C#"; "D"; "D#"; "E"; "F"; "F#"; "G"; "G#"; "A"; "A#"; "B"].

Definition midiNoteToName (note : Z) : string :=
  let octave := note / 12 - 2 in
  let noteName :=
    if 0 <=? Z.rem note 12
    then default "undefined" (note_names !! Z.to_nat (Z.rem note 12))
    else "undefined" in
  noteName +:+ decimal octave.

(** [groups], a [Map<number, Articulation[]>]: the entries in insertion
    order, keys compared as [Map] does. *)
Fixpoint groups_get (groups : list (value * list Articulation)) (k : value)
  : option (list Articulation) :=
  match groups with
  | [] => None
  | (k', arts) :: rest => if same_key k' k then Some arts else groups_get rest k
  end.

Fixpoint groups_set (groups : list (value * list Articulation)) (k : value)
    (arts : list Articulation) : list (value * list Articulation) :=
  match groups with
  | [] => [(k, arts)]
  | (k', arts') :: rest =>
      if same_key k' k then (k', arts) :: rest
      else (k', arts') :: groups_set rest k arts
  end.

(** Group articulations by their group number. *)
Definition groupArticulations (articulations : list Articulation)
  : list (value * list Articulation) :=
  fold_left
    (fun groups art =>
       let existing := default [] (groups_get groups (group art)) in
       groups_set groups (group art) (existing ++ [art]))
    articulations [].

(** ** Views for stating what grouping returns *)

(** The values that a [Map] compares by what they are, not by which
    object they are. *)
Definition primitive (v : value) : bool :=
  match v with
  | VDate _ | VObject _ | VArray _ => false
  | _ => true
  end.

(** One call of the [forEach] callback of [groupArticulations]. *)
Definition group_step (groups : list (value * list Articulation))
    (art : Articulation) : list (value * list Articulation) :=
  groups_set groups (group art)
    (default [] (groups_get groups (group art)) ++ [art]).

(** What [groups.get(k)] gives when [l] lists the members of [k]. *)
Definition found (l : list Articulation) : option (list Articulation) :=
  match l with [] => None | members => Some members end.

Definition in_group (k : value) (art : Articulation) : bool :=
  same_key (group art) k.

(** The shape of one entry of the map: its key is the group of its first
    articulation, and every other articulation of it has that key. *)
Definition entry_ok (entry : value * list Articulation) : Prop :=
  exists art rest,
    entry.2 = art :: rest /\ group art = entry.1
    /\ Forall (fun other => same_key entry.1 (group other) = true) rest.

Definition distinct_keys (keys : list value) : Prop :=
  StronglySorted (fun k k' => same_key k k' = false) keys.

(** ** Views for stating what auto-assignment returns *)

(** The articulations with the notes of [notes] given, in order, to those
    that lack a remote trigger. *)
Fixpoint fill (arts : list Articulation) (notes : list Z) : list Articulation :=
  match arts with
  | [] => []
  | art :: rest =>
      match remoteTrigger art, notes with
      | None, note :: notes' =>
          with_remoteTrigger art (auto_trigger note) :: fill rest notes'
      | _, _ => art :: fill rest notes
      end
  end.

(** An articulation with its remote trigger blanked: every other field. *)
Definition without_trigger (art : Articulation) : Articulation :=
  {| art_id := art_id art;
     name := name art;
     shortName := shortName art;
     description := description art;
     color := color art;
     group := group art;
     midiMessages := midiMessages art;
     remoteTrigger := None;
     keySwitch := keySwitch art;
     articulationType := articulationType art;
     midiChannel := midiChannel art;
     sourceMap := sourceMap art |}.

End ParserExports.

(* ===================================================================== *)
(** * More sample data *)
(* ===================================================================== *)

Module MoreSamples.
Import JS Parser AutoAssign ParserExports Samples.

(** An articulation whose remote trigger the parser took from its output
    note (auto-assigned), and one without remote trigger. *)
Definition fallback_keyed (n : string) (note : Z) : Articulation :=
  with_remoteTrigger (bare n note) (auto_trigger note).

Definition fallback_then_bare : ArticulationSet :=
  set_of [fallback_keyed "Sustain" 0; bare "Legato" 24].

Definition two_key_switches : list KeySwitch :=
  [ {| ks_name := "Sustain"; ks_note := of_Z 24; ks_color := Some (of_Z 6) |};
    {| ks_name := "Pizzicato"; ks_note := of_Z 26; ks_color := None |} ].

End MoreSamples.

(* ===================================================================== *)
(** * The bridge server at start-up and its MIDI input ([midi-server.js]) *)
(* ===================================================================== *)

Module ServerSetup.
Import JS Server.

(** Default port - can be overridden by command line arg or
    auto-detected. *)
Definition DEFAULT_WS_PORT : Z := 7101.

(** Ports to avoid on macOS (used by system services). *)
Definition MACOS_RESERVED_PORTS : list Z := [3000; 5000; 7000].

(** [MACOS_RESERVED_PORTS.includes(port)]. *)
Definition is_reserved (port : Z) : bool :=
  existsb (Z.eqb port) MACOS_RESERVED_PORTS.

(** [while (MACOS_RESERVED_PORTS.includes(port)) port++]: the port only
    grows, so each reserved port ends at most one iteration and the length
    of the list is fuel enough. *)
Fixpoint skip_reserved (fuel : nat) (port : Z) : Z :=
  match fuel with
  | O => port
  | S fuel' => if is_reserved port then skip_reserved fuel' (port + 1) else port
  end.

Definition no_port_found (maxAttempts : nat) : exn :=
  Error ("Could not find available port after "
         +:+ decimal (Z.of_nat maxAttempts) +:+ " attempts").

Section Probe.
(** The outcome of [isPortAvailable(port)] when the scan probes [port]; a
    scan probes a port at most once. *)
Variable isPortAvailable : Z -> bool.

(** The [for] loop with [left] iterations to go. *)
Fixpoint attempts (left : nat) (port : Z) : option Z :=
  match left with
  | O => None
  | S left' =>
      let port := skip_reserved (List.length MACOS_RESERVED_PORTS) port in
      if isPortAvailable port then Some port else attempts left' (port + 1)
  end.

(** Find an available port. *)
Definition findAvailablePort (startPort : Z) (maxAttempts : nat) : result Z :=
  match attempts maxAttempts startPort with
  | Some port => Ok port
  | None => Throw (no_port_found maxAttempts)
  end.

(** The port that [main] settles on before it opens the MIDI ports, or
    [process.exit(1)]. *)
Inductive PortChoice :=
  | Exit1
  | ListenOn (port : number).

Definition main_port (portArg : option string) : PortChoice :=
  let auto :=
    (* Auto-find available port *)
    match findAvailablePort DEFAULT_WS_PORT 10 with
    | Ok port => ListenOn (of_Z port)
    | Throw _ => Exit1
    end in
  match portArg with
  | Some arg =>
      if negb (String.eqb arg "") then
        match parseInt arg with
        | NaN => Exit1
        | port => ListenOn port
        end
      else auto
  | None => auto
  end.

(** Whether [initMidi()] returns (rather than throws), and whether
    [new WebSocket.Server({ port })] comes to listen on [port] (rather
    than emit an error, as on a busy port, or throw, as on a port out of
    range). *)
Variable initMidi_returns : bool.
Variable server_listens : number -> bool.

(** How [main] ends: the process exits with code 1, the promise of [main]
    is rejected and the error logged, or the server listens. *)
Inductive Outcome :=
  | Exited
  | Rejected
  | Listening (port : number).

Definition main (portArg : option string) : Outcome :=
  match main_port portArg with
  | Exit1 => Exited
  | ListenOn port =>
      if initMidi_returns then
        if server_listens port then Listening port else Exited
      else Rejected
  end.

End Probe.

(** ** The output port of [initMidi] *)

Definition preferredOutNames : list string :=
  ["Browser to Cubase"; "Browser to Logic"; "IAC Driver"; "ArticulationRemote";
   "loopMIDI"].

(** [name.toLowerCase().includes(preferred.toLowerCase())]. *)
Definition name_matches (preferred name : string) : bool :=
  includes (toLowerCase name) (toLowerCase preferred).

(** The inner [for]: the first port, from index [i] on, whose name
    matches. *)
Fixpoint first_port (preferred : string) (names : list string) (i : nat)
  : option (nat * string) :=
  match names with
  | [] => None
  | name :: rest =>
      if name_matches preferred name then Some (i, name)
      else first_port preferred rest (S i)
  end.

(** The outer [for]: the first preferred name that some port matches. *)
Fixpoint choose_output (preferred : list string) (names : list string)
  : option (nat * string) :=
  match preferred with
  | [] => None
  | p :: rest =>
      match first_port p names 0 with
      | Some found => Some found
      | None => choose_output rest names
      end
  end.

(** The server as [initMidi] leaves it: [names] are the names of the MIDI
    outputs by index, [openPort i] tells whether [openPort(i)] returns
    (rather than throws). *)
Definition initMidi (names : list string) (openPort : nat -> bool) (wsPort : Z)
  : State :=
  let chosen := choose_output preferredOutNames names in
  {| wsClients := [];
     midiOut := match chosen with Some (i, _) => openPort i | None => false end;
     selectedOutPortName := option_map snd chosen;
     WS_PORT := wsPort;
     midi_sent := [] |}.

(** The outputs of a machine, by index. *)
Definition three_outputs : list string :=
  ["USB Keys"; "IAC Driver Bus 1"; "Browser to Logic"].

(** ** The listener on the MIDI inputs *)

(** [lastArticulationSetId]: [null] at first, then the third byte of a
    message, [undefined] ([None]) when the message had none. *)
Inductive LastId :=
  | Null
  | Seen (id : option Z).

#[global] Instance LastId_eq_dec : EqDecision LastId.
Proof. solve_decision. Defined.

(** The listener connected to the input [name], on a message of integer
    bytes: the new [lastArticulationSetId] and the arguments of the calls
    of [broadcastArticulationSetChange]. *)
Definition on_midi_input (last : LastId) (name : string) (bytes : list Z)
  : LastId * list (option Z) :=
  let status := match bytes !! 0%nat with Some s => of_Z s | None => NaN end in
  let type := bit_and status (of_Z 240) in
  (* Check for PlugSearch PolyPressure messages (articulation set changes) *)
  if String.eqb name "PlugSearch" && num_same type (of_Z 160)
     && bool_decide (bytes !! 1%nat = Some 127)
  then
    let articulationSetId := bytes !! 2%nat in
    if bool_decide (Seen articulationSetId <> last)
    then (Seen articulationSetId, [articulationSetId])
    else (last, [])
  else (last, []).

(** A sequence of messages, each with the name of its input. *)
Fixpoint listen (last : LastId) (messages : list (string * list Z))
  : LastId * list (option Z) :=
  match messages with
  | [] => (last, [])
  | (name, bytes) :: rest =>
      let '(last', calls) := on_midi_input last name bytes in
      let '(last'', calls') := listen last' rest in
      (last'', calls ++ calls')
  end.

(** The frame that [wss.on('connection')] sends first. *)
Definition greeting (s : State) : Frame :=
  Connected (selectedOutPortName s) (if midiOut s then "ready" else "no-midi") true
    (WS_PORT s).

Definition is_greeting (f : Frame) : bool :=
  match f with Connected _ _ _ _ => true | _ => false end.

(** A socket on which [hello] was sent first, and no other frame of its
    kind since. *)
Definition greeted (hello : Frame) (c : Client) : Prop :=
  exists rest, outbox c = hello :: rest /\ existsb is_greeting rest = false.

(** The MIDI messages that a run hands to [sendMidi]. *)
Definition midi_of (ev : Event) : list (option json * option json * option json) :=
  match ev with
  | Message _ (Some msg) =>
      if field_is msg "type" "midi"
      then [(field msg "status", field msg "data1", field msg "data2")]
      else []
  | _ => []
  end.

End ServerSetup.

(* ===================================================================== *)
(** * The display side: frames received, outputs selected
      ([midiHandler.ts]) *)
(* ===================================================================== *)

Module HandlerMore.
Import JS Parser MidiHandler Server.

(** Truthiness of a value of a parsed frame. *)
Definition json_truthy (j : json) : bool :=
  match j with
  | JNull => false
  | JBool b => b
  | JNumber n => num_truthy n
  | JString s => negb (String.eqb s "")
  | JArray _ | JObject _ => true
  end.

(** A call of a registered listener. *)
Inductive Callback :=
  | OnTrackName (trackName : json)
  | OnArticulationSetChange (articulationSetId : Z).

(** [ws.onmessage] on a frame of the server, for one listener of each
    kind: the calls it makes. *)
Definition onmessage (f : Frame) : list Callback :=
  match f with
  | TrackChange (Some trackName) =>
      if json_truthy trackName then [OnTrackName trackName] else []
  | TrackChange None => []
  | ArticulationSetChange articulationSetId =>
      [OnArticulationSetChange articulationSetId]
  | Connected _ _ _ _ | Pong _ _ => []
  end.

(** ** Single messages *)

Definition sendNoteOn (hd : MidiHandler) (note : value) (velocity : option value)
  : bool * list Sent :=
  sendMessages hd
    [{| status := of_Z 144; data1 := note;
        data2 := match velocity with Some v => v | None => VNumber (of_Z 127) end |}]
    true.

Definition sendNoteOff (hd : MidiHandler) (note : value) : bool * list Sent :=
  sendMessages hd
    [{| status := of_Z 128; data1 := note; data2 := VNumber (of_Z 0) |}] true.

Definition sendCC (hd : MidiHandler) (cc val : value) : bool * list Sent :=
  sendMessages hd [{| status := of_Z 176; data1 := cc; data2 := val |}] true.

(** ** Choice of the Web MIDI output *)

(** An output of [midiAccess.outputs]: the port and its [name], which may
    be missing. *)
Record Port := {
  port_output : MIDIOutput;
  port_name : option string
}.

Definition port_id (p : Port) : string := output_id (port_output p).

(** [selectedOutput] and the item of [localStorage] under
    [MIDI_OUTPUT_STORAGE_KEY]. *)
Record Selection := {
  selected : option MIDIOutput;
  stored : option string
}.

(** [selectOutput(outputId)]; [midiAccess] is [None] before Web MIDI is
    granted.  The [forEach] keeps the last output that has the id. *)
Definition selectOutput (midiAccess : option (list Port)) (sel : Selection)
    (outputId : string) : bool * Selection :=
  match midiAccess with
  | None => (false, sel)
  | Some outputs =>
      let foundOutput :=
        fold_left
          (fun found output =>
             if String.eqb (port_id output) outputId then Some output else found)
          outputs None in
      match foundOutput with
      | Some output =>
          (true, {| selected := Some (port_output output); stored := Some outputId |})
      | None => (false, sel)
      end
  end.

Definition preferredNames : list string :=
  ["IAC Driver"; "Browser to Logic"; "loopMIDI"; "Session"].

(** [output.name?.toLowerCase().includes(preferredName.toLowerCase())]. *)
Definition port_matches (preferredName : string) (output : Port) : bool :=
  match port_name output with
  | Some name => includes (toLowerCase name) (toLowerCase preferredName)
  | None => false
  end.

Fixpoint first_preferred (preferred : list string) (allOutputs : list Port)
  : option Port :=
  match preferred with
  | [] => None
  | preferredName :: rest =>
      match List.find (port_matches preferredName) allOutputs with
      | Some output => Some output
      | None => first_preferred rest allOutputs
      end
  end.

Definition autoSelectOutput (midiAccess : option (list Port)) (sel : Selection)
  : Selection :=
  match midiAccess with
  | None => sel
  | Some allOutputs =>
      (* Try to restore from localStorage *)
      let savedOutput :=
        match stored sel with
        | Some savedOutputId =>
            if negb (String.eqb savedOutputId "")
            then List.find (fun o => String.eqb (port_id o) savedOutputId) allOutputs
            else None
        | None => None
        end in
      match savedOutput with
      | Some output =>
          {| selected := Some (port_output output); stored := stored sel |}
      | None =>
          (* Auto-select IAC Driver (macOS) for Logic Pro *)
          match first_preferred preferredNames allOutputs with
          | Some output =>
              {| selected := Some (port_output output);
                 stored := Some (port_id output) |}
          | None => sel
          end
      end
  end.

(** ** Two outputs *)

Definition iac_port : Port :=
  {| port_output := {| output_id := "out-2"; accepts := fun _ _ _ => true |};
     port_name := Some "IAC Driver Bus 1" |}.

Definition usb_port : Port :=
  {| port_output := {| output_id := "out-7"; accepts := fun _ _ _ => true |};
     port_name := Some "USB Keys" |}.

Definition nothing_selected : Selection := {| selected := None; stored := None |}.

(** A handler on channel 5 without WebSocket, with the first of the two
    outputs selected; and a Note On followed by a message of status 0xF0. *)
Definition port_handler_on_channel_5 : MidiHandler :=
  {| channel := of_Z 5; webSocketOpen := false;
     selectedOutput := Some (port_output iac_port) |}.

Definition note_then_system : list MidiMessage :=
  [ {| status := of_Z 144; data1 := VNumber (of_Z 60); data2 := VNumber (of_Z 100) |};
    {| status := of_Z 240; data1 := VNumber (of_Z 1); data2 := VNumber (of_Z 2) |} ].

(** An output that refuses everything but Note On and Note Off on channel
    1, selected on a handler without WebSocket; and three messages. *)
Definition notes_only : MIDIOutput :=
  {| output_id := "out-9";
     accepts := fun status _ _ => num_same status (of_Z 144) || num_same status (of_Z 128) |}.

Definition handler_on_notes_only : MidiHandler :=
  {| channel := of_Z 0; webSocketOpen := false; selectedOutput := Some notes_only |}.

Definition note_cc_note : list MidiMessage :=
  [ {| status := of_Z 144; data1 := VNumber (of_Z 60); data2 := VNumber (of_Z 100) |};
    {| status := of_Z 176; data1 := VNumber (of_Z 1); data2 := VNumber (of_Z 64) |};
    {| status := of_Z 128; data1 := VNumber (of_Z 60); data2 := VNumber (of_Z 0) |} ].

End HandlerMore.

(* ===================================================================== *)
(** * The page: loading sets ([app/page.tsx]) *)
(* ===================================================================== *)

Module Page.
Import JS Parser AutoAssign ParserExports Matching.

(** The state of [Home] that loading touches. *)
Record PageState := {
  currentSet : ArticulationSet;
  currentTrack : string;
  loadedSets : list (string * ArticulationSet)
}.

(** [new Map(prev).set(name, artSet)]: a name already there keeps its
    place. *)
Fixpoint loaded_set (m : list (string * ArticulationSet)) (name : string)
    (artSet : ArticulationSet) : list (string * ArticulationSet) :=
  match m with
  | [] => [(name, artSet)]
  | (k, v) :: rest =>
      if String.eqb k name then (k, artSet) :: rest
      else (k, v) :: loaded_set rest name artSet
  end.

(** Parse, then auto-assign remote triggers if needed. *)
Definition load (h : Host) (e : Entropy) (content fileName : string)
  : result ArticulationSet :=
  bind (parseLogicArticulationSet h e content fileName) (fun artSet =>
  if hasUnassignedRemotes artSet
  then autoAssignRemoteTriggers artSet 0
  else Ok artSet).

(** [setLoadedSets(...); setCurrentSet(artSet)]. *)
Definition show_loaded (st : PageState) (artSet : ArticulationSet) : PageState :=
  {| currentSet := artSet;
     currentTrack := currentTrack st;
     loadedSets := loaded_set (loadedSets st) (set_name artSet) artSet |}.

(** One file of [handleFileUpload]: an exception is caught and logged. *)
Definition upload_file (h : Host) (e : Entropy) (st : PageState)
    (fileName content : string) : PageState :=
  if endsWith fileName ".plist" || endsWith fileName ".xml" then
    match load h e content fileName with
    | Ok artSet => show_loaded st artSet
    | Throw _ => st
    end
  else st.

Section Library.
(** The library as the two routes show it: the directory, the files found
    by the scan, and the [content] that the load route answers for a
    [path], if it answers one. *)
Variable ART_CONDUCTOR_DIR : string.
Variable plistFiles : list string.
Variable POST_content : string -> option string.

(** The listener given to [midiHandler.onTrackName]; [online] tells
    whether the search request is answered (a request that fails is caught
    and logged). *)
Definition track_changed (h : Host) (e : Entropy) (online : bool) (st : PageState)
    (trackName : string) : PageState :=
  let st :=
    {| currentSet := currentSet st;
       currentTrack := trackName;
       loadedSets := loadedSets st |} in
  match onTrackName ART_CONDUCTOR_DIR plistFiles (loadedSets st) trackName with
  | UseCached artSet =>
      {| currentSet := artSet;
         currentTrack := currentTrack st;
         loadedSets := loadedSets st |}
  | LoadFromCatalogue bestMatch =>
      if online then
        match POST_content (path bestMatch) with
        | Some content =>
            if negb (String.eqb content "") then
              match load h e content (entry_name bestMatch) with
              | Ok artSet => show_loaded st artSet
              | Throw _ => st
              end
            else st
        | None => st
        end
      else st
  | NoMatch => st
  end.

(** What happens to the page. *)
Inductive PageEvent :=
  | Upload (e : Entropy) (fileName content : string)
  | Track (e : Entropy) (online : bool) (trackName : string).

Definition page_step (h : Host) (st : PageState) (ev : PageEvent) : PageState :=
  match ev with
  | Upload e fileName content => upload_file h e st fileName content
  | Track e online trackName => track_changed h e online st trackName
  end.

Definition page_run (h : Host) (st : PageState) (events : list PageEvent)
  : PageState :=
  fold_left (page_step h) events st.

End Library.

(** The page as it is first rendered; [now] gives the readings of
    [Date.now()] while the demo set is built. *)
Definition first_render (now : nat -> Z) : PageState :=
  {| currentSet := DEMO_ARTICULATION_SET now;
     currentTrack := "";
     loadedSets := [] |}.

(** A cache in order: every set under its own name, complete, no name twice. *)
Definition cache_ok (m : list (string * ArticulationSet)) : Prop :=
  Forall (fun entry => entry.1 = set_name entry.2
                       /\ hasUnassignedRemotes entry.2 = false) m
  /\ NoDup (map fst m).

(** ** The grid ([ArticulationGrid.tsx]) *)

Inductive FilterType := All | Attribute | Direction.

(** [a.articulationType === n]. *)
Definition has_type (n : Z) (a : Articulation) : bool :=
  match articulationType a with
  | Fin q => Qeq_bool q (inject_Z n)
  | _ => false
  end.

(** The type filter of [filteredArticulations]. *)
Definition filter_by_type (filterType : FilterType) (arts : list Articulation)
  : list Articulation :=
  match filterType with
  | Attribute => List.filter (has_type 0) arts
  | Direction => List.filter (has_type 1) arts
  | All => arts
  end.

(** [typeCount]. *)
Definition typeCount (artSet : ArticulationSet) : nat * nat :=
  (List.length (List.filter (has_type 0) (articulations artSet)),
   List.length (List.filter (has_type 1) (articulations artSet))).

End Page.

(* ===================================================================== *)
(** * Views of a [dict] element *)
(* ===================================================================== *)

Module PlistView.
Import JS Parser.

(** The children of a [dict] taken two by two, as the loop of
    [parsePlistDict] takes them; a child left over at the end is in no
    pair. *)
Fixpoint pairs (l : list Element) : list (Element * Element) :=
  match l with
  | keyElement :: valueElement :: rest => (keyElement, valueElement) :: pairs rest
  | _ => []
  end.

(** A pair that sets the key [k]: its first element is a [key] element
    with text [k]. *)
Definition sets_key (k : string) (pair : Element * Element) : bool :=
  String.eqb (tagName pair.1) "key" && String.eqb (textContent pair.1) k.

(** The property names that every object inherits from
    [Object.prototype]: reading one of them never gives [undefined], and
    assigning to ["__proto__"] sets the prototype instead of a property. *)
Definition Object_prototype_names : list string :=
  ["__proto__"; "constructor"; "hasOwnProperty"; "isPrototypeOf";
   "propertyIsEnumerable"; "toLocaleString"; "toString"; "valueOf";
   "__defineGetter__"; "__defineSetter__"; "__lookupGetter__"; "__lookupSetter__"].

(** A [dict] with a repeated key, a pair that does not start with a
    [key] element, and a child left over. *)
Definition untidy_dict : Element :=
  Elem "dict" ""
    [ Elem "key" "Name" []; Elem "string" "Violins" [];
      Elem "string" "stray" []; Elem "string" "skipped" [];
      Elem "key" "Name" []; Elem "string" "Violas" [];
      Elem "key" "Left over" [] ].

End PlistView.

(* ===================================================================== *)
(** * The track detector ([LogicTrackMonitor], Swift) *)
(* ===================================================================== *)

Module Detector.

(** [WebSocketClient.isConnected], [LogicTrackMonitor.lastTrackName], and
    the blocks that [onTrackChanged] has handed to
    [DispatchQueue.main.async] and that have not run yet, oldest first:
    each holds the track name it will send. *)
Record DetectorState := {
  isConnected : bool;
  lastTrackName : string;
  deferred : list string
}.

Definition launched : DetectorState :=
  {| isConnected := false; lastTrackName := ""; deferred := [] |}.

(** What the detector puts on its socket. *)
Inductive Outgoing :=
  | Identify                       (* [{type: "identify", clientType: "track-monitor"}] *)
  | SendTrack (trackName : string). (* [{type: "trackChange", trackName}] *)

(** What happens on the main queue of the detector: the two delegate
    calls, a poll or notification that has read the track name [trackName]
    off Logic, and the oldest deferred block coming to run. *)
Inductive DetectorEvent :=
  | DidOpen
  | DidClose
  | Observed (trackName : string)
  | RunDeferred.

(** [send(trackName:)]: [guard isConnected else { return }]. *)
Definition send_track (st : DetectorState) (trackName : string) : list Outgoing :=
  if isConnected st then [SendTrack trackName] else [].

Definition detector_step (st : DetectorState) (ev : DetectorEvent)
  : DetectorState * list Outgoing :=
  match ev with
  | DidOpen =>
      ({| isConnected := true; lastTrackName := lastTrackName st;
          deferred := deferred st |}, [Identify])
  | DidClose =>
      ({| isConnected := false; lastTrackName := lastTrackName st;
          deferred := deferred st |}, [])
  | Observed trackName =>
      (* if trackName != lastTrackName { lastTrackName = trackName;
                                          onTrackChanged?(trackName) } *)
      if negb (String.eqb trackName (lastTrackName st))
      then ({| isConnected := isConnected st; lastTrackName := trackName;
               deferred := deferred st ++ [trackName] |}, [])
      else (st, [])
  | RunDeferred =>
      (* DispatchQueue.main.async { ...; self?.webSocket.send(trackName: trackName) } *)
      match deferred st with
      | [] => (st, [])
      | trackName :: rest =>
          ({| isConnected := isConnected st; lastTrackName := lastTrackName st;
              deferred := rest |}, send_track st trackName)
      end
  end.

Fixpoint detector_run (st : DetectorState) (events : list DetectorEvent)
  : DetectorState * list Outgoing :=
  match events with
  | [] => (st, [])
  | ev :: rest =>
      let '(st', out) := detector_step st ev in
      let '(st'', out') := detector_run st' rest in
      (st'', out ++ out')
  end.

(** The events that do not open the connection. *)
Definition keeps_closed (ev : DetectorEvent) : bool :=
  match ev with DidOpen => false | _ => true end.

(** As many runs of deferred blocks as blocks are waiting. *)
Definition flush (st : DetectorState) : list DetectorEvent :=
  replicate (List.length (deferred st)) RunDeferred.

End Detector.

(* ===================================================================== *)
(** * The definitions at work *)
(* ===================================================================== *)

Module Examples.
Import JS Parser AutoAssign Matching MidiHandler Samples.

Example parseInt_digits : parseInt "62" = of_Z 62.
Proof. reflexivity. Qed.

Example parseInt_prefix : parseInt "  -7px" = of_Z (-7).
Proof. reflexivity. Qed.

Example parseInt_none : parseInt "px" = NaN.
Proof. reflexivity. Qed.

Example set_name_of_file :
  strip_vendor_tag (strip_plist_suffix (replace_first ".plist" "" "AC Solo Violin.plist"))
  = "Solo Violin".
Proof. reflexivity. Qed.

Example one_capital_is_no_vendor_tag : strip_vendor_tag "A Violin" = "A Violin".
Proof. reflexivity. Qed.

Example replace_first_once : replace_first ".plist" "" "a.plist.plist" = "a.plist".
Proof. reflexivity. Qed.

Example short_name : toUpperCase (String.substring 0 4 "Legato") = "LEGA".
Proof. reflexivity. Qed.

Example entry_of_nested_path :
  entry_of_path library_dir
    "/Users/me/Music/Art Conductor Logic/Strings/Violin 1 Solo.plist"
  = {| entry_name := "Violin 1 Solo";
       path := "Strings/Violin 1 Solo.plist";
       fullPath := "/Users/me/Music/Art Conductor Logic/Strings/Violin 1 Solo.plist" |}.
Proof. reflexivity. Qed.

Example search_by_directory_name :
  map entry_name (GET library_dir library_files (Some "Violin"))
  = ["Legato Pack"; "Violin 1 Solo"; "Violin"; "Stradivari Violin"].
Proof. vm_compute. reflexivity. Qed.

Example assigned_notes_skip_the_used_one :
  option_map
    (fun r => map (fun art => option_map rt_data1 (remoteTrigger art)) (articulations r))
    (match autoAssignRemoteTriggers mixed 0 with Ok r => Some r | Throw _ => None end)
  = Some [Some (VNumber (of_Z 1)); Some (VNumber (of_Z 0)); Some (VNumber (of_Z 2))].
Proof. reflexivity. Qed.

Example negative_start_note_is_handed_out :
  option_map
    (fun r => map (fun art => option_map rt_data1 (remoteTrigger art)) (articulations r))
    (match autoAssignRemoteTriggers two_bare (-1) with Ok r => Some r | Throw _ => None end)
  = Some [Some (VNumber (of_Z (-1))); Some (VNumber (of_Z 0))].
Proof. reflexivity. Qed.

Example no_output_nothing_sent :
  sendMessages initial
    [{| status := of_Z 144; data1 := VNumber (of_Z 60); data2 := VNumber (of_Z 127) |}]
    true
  = (false, []).
Proof. reflexivity. Qed.

Example channel_not_applied_on_request :
  sendMessages handler_on_channel_5
    [{| status := of_Z 144; data1 := VNumber (of_Z 60); data2 := VNumber (of_Z 127) |}]
    false
  = (true, [WsMidi (of_Z 144) (VNumber (of_Z 60)) (VNumber (of_Z 127))]).
Proof. reflexivity. Qed.

End Examples.

(* ===================================================================== *)
(** * Facts about numbers *)
(* ===================================================================== *)

Module NumberFacts.
Import JS.

Lemma num_leb_of_Z (a b : Z) : num_leb (of_Z a) (of_Z b) = (a <=? b).
Proof.
  unfold num_leb, of_Z, Qle_bool, inject_Z. cbn [Qnum Qden].
  now rewrite !Z.mul_1_r.
Qed.

Lemma num_ltb_of_Z (a b : Z) : num_ltb (of_Z a) (of_Z b) = (a <? b).
Proof.
  unfold num_ltb, of_Z, Qle_bool, inject_Z. cbn [Qnum Qden].
  rewrite !Z.mul_1_r. destruct (Z.leb_spec b a), (Z.ltb_spec a b); trivial; lia.
Qed.

Lemma num_geb_of_Z (a b : Z) : num_geb (of_Z a) (of_Z b) = (b <=? a).
Proof. apply num_leb_of_Z. Qed.

Lemma num_same_of_Z (a b : Z) : num_same (of_Z a) (of_Z b) = (a =? b).
Proof.
  unfold num_same, of_Z.
  destruct (Z.eqb_spec a b) as [-> | Hne].
  - apply Qeq_bool_iff. reflexivity.
  - apply not_true_is_false. intros H. apply Qeq_bool_iff in H.
    unfold Qeq, inject_Z in H. cbn [Qnum Qden] in H. lia.
Qed.

Lemma Math_min_of_Z (a b : Z) : Math_min (of_Z a) (of_Z b) = of_Z (Z.min a b).
Proof.
  change (Math_min (of_Z a) (of_Z b))
    with (if num_leb (of_Z a) (of_Z b) then of_Z a else of_Z b).
  rewrite num_leb_of_Z. destruct (Z.leb_spec a b); f_equal; lia.
Qed.

Lemma Math_max_of_Z (a b : Z) : Math_max (of_Z a) (of_Z b) = of_Z (Z.max a b).
Proof.
  change (Math_max (of_Z a) (of_Z b))
    with (if num_leb (of_Z a) (of_Z b) then of_Z b else of_Z a).
  rewrite num_leb_of_Z. destruct (Z.leb_spec a b); f_equal; lia.
Qed.

Lemma wrap32_small (z : Z) : - 2 ^ 31 <= z < 2 ^ 31 -> wrap32 z = z.
Proof.
  intros Hz. unfold wrap32.
  destruct (Z.leb_spec (2 ^ 31) (z mod 2 ^ 32)) as [H | H].
  - destruct (Z.neg_nonneg_cases z) as [Hneg | Hpos].
    + replace z with (z + 2 ^ 32 - 1 * 2 ^ 32) at 1 2 by ring.
      rewrite Zminus_mod, Z_mod_mult, Z.sub_0_r, Zmod_mod.
      rewrite (Z.mod_small (z + 2 ^ 32)) by lia. lia.
    + rewrite Z.mod_small in H by lia. lia.
  - destruct (Z.neg_nonneg_cases z) as [Hneg | Hpos].
    + replace z with (z + 2 ^ 32 - 1 * 2 ^ 32) in H at 1 by ring.
      rewrite Zminus_mod, Z_mod_mult, Z.sub_0_r, Zmod_mod in H.
      rewrite (Z.mod_small (z + 2 ^ 32)) in H by lia. lia.
    + apply Z.mod_small. lia.
Qed.

Lemma ToInt32_of_Z (z : Z) : - 2 ^ 31 <= z < 2 ^ 31 -> ToInt32 (of_Z z) = z.
Proof.
  intros Hz. unfold ToInt32, of_Z, inject_Z. cbn [Qnum Qden].
  rewrite Z.quot_1_r. now apply wrap32_small.
Qed.

(** The low four bits of a byte whose high nibble was kept and whose low
    nibble was replaced. *)
Lemma nibble_replace (s c : Z) :
  0 <= c <= 15 ->
  Z.land (Z.lor (Z.land s 240) c) 15 = c
  /\ Z.land (Z.lor (Z.land s 240) c) 240 = Z.land s 240.
Proof.
  intros Hc. split.
  - rewrite Z.land_lor_distr_l, <- Z.land_assoc.
    change (Z.land 240 15) with 0. rewrite Z.land_0_r, Z.lor_0_l.
    change 15 with (Z.ones 4). rewrite Z.land_ones by lia.
    apply Z.mod_small. lia.
  - rewrite Z.land_lor_distr_l, <- Z.land_assoc.
    change (Z.land 240 240) with 240.
    assert (Z.land c 240 = 0) as ->.
    { assert (c = 0 \/ c = 1 \/ c = 2 \/ c = 3 \/ c = 4 \/ c = 5 \/ c = 6 \/ c = 7
              \/ c = 8 \/ c = 9 \/ c = 10 \/ c = 11 \/ c = 12 \/ c = 13 \/ c = 14
              \/ c = 15) as Hcases by lia.
      repeat (destruct Hcases as [-> | Hcases]; [reflexivity |]). now subst. }
    apply Z.lor_0_r.
Qed.

Lemma land_byte (s m : Z) : 0 <= s -> 0 <= m < 256 -> 0 <= Z.land s m < 256.
Proof.
  intros Hs Hm. split; [apply Z.land_nonneg; lia |].
  destruct (Z.eq_dec (Z.land s m) 0) as [-> | Hnz]; [lia |].
  assert (0 <= Z.land s m) by (apply Z.land_nonneg; lia).
  change 256 with (2 ^ 8). apply Z.log2_lt_pow2; [lia |].
  pose proof (Z.log2_land s m Hs (proj1 Hm)) as Hl.
  destruct (Z.eq_dec m 0) as [-> | Hm0]; [rewrite Z.land_0_r in Hnz; lia |].
  assert (Z.log2 m < 8) by (apply Z.log2_lt_pow2; lia). lia.
Qed.

Lemma lor_byte (a c : Z) : 0 <= a < 256 -> 0 <= c < 256 -> 0 <= Z.lor a c < 256.
Proof.
  intros Ha Hc. split; [apply Z.lor_nonneg; lia |].
  destruct (Z.eq_dec (Z.lor a c) 0) as [-> | Hnz]; [lia |].
  assert (0 <= Z.lor a c) by (apply Z.lor_nonneg; lia).
  change 256 with (2 ^ 8). apply Z.log2_lt_pow2; [lia |].
  rewrite Z.log2_lor by lia. apply Z.max_lub_lt.
  - destruct (Z.eq_dec a 0) as [-> | Hn]; [cbn; lia |]. apply Z.log2_lt_pow2; lia.
  - destruct (Z.eq_dec c 0) as [-> | Hn]; [cbn; lia |]. apply Z.log2_lt_pow2; lia.
Qed.

End NumberFacts.

(* ===================================================================== *)
(** * MIDI dispatch: channel policy *)
(* ===================================================================== *)

Module MidiHandlerFacts.
Import JS Parser MidiHandler NumberFacts Samples.

(** The status put on the wire for an integer status and an integer
    channel, over the integers. *)
Lemma outgoing_status_int (hd : MidiHandler) (c s : Z) :
  channel hd = of_Z c -> 0 <= c <= 15 -> 0 <= s ->
  outgoing_status hd true (of_Z s)
  = of_Z (if (128 <=? s) && (s <? 240) then Z.lor (Z.land s 240) c else s).
Proof.
  intros Hch Hc Hs. unfold outgoing_status.
  rewrite num_geb_of_Z, num_ltb_of_Z. cbn [andb].
  destruct (Z.leb_spec 128 s) as [H1 | H1]; cbn [andb]; [| reflexivity].
  destruct (Z.ltb_spec s 240) as [H2 | H2]; [| reflexivity].
  rewrite Hch. unfold bit_or, bit_and.
  rewrite (ToInt32_of_Z s), (ToInt32_of_Z 240), (ToInt32_of_Z c) by lia.
  pose proof (land_byte s 240 Hs ltac:(lia)) as Hland.
  rewrite (wrap32_small (Z.land s 240)) by lia.
  rewrite ToInt32_of_Z by lia.
  pose proof (lor_byte (Z.land s 240) c Hland ltac:(lia)) as Hlor.
  rewrite wrap32_small by lia. reflexivity.
Qed.

(** What [sendMessages] hands out is, in order, the messages with their
    outgoing status: all of them over the WebSocket, those before the
    first refusal on a Web MIDI port. *)
Lemma send_to_port_prefix (hd : MidiHandler) (out : MIDIOutput) (flag : bool)
    (messages : list MidiMessage) :
  exists n,
    map wire (snd (send_to_port hd out flag messages))
    = firstn n (map (fun m => (outgoing_status hd flag (status m), data1 m, data2 m))
                  messages).
Proof.
  induction messages as [| m rest [n IH]]; [exists 0%nat; reflexivity |].
  cbn [send_to_port].
  destruct (accepts out _ _ _); [| exists 0%nat; reflexivity].
  destruct (send_to_port hd out flag rest) as [ok sent]. cbn [snd] in *.
  exists (S n). cbn. now rewrite IH.
Qed.

Lemma sendMessages_prefix (hd : MidiHandler) (flag : bool) (messages : list MidiMessage) :
  exists n,
    map wire (snd (sendMessages hd messages flag))
    = firstn n (map (fun m => (outgoing_status hd flag (status m), data1 m, data2 m))
                  messages)
    /\ (webSocketOpen hd = true -> n = List.length messages).
Proof.
  unfold sendMessages. destruct (webSocketOpen hd).
  - exists (List.length messages). split; [| reflexivity]. cbn [snd].
    rewrite map_map. cbn [wire].
    rewrite <- (length_map (fun m => (outgoing_status hd flag (status m), data1 m, data2 m))).
    now rewrite firstn_all.
  - destruct (selectedOutput hd) as [out |].
    + destruct (send_to_port_prefix hd out flag messages) as [n Hn].
      exists n. split; [exact Hn | discriminate].
    + exists 0%nat. split; [reflexivity | discriminate].
Qed.

Lemma setChannel_int (hd : MidiHandler) (z : Z) :
  channel (setChannel hd (of_Z z)) = of_Z (Z.max 0 (Z.min 15 z)).
Proof.
  unfold setChannel. cbn [channel]. now rewrite Math_min_of_Z, Math_max_of_Z.
Qed.

Lemma setChannel_sequence (hd0 : MidiHandler) (args : list Z) (c0 : Z) :
  channel hd0 = of_Z c0 -> 0 <= c0 <= 15 ->
  exists c,
    channel (fold_left (fun h a => setChannel h (of_Z a)) args hd0) = of_Z c
    /\ 0 <= c <= 15.
Proof.
  revert hd0 c0. induction args as [| a rest IH]; intros hd0 c0 Hch Hc.
  - exists c0. now split.
  - cbn [fold_left]. apply (IH _ (Z.max 0 (Z.min 15 a))); [apply setChannel_int | lia].
Qed.

Lemma send_to_port_outcome (hd : MidiHandler) (out : MIDIOutput) (flag : bool)
    (messages : list MidiMessage) :
  let outgoing :=
    map (fun m => (outgoing_status hd flag (status m), data1 m, data2 m)) messages in
  let r := send_to_port hd out flag messages in
  exists n,
    r.2 = map (fun w => PortSend w.1.1 w.1.2 w.2) (firstn n outgoing)
    /\ Forall (fun w => accepts out w.1.1 w.1.2 w.2 = true) (firstn n outgoing)
    /\ (r.1 = true -> n = List.length messages)
    /\ (r.1 = false ->
        exists w, outgoing !! n = Some w /\ accepts out w.1.1 w.1.2 w.2 = false).
Proof.
  cbv zeta. induction messages as [| m rest (n & IH1 & IH2 & IH3 & IH4)].
  - exists 0%nat. cbn. repeat split; [constructor | discriminate].
  - cbn [send_to_port map].
    destruct (accepts out _ _ _) eqn:Hacc.
    + destruct (send_to_port hd out flag rest) as [ok sent]. cbn [fst snd] in *.
      exists (S n). cbn [firstn map fst snd]. rewrite IH1.
      repeat split; [now constructor | intros H; now rewrite (IH3 H) | exact IH4].
    + exists 0%nat. cbn [firstn map fst snd]. repeat split;
        [constructor | discriminate |]. intros _. eexists. split; [reflexivity |].
      exact Hacc.
Qed.

(** C5. For every list of messages dispatched with the global channel
    applied, the channel being an integer of 0..15.  What is sent is, in
    order, the messages with their outgoing status and their two data
    bytes untouched: all of them as frames over an open WebSocket;
    otherwise, to the selected output, all of them when the output accepts
    them, and in any case those before the first one it refuses (the call
    then returns false); nothing without WebSocket and output.  The
    outgoing status of a channel voice status (0x80..0xEF) keeps the high
    nibble and carries the global channel in the low nibble; a status of
    0xF0 or more goes out as it is.  With channel 5, [0x90, 60, 100] is
    sent as [0x95, 60, 100] and a message of status 0xF0 is sent unchanged,
    over the WebSocket and to an output alike. *)
Theorem channel_override_on_dispatch
    (hd : MidiHandler) (c : Z) (messages : list MidiMessage) :
  channel hd = of_Z c -> 0 <= c <= 15 ->
  let outgoing :=
    map (fun m => (outgoing_status hd true (status m), data1 m, data2 m)) messages in
  let r := sendMessages hd messages true in
  (webSocketOpen hd = true ->
   r = (true, map (fun w => WsMidi w.1.1 w.1.2 w.2) outgoing))
  /\ (webSocketOpen hd = false -> selectedOutput hd = None -> r = (false, []))
  /\ (webSocketOpen hd = false ->
      forall out, selectedOutput hd = Some out ->
        (Forall (fun w => accepts out w.1.1 w.1.2 w.2 = true) outgoing ->
         r = (true, map (fun w => PortSend w.1.1 w.1.2 w.2) outgoing))
        /\ exists n,
             r.2 = map (fun w => PortSend w.1.1 w.1.2 w.2) (firstn n outgoing)
             /\ Forall (fun w => accepts out w.1.1 w.1.2 w.2 = true) (firstn n outgoing)
             /\ (r.1 = true -> n = List.length messages)
             /\ (r.1 = false ->
                 exists w, outgoing !! n = Some w
                           /\ accepts out w.1.1 w.1.2 w.2 = false))
  /\ (forall s, 128 <= s < 240 ->
        exists r, outgoing_status hd true (of_Z s) = of_Z r
                  /\ Z.land r 15 = c /\ Z.land r 240 = Z.land s 240)
  /\ (forall s, 240 <= s -> outgoing_status hd true (of_Z s) = of_Z s)
  /\ (c = 5 ->
      forall d1 d2,
        (webSocketOpen hd = true ->
         sendMessages hd
           [{| status := of_Z 144; data1 := VNumber (of_Z 60);
               data2 := VNumber (of_Z 100) |};
            {| status := of_Z 240; data1 := d1; data2 := d2 |}] true
         = (true, [WsMidi (of_Z 149) (VNumber (of_Z 60)) (VNumber (of_Z 100));
                   WsMidi (of_Z 240) d1 d2]))
        /\ (webSocketOpen hd = false ->
            forall out, selectedOutput hd = Some out ->
              accepts out (of_Z 149) (VNumber (of_Z 60)) (VNumber (of_Z 100)) = true ->
              accepts out (of_Z 240) d1 d2 = true ->
              sendMessages hd
                [{| status := of_Z 144; data1 := VNumber (of_Z 60);
                    data2 := VNumber (of_Z 100) |};
                 {| status := of_Z 240; data1 := d1; data2 := d2 |}] true
              = (true, [PortSend (of_Z 149) (VNumber (of_Z 60)) (VNumber (of_Z 100));
                        PortSend (of_Z 240) d1 d2]))).
Proof.
  intros Hch Hc. cbv zeta.
  split; [| split; [| split; [| split; [| split]]]].
  - unfold sendMessages. intros ->. now rewrite map_map.
  - unfold sendMessages. now intros -> ->.
  - unfold sendMessages. intros -> out ->.
    destruct (send_to_port_outcome hd out true messages) as (n & H1 & H2 & H3 & H4).
    cbv zeta in H1, H2, H3, H4. split; [| exists n; now repeat split].
    intros Hall.
    destruct (send_to_port hd out true messages) as [[|] sent] eqn:E;
      cbn [fst snd] in *.
    + rewrite H1, (H3 eq_refl).
      rewrite <- (length_map
                    (fun m => (outgoing_status hd true (status m), data1 m, data2 m))).
      now rewrite firstn_all.
    + destruct (H4 eq_refl) as (w & Hw & Hrefused).
      rewrite Forall_forall in Hall.
      rewrite (Hall w) in Hrefused by (eapply list_elem_of_lookup_2; exact Hw).
      discriminate Hrefused.
  - intros s Hs. exists (Z.lor (Z.land s 240) c).
    rewrite (outgoing_status_int hd c s Hch Hc) by lia.
    destruct (Z.leb_spec 128 s); [| lia]. destruct (Z.ltb_spec s 240); [| lia].
    cbn [andb]. split; [reflexivity | now apply nibble_replace].
  - intros s Hs. rewrite (outgoing_status_int hd c s Hch Hc) by lia.
    destruct (Z.ltb_spec s 240); [lia |]. now rewrite andb_false_r.
  - intros -> d1 d2. unfold sendMessages. split.
    + intros ->. cbn [map status data1 data2].
      rewrite !(outgoing_status_int hd 5 _ Hch Hc) by lia. reflexivity.
    + intros -> out -> H1 H2. cbn [send_to_port status data1 data2].
      rewrite !(outgoing_status_int hd 5 _ Hch Hc) by lia.
      change (if (128 <=? 144) && (144 <? 240) then Z.lor (Z.land 144 240) 5 else 144)
        with 149.
      change (if (128 <=? 240) && (240 <? 240) then Z.lor (Z.land 240 240) 5 else 240)
        with 240.
      now rewrite H1, H2.
Qed.

Lemma channel_override_on_dispatch_witness :
  channel HandlerMore.port_handler_on_channel_5 = of_Z 5 /\ 0 <= 5 <= 15
  /\ sendMessages HandlerMore.port_handler_on_channel_5 HandlerMore.note_then_system true
     = (true, [PortSend (of_Z 149) (VNumber (of_Z 60)) (VNumber (of_Z 100));
               PortSend (of_Z 240) (VNumber (of_Z 1)) (VNumber (of_Z 2))])
  /\ sendMessages handler_on_channel_5 HandlerMore.note_then_system true
     = (true, [WsMidi (of_Z 149) (VNumber (of_Z 60)) (VNumber (of_Z 100));
               WsMidi (of_Z 240) (VNumber (of_Z 1)) (VNumber (of_Z 2))]).
Proof.
  split; [reflexivity |]. split; [lia |]. split.
  - destruct (channel_override_on_dispatch HandlerMore.port_handler_on_channel_5 5
                HandlerMore.note_then_system eq_refl ltac:(lia))
      as (_ & _ & _ & _ & _ & Hex).
    exact (proj2 (Hex eq_refl (VNumber (of_Z 1)) (VNumber (of_Z 2))) eq_refl
             _ eq_refl eq_refl eq_refl).
  - destruct (channel_override_on_dispatch handler_on_channel_5 5
                HandlerMore.note_then_system eq_refl ltac:(lia))
      as (_ & _ & _ & _ & _ & Hex).
    exact (proj1 (Hex eq_refl (VNumber (of_Z 1)) (VNumber (of_Z 2))) eq_refl).
Defined.

(** C10. [setChannel] clamps an integer argument into 0..15 (below 0
    gives 0, above 15 gives 15); after any sequence of [setChannel] calls
    with integer arguments on a handler that starts on channel 0 the stored
    channel is an integer of 0..15; and a channel voice status dispatched
    with that channel applied goes out with the stored channel as its low
    nibble and its high nibble unchanged. *)
Theorem global_channel_invariant
    (hd0 : MidiHandler) (args : list Z) (z s : Z) :
  channel hd0 = of_Z 0 -> 128 <= s < 240 ->
  let hd := fold_left (fun h a => setChannel h (of_Z a)) args hd0 in
  channel (setChannel hd (of_Z z)) = of_Z (Z.max 0 (Z.min 15 z))
  /\ (z < 0 -> channel (setChannel hd (of_Z z)) = of_Z 0)
  /\ (15 < z -> channel (setChannel hd (of_Z z)) = of_Z 15)
  /\ exists c,
       channel hd = of_Z c /\ 0 <= c <= 15
       /\ exists r,
            outgoing_status hd true (of_Z s) = of_Z r
            /\ Z.land r 15 = c /\ Z.land r 240 = Z.land s 240.
Proof.
  intros H0 Hs hd. split; [apply setChannel_int |].
  split; [intros Hz; rewrite setChannel_int; f_equal; lia |].
  split; [intros Hz; rewrite setChannel_int; f_equal; lia |].
  destruct (setChannel_sequence hd0 args 0 H0 ltac:(lia)) as (c & Hch & Hc).
  exists c. split; [exact Hch |]. split; [exact Hc |].
  exists (Z.lor (Z.land s 240) c). fold hd in Hch.
  rewrite (outgoing_status_int hd c s Hch Hc) by lia.
  destruct (Z.leb_spec 128 s); [| lia]. destruct (Z.ltb_spec s 240); [| lia].
  cbn [andb]. split; [reflexivity | now apply nibble_replace].
Qed.

Lemma global_channel_invariant_witness :
  channel initial = of_Z 0 /\ 128 <= 144 < 240
  /\ channel (setChannel (fold_left (fun h a => setChannel h (of_Z a)) [-3; 99; 7] initial)
                (of_Z 42))
     = of_Z 15.
Proof.
  split; [reflexivity |]. split; [lia |].
  destruct (global_channel_invariant initial [-3; 99; 7] 42 144 eq_refl ltac:(lia))
    as (_ & _ & H15 & _).
  apply H15. lia.
Defined.

End MidiHandlerFacts.

(* ===================================================================== *)
(** * The bridge server: scope of the track-name broadcast *)
(* ===================================================================== *)

Module ServerFacts.
Import JS Server Samples.

Lemma broadcastTrackName_clients (s : State) (t : option json) :
  wsClients (broadcastTrackName s t)
  = map (fun p => (fst p, after_broadcast t (snd p))) (wsClients s).
Proof.
  unfold broadcastTrackName, with_clients. cbn [wsClients].
  apply map_ext. intros [id c]. unfold after_broadcast. cbn [fst snd].
  now destruct (_ && _).
Qed.

Lemma client_of_broadcast (s : State) (t : option json) (ws : nat) :
  client_of (broadcastTrackName s t) ws
  = option_map (after_broadcast t) (client_of s ws).
Proof.
  unfold client_of. rewrite broadcastTrackName_clients.
  induction (wsClients s) as [| [id c] rest IH]; [reflexivity |].
  cbn [map List.find fst snd]. destruct (Nat.eqb id ws); [reflexivity | exact IH].
Qed.

Lemma on_message_trackChange (s : State) (ws : nat) (msg : json) :
  field msg "type" = Some (JString "trackChange") ->
  on_message s ws (Some msg) = broadcastTrackName s (field msg "trackName").
Proof.
  intros Htype. unfold on_message, field_is. rewrite Htype. cbn.
  destruct msg; try discriminate Htype; reflexivity.
Qed.

(** ** Along a run *)

Lemma client_of_update (s : State) (ws : nat) (f : Client -> Client) (id : nat) :
  client_of (update_client s ws f) id
  = option_map (fun c => if Nat.eqb id ws then f c else c) (client_of s id).
Proof.
  unfold client_of, update_client, with_clients. cbn [wsClients].
  induction (wsClients s) as [| [id' c] rest IH]; [reflexivity |].
  cbn [map List.find].
  destruct (Nat.eqb id' ws) eqn:Ews; cbn [List.find];
    destruct (Nat.eqb_spec id' id) as [-> | Hne]; cbn [option_map snd];
    try exact IH; now rewrite Ews.
Qed.

Lemma client_of_sendMidi (s : State) (a b c : option json) (id : nat) :
  client_of (sendMidi s a b c) id = client_of s id.
Proof. unfold sendMidi. now destruct (midiOut s). Qed.

Lemma client_of_connection (s : State) (id : nat) (c : Client) :
  client_of s id = Some c -> client_of (on_connection s) id = Some c.
Proof.
  unfold client_of, on_connection, with_clients. cbn [wsClients].
  induction (wsClients s) as [| [id' c'] rest IH]; [discriminate |].
  cbn [app List.find]. destruct (Nat.eqb id' id); [trivial | exact IH].
Qed.

Lemma client_of_close (s : State) (ws id : nat) :
  id <> ws -> client_of (on_close s ws) id = client_of s id.
Proof.
  intros Hne. unfold client_of, on_close, with_clients. cbn [wsClients].
  induction (wsClients s) as [| [id' c'] rest IH]; [reflexivity |].
  cbn [List.filter List.find].
  destruct (Nat.eqb_spec id' ws) as [-> | Hws]; cbn [negb List.find].
  - destruct (Nat.eqb_spec ws id) as [-> | _]; [contradiction | exact IH].
  - destruct (Nat.eqb id' id); [reflexivity | exact IH].
Qed.

Lemma trackChanges_app (a b : list Frame) :
  trackChanges (a ++ b) = trackChanges a ++ trackChanges b.
Proof. apply List.filter_app. Qed.

(** One event, other than its own close, leaves a socket in the detector
    role in that role and adds no [trackChange] frame to what it was
    sent. *)
Lemma detector_step (s : State) (ev : Event) (id : nat) (c : Client) :
  client_of s id = Some c ->
  clientType c = TRACK_MONITOR ->
  ev <> Close id ->
  exists c',
    client_of (step s ev) id = Some c'
    /\ clientType c' = TRACK_MONITOR
    /\ trackChanges (outbox c') = trackChanges (outbox c).
Proof.
  intros Hc Hrole Hev. destruct ev as [| ws parsed | ws]; cbn [step].
  - exists c. split; [now apply client_of_connection | now split].
  - unfold on_message.
    destruct parsed as [msg |]; [| exists c; now repeat split].
    destruct msg; try (exists c; now repeat split).
    all: repeat match goal with
           | |- context [if field_is ?m ?k ?t then _ else _] =>
               destruct (field_is m k t)
           end.
    all: try (exists c; now repeat split).
    all: try (rewrite client_of_sendMidi; exists c; now repeat split).
    + rewrite client_of_update, Hc. cbn [option_map].
      destruct (Nat.eqb id ws); [| exists c; now repeat split].
      eexists. split; [reflexivity |]. cbn [send clientType outbox].
      split; [exact Hrole |]. rewrite trackChanges_app. apply app_nil_r.
    + rewrite client_of_update, Hc. cbn [option_map].
      destruct (Nat.eqb id ws); [| exists c; now repeat split].
      eexists. split; [reflexivity |]. now split.
    + rewrite client_of_broadcast, Hc. cbn [option_map]. unfold after_broadcast.
      rewrite Hrole, andb_false_r. exists c. now repeat split.
  - exists c. split; [| now split]. rewrite client_of_close; [exact Hc |].
    intros ->. now apply Hev.
Qed.

(** Along any run in which it is not closed, a socket in the detector
    role stays in that role and is sent no [trackChange] frame. *)
Lemma detector_never_receives_trackChange
    (events : list Event) (s : State) (id : nat) (c : Client) :
  client_of s id = Some c ->
  clientType c = TRACK_MONITOR ->
  ~ In (Close id) events ->
  exists c',
    client_of (run s events) id = Some c'
    /\ clientType c' = TRACK_MONITOR
    /\ trackChanges (outbox c') = trackChanges (outbox c).
Proof.
  revert s c. induction events as [| ev rest IH]; intros s c Hc Hrole Hclose.
  - exists c. now repeat split.
  - cbn [run fold_left].
    destruct (detector_step s ev id c Hc Hrole) as (c1 & Hc1 & Hrole1 & Hout1).
    { intros ->. apply Hclose. now left. }
    destruct (IH (step s ev) c1 Hc1 Hrole1) as (c' & Hc' & Hrole' & Hout').
    { intros Hin. apply Hclose. now right. }
    exists c'. split; [exact Hc' |]. split; [exact Hrole' | congruence].
Qed.

(** C7. When the server receives a [trackChange] message from a socket in
    the detector role, every open socket in the display role is sent that
    one [trackChange] frame, with the track name as received, and every
    socket in the detector role, the sender included, is sent nothing; no
    socket is added, removed or changes role.  Along any run that follows,
    as long as it is not closed, the sender stays in the detector role and
    is sent no [trackChange] frame. *)
Theorem trackChange_broadcast_scope
    (s : State) (ws : nat) (sender : Client) (msg : json) :
  client_of s ws = Some sender ->
  clientType sender = TRACK_MONITOR ->
  field msg "type" = Some (JString "trackChange") ->
  let s' := on_message s ws (Some msg) in
  let frame := TrackChange (field msg "trackName") in
  map fst (wsClients s') = map fst (wsClients s)
  /\ (forall id c,
        client_of s id = Some c ->
        exists c',
          client_of s' id = Some c'
          /\ readyState c' = readyState c
          /\ clientType c' = clientType c
          /\ (readyState c = OPEN -> clientType c = BROWSER ->
              outbox c' = outbox c ++ [frame])
          /\ (clientType c = TRACK_MONITOR -> outbox c' = outbox c))
  /\ client_of s' ws = Some sender
  /\ (forall events,
        ~ In (Close ws) events ->
        exists c',
          client_of (run s' events) ws = Some c'
          /\ clientType c' = TRACK_MONITOR
          /\ trackChanges (outbox c') = trackChanges (outbox sender)).
Proof.
  intros Hsender Hrole Htype s' frame. subst s'.
  rewrite (on_message_trackChange s ws msg Htype).
  assert (client_of (broadcastTrackName s (field msg "trackName")) ws = Some sender)
    as Hsame.
  { rewrite client_of_broadcast, Hsender. cbn [option_map]. f_equal.
    unfold after_broadcast. rewrite Hrole. now rewrite andb_false_r. }
  split; [| split; [| split]].
  - rewrite broadcastTrackName_clients, map_map. reflexivity.
  - intros id c Hc. rewrite client_of_broadcast, Hc. cbn [option_map].
    eexists. split; [reflexivity |]. unfold after_broadcast.
    destruct (bool_decide_reflect (readyState c = OPEN)) as [Ho | Ho];
      destruct (bool_decide_reflect (clientType c = BROWSER)) as [Hb | Hb];
      cbn [andb send readyState clientType outbox];
      repeat split; try reflexivity; try congruence.
  - exact Hsame.
  - intros events Hclose.
    now apply (detector_never_receives_trackChange events _ ws sender).
Qed.

Lemma trackChange_broadcast_scope_witness :
  client_of two_clients 2
  = Some {| readyState := OPEN; clientType := TRACK_MONITOR; outbox := [] |}
  /\ field violin_trackChange "type" = Some (JString "trackChange")
  /\ client_of (on_message two_clients 2 (Some violin_trackChange)) 2
     = Some {| readyState := OPEN; clientType := TRACK_MONITOR; outbox := [] |}.
Proof.
  split; [reflexivity |]. split; [reflexivity |].
  exact (proj1 (proj2 (proj2 (trackChange_broadcast_scope two_clients 2 _
                                violin_trackChange eq_refl eq_refl eq_refl)))).
Defined.

End ServerFacts.

(* ===================================================================== *)
(** * Auto-assignment: idempotence, post-condition, exhaustion *)
(* ===================================================================== *)

Module AutoAssignFacts.
Import JS Parser AutoAssign NumberFacts.

Lemma with_articulations_same (artSet : ArticulationSet) :
  with_articulations artSet (articulations artSet) = artSet.
Proof. now destruct artSet. Qed.

(** ** The [map] of the second pass *)

(** Nothing to do when every articulation has a remote trigger. *)
Lemma assign_articulations_complete (arts : list Articulation) (c : Closure) :
  Forall (fun art => is_Some (remoteTrigger art)) arts ->
  assign_articulations arts c = Ok arts.
Proof.
  induction 1 as [| art rest [rt Hrt] _ IH]; [reflexivity |].
  cbn [assign_articulations]. rewrite Hrt, IH. reflexivity.
Qed.

(** A result of [map]: as long as the input, a trigger everywhere, and
    the very same articulation wherever the input had a trigger. *)
Lemma assign_articulations_ok (arts : list Articulation) (c : Closure)
    (updated : list Articulation) :
  assign_articulations arts c = Ok updated ->
  Forall (fun art => is_Some (remoteTrigger art)) updated
  /\ List.length updated = List.length arts
  /\ (forall i art, arts !! i = Some art -> is_Some (remoteTrigger art) ->
        updated !! i = Some art).
Proof.
  revert c updated. induction arts as [| art rest IH]; intros c updated H.
  - injection H as <-. repeat split; [constructor | intros i art Hi; discriminate Hi].
  - cbn [assign_articulations] in H.
    destruct (remoteTrigger art) as [rt |] eqn:Hrt.
    + destruct (assign_articulations rest c) as [updated' | e] eqn:Hrest;
        [| discriminate H].
      injection H as <-. destruct (IH _ _ Hrest) as (Hall & Hlen & Hsame).
      repeat split.
      * constructor; [rewrite Hrt; eauto | exact Hall].
      * cbn. now rewrite Hlen.
      * intros [| i] a Hi Ha; [exact Hi | cbn in *; eauto].
    + destruct (getNextAvailableNote c) as [[note c'] | e] eqn:Hnext;
        [| discriminate H]. cbn [bind] in H.
      destruct (assign_articulations rest c') as [updated' | e] eqn:Hrest;
        [| discriminate H].
      injection H as <-. destruct (IH _ _ Hrest) as (Hall & Hlen & Hsame).
      repeat split.
      * constructor; [cbn; eauto | exact Hall].
      * cbn. now rewrite Hlen.
      * intros [| i] a Hi Ha; cbn in *.
        -- injection Hi as <-. rewrite Hrt in Ha. now destruct Ha.
        -- eauto.
Qed.

Lemma autoAssign_inv (artSet : ArticulationSet) (startNote : Z) (r : ArticulationSet) :
  autoAssignRemoteTriggers artSet startNote = Ok r ->
  exists updated,
    assign_articulations (articulations artSet)
      {| usedNotes := collect_usedNotes (articulations artSet);
         nextNote := startNote |} = Ok updated
    /\ r = with_articulations artSet updated.
Proof.
  unfold autoAssignRemoteTriggers. intros H.
  destruct (assign_articulations _ _) as [updated | e]; [| discriminate H].
  injection H as <-. eauto.
Qed.

(** A set in which every articulation has a trigger is returned as it is,
    whatever the start note. *)
Lemma autoAssign_complete (artSet : ArticulationSet) (startNote : Z) :
  Forall (fun art => is_Some (remoteTrigger art)) (articulations artSet) ->
  autoAssignRemoteTriggers artSet startNote = Ok artSet.
Proof.
  intros Hall. unfold autoAssignRemoteTriggers.
  rewrite assign_articulations_complete by exact Hall.
  cbn [bind]. now rewrite with_articulations_same.
Qed.

Lemma hasUnassigned_false (artSet : ArticulationSet) :
  Forall (fun art => is_Some (remoteTrigger art)) (articulations artSet) ->
  hasUnassignedRemotes artSet = false /\ unassigned (articulations artSet) = [].
Proof.
  unfold hasUnassignedRemotes, unassigned.
  induction 1 as [| art rest Hart _ [IH1 IH2]]; [now split |].
  cbn [existsb List.filter]. rewrite bool_decide_eq_true_2 by exact Hart.
  cbn [negb orb]. now split.
Qed.

(** C2. Auto-assignment is idempotent on its own output: when a first
    application returns a set, a second application with the same start
    note returns that very set, so no note is reassigned and the count of
    auto-assigned remotes is the same; and an articulation that carried a
    remote trigger before the first application is, at its position, the
    same articulation after the first and after the second. *)
Theorem autoAssign_idempotent
    (artSet : ArticulationSet) (startNote : Z) (once : ArticulationSet) :
  autoAssignRemoteTriggers artSet startNote = Ok once ->
  exists twice,
    autoAssignRemoteTriggers once startNote = Ok twice
    /\ twice = once
    /\ countAutoAssignedRemotes twice = countAutoAssignedRemotes once
    /\ map remoteTrigger (articulations twice) = map remoteTrigger (articulations once)
    /\ (forall i art,
          articulations artSet !! i = Some art ->
          is_Some (remoteTrigger art) ->
          articulations once !! i = Some art /\ articulations twice !! i = Some art).
Proof.
  intros H. destruct (autoAssign_inv _ _ _ H) as (updated & Hmap & ->).
  destruct (assign_articulations_ok _ _ _ Hmap) as (Hall & _ & Hsame).
  exists (with_articulations artSet updated).
  split; [now apply autoAssign_complete |]. repeat split; cbn; eauto.
Qed.

Lemma autoAssign_idempotent_witness :
  exists once,
    autoAssignRemoteTriggers Samples.mixed 0 = Ok once
    /\ autoAssignRemoteTriggers once 0 = Ok once
    /\ map (fun art => option_map rt_data1 (remoteTrigger art)) (articulations once)
       = [Some (VNumber (of_Z 1)); Some (VNumber (of_Z 0)); Some (VNumber (of_Z 2))].
Proof.
  eexists. split; [reflexivity |].
  destruct (autoAssign_idempotent Samples.mixed 0 _ eq_refl) as (twice & H & -> & _).
  split; [exact H | reflexivity].
Defined.

(** C9. After an auto-assignment that returns, every articulation of the
    result has a remote trigger: [hasUnassignedRemotes] is false on it, no
    articulation is left to assign, and a further pass, from any start
    note, returns it unchanged. *)
Theorem autoAssign_postcondition
    (artSet : ArticulationSet) (startNote : Z) (result : ArticulationSet) :
  autoAssignRemoteTriggers artSet startNote = Ok result ->
  Forall (fun art => is_Some (remoteTrigger art)) (articulations result)
  /\ hasUnassignedRemotes result = false
  /\ unassigned (articulations result) = []
  /\ (forall startNote', autoAssignRemoteTriggers result startNote' = Ok result).
Proof.
  intros H. destruct (autoAssign_inv _ _ _ H) as (updated & Hmap & ->).
  destruct (assign_articulations_ok _ _ _ Hmap) as (Hall & _ & _).
  split; [exact Hall |].
  destruct (hasUnassigned_false (with_articulations artSet updated) Hall) as [H1 H2].
  repeat split; try assumption.
  intros startNote'. now apply autoAssign_complete.
Qed.

Lemma autoAssign_postcondition_witness :
  exists result,
    autoAssignRemoteTriggers Samples.two_bare 60 = Ok result
    /\ hasUnassignedRemotes Samples.two_bare = true
    /\ hasUnassignedRemotes result = false.
Proof.
  eexists. split; [reflexivity |]. split; [reflexivity |].
  exact (proj1 (proj2 (autoAssign_postcondition Samples.two_bare 60 _ eq_refl))).
Defined.

(** ** The scan of [getNextAvailableNote] *)

Lemma Set_has_add (used : NoteSet) (note n : Z) :
  Set_has (Set_add used (VNumber (of_Z note))) n = (note =? n) || Set_has used n.
Proof.
  unfold Set_has, Set_add. cbn [existsb same_key]. now rewrite num_same_of_Z.
Qed.

Lemma free_notes_nil (used : NoteSet) (start : Z) :
  127 < start -> free_notes used start = [].
Proof. intros H. unfold free_notes. now rewrite seqZ_nil by lia. Qed.

Lemma free_notes_cons (used : NoteSet) (start : Z) :
  start <= 127 ->
  free_notes used start
  = if Set_has used start then free_notes used (start + 1)
    else start :: free_notes used (start + 1).
Proof.
  intros H. unfold free_notes. rewrite seqZ_cons by lia. cbn [List.filter].
  replace (Z.pred (128 - start)) with (128 - (start + 1)) by lia.
  replace (Z.succ start) with (start + 1) by lia.
  now destruct (Set_has used start).
Qed.

(** Adding a note below [start] does not change what is free from
    [start] on. *)
Lemma free_notes_add_below (used : NoteSet) (note start : Z) :
  note < start ->
  free_notes (Set_add used (VNumber (of_Z note))) start = free_notes used start.
Proof.
  intros H. unfold free_notes. apply List.filter_ext_in. intros n Hn.
  apply list_elem_of_In, elem_of_seqZ in Hn. rewrite Set_has_add.
  destruct (Z.eqb_spec note n); [lia | reflexivity].
Qed.

(** The loop stops, with the fuel it is given, on the first free note of
    [next..127], or above 127 when there is none. *)
Lemma skip_used_free (fuel : nat) (used : NoteSet) (next : Z) :
  (Z.to_nat (128 - next) <= fuel)%nat ->
  let r := skip_used fuel used next in
  match free_notes used next with
  | [] => 127 < r
  | n :: rest => r = n /\ next <= n <= 127 /\ rest = free_notes used (n + 1)
  end.
Proof.
  revert next. induction fuel as [| fuel IH]; intros next Hfuel; cbn [skip_used].
  - rewrite free_notes_nil by lia. lia.
  - destruct (Z.leb_spec next 127) as [Hle | Hgt].
    + rewrite free_notes_cons by exact Hle.
      destruct (Set_has used next); cbn [andb].
      * specialize (IH (next + 1) ltac:(lia)). cbn zeta in IH.
        destruct (free_notes used (next + 1)) as [| n rest]; [exact IH |].
        destruct IH as (-> & Hn & ->). repeat split; lia.
      * repeat split; lia.
    + rewrite andb_false_r, free_notes_nil by lia. lia.
Qed.

(** [getNextAvailableNote] hands out the first free note and leaves the
    others free; it throws exactly when none is free. *)
Lemma getNextAvailableNote_free (c : Closure) :
  match free_notes (usedNotes c) (nextNote c) with
  | [] => getNextAvailableNote c = Throw exhausted
  | n :: rest =>
      exists c',
        getNextAvailableNote c = Ok (n, c')
        /\ free_notes (usedNotes c') (nextNote c') = rest
  end.
Proof.
  unfold getNextAvailableNote.
  pose proof (skip_used_free (Z.to_nat (128 - nextNote c)) (usedNotes c) (nextNote c)
                ltac:(lia)) as H.
  cbn zeta in H.
  destruct (free_notes (usedNotes c) (nextNote c)) as [| n rest].
  - destruct (Z.gtb_spec (skip_used (Z.to_nat (128 - nextNote c)) (usedNotes c) (nextNote c)) 127);
      [reflexivity | lia].
  - destruct H as (-> & Hn & ->).
    destruct (Z.gtb_spec n 127); [lia |].
    eexists. split; [reflexivity |]. cbn [usedNotes nextNote].
    apply free_notes_add_below. lia.
Qed.

(** The pass throws exactly when the articulations without a trigger
    outnumber the free notes; what it throws is the exhaustion error. *)
Lemma assign_articulations_throws (arts : list Articulation) (c : Closure) :
  (List.length (free_notes (usedNotes c) (nextNote c)) < List.length (unassigned arts))%nat
  -> assign_articulations arts c = Throw exhausted.
Proof.
  revert c. induction arts as [| art rest IH]; intros c H; [cbn in H; lia |].
  cbn [assign_articulations]. unfold unassigned in H. cbn [List.filter] in H.
  destruct (remoteTrigger art) as [rt |] eqn:Hrt.
  - rewrite bool_decide_eq_true_2 in H by eauto. cbn [negb] in H.
    now rewrite (IH c H).
  - rewrite bool_decide_eq_false_2 in H by (intros [? ?]; discriminate).
    cbn [negb List.length] in H.
    pose proof (getNextAvailableNote_free c) as Hnext.
    destruct (free_notes (usedNotes c) (nextNote c)) as [| n free].
    + now rewrite Hnext.
    + destruct Hnext as (c' & -> & Hfree). cbn [bind].
      rewrite (IH c'); [reflexivity |]. rewrite Hfree. cbn in H.
      unfold unassigned. lia.
Qed.

Lemma assign_articulations_returns (arts : list Articulation) (c : Closure) :
  (List.length (unassigned arts) <= List.length (free_notes (usedNotes c) (nextNote c)))%nat
  -> returns (assign_articulations arts c).
Proof.
  revert c. induction arts as [| art rest IH]; intros c H; [now eexists |].
  cbn [assign_articulations]. unfold unassigned in H. cbn [List.filter] in H.
  destruct (remoteTrigger art) as [rt |] eqn:Hrt.
  - rewrite bool_decide_eq_true_2 in H by eauto. cbn [negb] in H.
    destruct (IH c H) as [updated ->]. now eexists.
  - rewrite bool_decide_eq_false_2 in H by (intros [? ?]; discriminate).
    cbn [negb List.length] in H.
    pose proof (getNextAvailableNote_free c) as Hnext.
    destruct (free_notes (usedNotes c) (nextNote c)) as [| n free]; [cbn in H; lia |].
    destruct Hnext as (c' & -> & Hfree). cbn [bind].
    destruct (IH c') as [updated ->]; [| now eexists].
    rewrite Hfree. cbn in H. unfold unassigned. lia.
Qed.

Lemma autoAssign_throws_iff (artSet : ArticulationSet) (startNote : Z) :
  let used := collect_usedNotes (articulations artSet) in
  (List.length (free_notes used startNote)
   < List.length (unassigned (articulations artSet)))%nat
  <-> autoAssignRemoteTriggers artSet startNote = Throw exhausted.
Proof.
  cbn zeta. unfold autoAssignRemoteTriggers. split.
  - intros H. now rewrite assign_articulations_throws.
  - intros H.
    destruct (Nat.lt_ge_cases
                (List.length (free_notes (collect_usedNotes (articulations artSet)) startNote))
                (List.length (unassigned (articulations artSet)))) as [Hlt | Hge];
      [exact Hlt |].
    destruct (assign_articulations_returns (articulations artSet)
                {| usedNotes := collect_usedNotes (articulations artSet);
                   nextNote := startNote |} Hge) as [updated Hok].
    rewrite Hok in H. discriminate H.
Qed.

End AutoAssignFacts.

(* ===================================================================== *)
(** * Auto-assignment over the store: the objects given are not written *)
(* ===================================================================== *)

Module StoreFacts.
Import JS Parser AutoAssign Store.
Local Open Scope store_scope.

Lemma keeps_weaken {A} (h0 : heap) (m : M A) (P Q : A -> Prop) :
  keeps h0 m P -> (forall a, P a -> Q a) -> keeps h0 m Q.
Proof. intros Hm HPQ h Hh. destruct (Hm h Hh). split; eauto. Qed.

Lemma keeps_ret {A} (h0 : heap) (a : A) (post : A -> Prop) :
  post a -> keeps h0 (ret a) post.
Proof. intros Ha h Hh. split; [exact Hh |]. now intros ? [= <-]. Qed.

Lemma keeps_throw {A} (h0 : heap) (e : exn) (post : A -> Prop) :
  keeps h0 (throw e) post.
Proof. intros h Hh. split; [exact Hh |]. intros ? [=]. Qed.

Lemma keeps_bind {A B} (h0 : heap) (m : M A) (k : A -> M B)
    (P : A -> Prop) (Q : B -> Prop) :
  keeps h0 m P -> (forall a, P a -> keeps h0 (k a) Q) -> keeps h0 (bindM m k) Q.
Proof.
  intros Hm Hk h Hh. unfold bindM. destruct (Hm h Hh) as [Hsub Hpost].
  destruct (m h) as [h' [a | e]]; cbn [fst snd] in *.
  - apply (Hk a); [apply Hpost; reflexivity | exact Hsub].
  - split; [exact Hsub |]. intros ? [=].
Qed.

(** A new object is none of the objects of [h0]. *)
Lemma keeps_alloc (h0 : heap) (c : cell) :
  keeps h0 (alloc c) (fun l => h0 !! l = None).
Proof.
  intros h Hh. unfold alloc. cbn [fst snd].
  assert (h !! fresh (dom h) = None) as Hfresh
    by (apply not_elem_of_dom, is_fresh).
  assert (h0 !! fresh (dom h) = None) as Hfresh0.
  { destruct (h0 !! fresh (dom h)) as [c0 |] eqn:E; [| reflexivity].
    rewrite (lookup_weaken _ _ _ _ E Hh) in Hfresh. discriminate. }
  split.
  - now apply insert_subseteq_r.
  - now intros ? [= <-].
Qed.

(** Writing an object that is not one of [h0]. *)
Lemma keeps_write (h0 : heap) (l : loc) (c : cell) :
  h0 !! l = None -> keeps h0 (write l c) (fun _ => True).
Proof.
  intros Hl h Hh. unfold write. cbn [fst snd]. split; [| trivial].
  now apply insert_subseteq_r.
Qed.

Lemma keeps_read_set (h0 : heap) (l : loc) : keeps h0 (read_set l) (fun _ => True).
Proof.
  intros h Hh. unfold read_set.
  destruct (h !! l) as [[] |]; cbn [fst snd]; split; trivial.
Qed.
Lemma keeps_read_array (h0 : heap) (l : loc) : keeps h0 (read_array l) (fun _ => True).
Proof.
  intros h Hh. unfold read_array.
  destruct (h !! l) as [[] |]; cbn [fst snd]; split; trivial.
Qed.
Lemma keeps_read_articulation (h0 : heap) (l : loc) :
  keeps h0 (read_articulation l) (fun _ => True).
Proof.
  intros h Hh. unfold read_articulation.
  destruct (h !! l) as [[] |]; cbn [fst snd]; split; trivial.
Qed.
Lemma keeps_read_notes (h0 : heap) (l : loc) : keeps h0 (read_notes l) (fun _ => True).
Proof.
  intros h Hh. unfold read_notes.
  destruct (h !! l) as [[] |]; cbn [fst snd]; split; trivial.
Qed.
Lemma keeps_read_number (h0 : heap) (l : loc) : keeps h0 (read_number l) (fun _ => True).
Proof.
  intros h Hh. unfold read_number.
  destruct (h !! l) as [[] |]; cbn [fst snd]; split; trivial.
Qed.

Lemma keeps_forEach {A} (h0 : heap) (l : list A) (f : A -> M unit) :
  (forall x, keeps h0 (f x) (fun _ => True)) ->
  keeps h0 (forEach l f) (fun _ => True).
Proof.
  intros Hf. induction l as [| x rest IH]; cbn [forEach].
  - now apply keeps_ret.
  - eapply keeps_bind; [apply Hf | intros _ _; exact IH].
Qed.

Lemma keeps_map_refs {A B} (h0 : heap) (l : list A) (f : A -> M B) :
  (forall x, keeps h0 (f x) (fun _ => True)) ->
  keeps h0 (map_refs l f) (fun _ => True).
Proof.
  intros Hf. induction l as [| x rest IH]; cbn [map_refs].
  - now apply keeps_ret.
  - eapply keeps_bind; [apply Hf |]. intros y _.
    eapply keeps_bind; [exact IH |]. intros ys _. now apply keeps_ret.
Qed.

Create HintDb keeps.
#[local] Hint Resolve keeps_read_set keeps_read_array keeps_read_articulation
  keeps_read_notes keeps_read_number keeps_write keeps_throw : keeps.

Ltac keeps_step :=
  first
    [ eapply keeps_bind; [solve [eauto with keeps] | intros ? _]
    | apply keeps_ret; exact I
    | solve [eauto with keeps] ].

Lemma keeps_getNextAvailableNote (h0 : heap) (usedNotes nextNote : loc) :
  h0 !! usedNotes = None -> h0 !! nextNote = None ->
  keeps h0 (getNextAvailableNote usedNotes nextNote) (fun _ => True).
Proof.
  intros Hu Hn. unfold getNextAvailableNote.
  do 3 keeps_step.
  destruct (_ >? 127); repeat keeps_step.
Qed.

Lemma keeps_note_if_manual (h0 : heap) (usedNotes a : loc) :
  h0 !! usedNotes = None ->
  keeps h0 (note_if_manual usedNotes a) (fun _ => True).
Proof.
  intros Hu. unfold note_if_manual. keeps_step.
  destruct (remoteTrigger _) as [rt |]; [| keeps_step].
  destruct (negb (auto_flag rt)); repeat keeps_step.
Qed.

Lemma keeps_assign_one (h0 : heap) (usedNotes nextNote a : loc) :
  h0 !! usedNotes = None -> h0 !! nextNote = None ->
  keeps h0 (assign_one usedNotes nextNote a) (fun _ => True).
Proof.
  intros Hu Hn. unfold assign_one. keeps_step.
  destruct (remoteTrigger _) as [rt |]; [keeps_step |].
  eapply keeps_bind; [now apply keeps_getNextAvailableNote | intros note _].
  eapply keeps_weaken; [apply keeps_alloc | trivial].
Qed.

(** Whatever the store and the arguments, and whether it returns or
    throws, [autoAssignRemoteTriggers] leaves every object of the store it
    started from as it was: the store only grows.  The reference it returns
    is to a new object. *)
Lemma autoAssign_keeps (h : heap) (artSet : loc) (startNote : Z) :
  keeps h (Store.autoAssignRemoteTriggers artSet startNote) (fun l => h !! l = None).
Proof.
  unfold Store.autoAssignRemoteTriggers.
  do 2 keeps_step.
  eapply keeps_bind; [apply keeps_alloc | intros usedNotes Hu].
  eapply keeps_bind;
    [apply keeps_forEach; intros x; now apply keeps_note_if_manual | intros _ _].
  eapply keeps_bind; [apply keeps_alloc | intros nextNote Hn].
  eapply keeps_bind;
    [apply keeps_map_refs; intros x; now apply keeps_assign_one | intros updated _].
  eapply keeps_bind; [apply keeps_alloc | intros arr _].
  apply keeps_alloc.
Qed.

(** ** The store version computes what the function on values computes *)

Lemma articulation_at_Some (h : heap) (a : loc) (art : Articulation) :
  articulation_at h a = Some art <-> h !! a = Some (CArticulation art).
Proof.
  unfold articulation_at. destruct (h !! a) as [[] |]; split; congruence.
Qed.

Lemma read_articulation_at (h : heap) (a : loc) (art : Articulation) :
  articulation_at h a = Some art -> read_articulation a h = (h, Ok art).
Proof.
  intros H. apply articulation_at_Some in H. unfold read_articulation. now rewrite H.
Qed.

(** The first loop leaves in [usedNotes] what [collect_usedNotes] folds. *)
Lemma forEach_collect (usedNotes : loc) (elems : list loc) (arts : list Articulation)
    (h : heap) (acc : NoteSet) :
  Forall2 (fun a art => articulation_at h a = Some art) elems arts ->
  h !! usedNotes = Some (CNoteSet acc) ->
  forEach elems (note_if_manual usedNotes) h
  = (<[usedNotes := CNoteSet (fold_left add_if_manual arts acc)]> h, Ok tt).
Proof.
  revert arts h acc.
  induction elems as [| a rest IH]; intros arts h acc Hall Hu.
  - apply Forall2_nil_inv_l in Hall as ->. cbn. now rewrite insert_id.
  - apply Forall2_cons_inv_l in Hall as (art & arts' & Ha & Hrest & ->).
    cbn [forEach fold_left]. unfold bindM at 1, note_if_manual at 1.
    unfold bindM at 1. rewrite (read_articulation_at h a art Ha).
    assert (forall h' : heap,
               (forall l c, h !! l = Some c -> l <> usedNotes -> h' !! l = Some c) ->
               Forall2 (fun a art => articulation_at h' a = Some art) rest arts')
      as Hkeep.
    { intros h' Hh'. eapply Forall2_impl; [exact Hrest |]. cbn. intros x y Hx.
      apply articulation_at_Some in Hx. apply articulation_at_Some.
      apply Hh'; [exact Hx | congruence]. }
    unfold add_if_manual at 2.
    destruct (remoteTrigger art) as [rt |].
    + destruct (negb (auto_flag rt)).
      * unfold bindM, read_notes, write. rewrite Hu.
        rewrite (IH arts' _ (Set_add acc (rt_data1 rt))).
        -- now rewrite insert_insert_eq.
        -- apply Hkeep. intros l c Hl Hne. now rewrite lookup_insert_ne.
        -- apply lookup_insert_eq.
      * cbn [ret]. now apply IH.
    + cbn [ret]. now apply IH.
Qed.

(** One call of [getNextAvailableNote] on the store against one call on
    the closure. *)
Lemma getNextAvailableNote_refines (usedNotes nextNote : loc) (h : heap) (c : Closure) :
  usedNotes <> nextNote ->
  h !! usedNotes = Some (CNoteSet (AutoAssign.usedNotes c)) ->
  h !! nextNote = Some (CNumber (AutoAssign.nextNote c)) ->
  exists h' r,
    Store.getNextAvailableNote usedNotes nextNote h = (h', r)
    /\ (forall l, l <> usedNotes -> l <> nextNote -> h' !! l = h !! l)
    /\ match r, AutoAssign.getNextAvailableNote c with
       | Ok note, Ok (note', c') =>
           note = note'
           /\ h' !! usedNotes = Some (CNoteSet (AutoAssign.usedNotes c'))
           /\ h' !! nextNote = Some (CNumber (AutoAssign.nextNote c'))
       | Throw e, Throw e' => e = e'
       | _, _ => False
       end.
Proof.
  intros Hne Hu Hn.
  unfold Store.getNextAvailableNote, AutoAssign.getNextAvailableNote.
  unfold bindM, read_notes, read_number, write, throw, ret. rewrite Hu, Hn.
  destruct (_ >? 127).
  - eexists _, _. split; [reflexivity |]. split; [| reflexivity].
    intros l H1 H2. now rewrite lookup_insert_ne.
  - eexists _, _. split; [reflexivity |]. split; [| split; [reflexivity | split]].
    + intros l H1 H2. now rewrite !lookup_insert_ne.
    + cbn [AutoAssign.usedNotes]. rewrite lookup_insert_ne by congruence.
      apply lookup_insert_eq.
    + cbn [AutoAssign.nextNote]. apply lookup_insert_eq.
Qed.

(** The second loop against [assign_articulations]. *)
Lemma map_refs_refines (usedNotes nextNote : loc) (elems : list loc) :
  usedNotes <> nextNote ->
  forall (arts : list Articulation) (h : heap) (c : Closure),
    Forall2 (fun a art => articulation_at h a = Some art) elems arts ->
    h !! usedNotes = Some (CNoteSet (AutoAssign.usedNotes c)) ->
    h !! nextNote = Some (CNumber (AutoAssign.nextNote c)) ->
    exists h' r,
      map_refs elems (assign_one usedNotes nextNote) h = (h', r)
      /\ (forall l cell, h !! l = Some cell -> l <> usedNotes -> l <> nextNote ->
            h' !! l = Some cell)
      /\ match r with
         | Ok refs =>
             exists updated,
               assign_articulations arts c = Ok updated
               /\ Forall2 (fun a art => articulation_at h' a = Some art) refs updated
         | Throw e => assign_articulations arts c = Throw e
         end.
Proof.
  intros Hne. induction elems as [| a rest IH]; intros arts h c Hall Hu Hn.
  - apply Forall2_nil_inv_l in Hall as ->. exists h, (Ok []).
    split; [reflexivity |]. split; [auto |]. exists []. split; [reflexivity | constructor].
  - apply Forall2_cons_inv_l in Hall as (art & arts' & Ha & Hrest & ->).
    pose proof Ha as Ha'. apply articulation_at_Some in Ha'.
    assert (a <> usedNotes /\ a <> nextNote) as [Hau Han] by (split; congruence).
    cbn [map_refs assign_articulations]. unfold bindM at 1, assign_one at 1.
    unfold bindM at 1. rewrite (read_articulation_at h a art Ha).
    destruct (remoteTrigger art) as [rt |] eqn:Hrt.
    + cbn [ret]. destruct (IH arts' h c Hrest Hu Hn) as (h' & r & Hrun & Hkeep & Hr).
      unfold bindM. rewrite Hrun. destruct r as [refs | e].
      * destruct Hr as (updated & -> & Hrefs).
        eexists _, _. split; [reflexivity |]. split; [exact Hkeep |].
        exists (art :: updated). split; [reflexivity |].
        constructor; [| exact Hrefs]. apply articulation_at_Some. now apply Hkeep.
      * rewrite Hr. eexists _, _. split; [reflexivity |]. now split.
    + destruct (getNextAvailableNote_refines usedNotes nextNote h c Hne Hu Hn)
        as (h1 & r1 & Hrun1 & Hkeep1 & Hr1).
      unfold bindM at 1. rewrite Hrun1.
      destruct r1 as [note | e];
        destruct (AutoAssign.getNextAvailableNote c) as [[note' c'] | e'];
        try contradiction.
      * destruct Hr1 as (<- & Hu1 & Hn1). cbn [bind].
        unfold alloc. set (fresh (dom h1)) as lnew.
        assert (h1 !! lnew = None) as Hfresh by (apply not_elem_of_dom, is_fresh).
        assert (lnew <> usedNotes /\ lnew <> nextNote) as [Hlu Hln]
          by (split; congruence).
        set (<[lnew := CArticulation (with_remoteTrigger art (auto_trigger note))]> h1)
          as h2.
        assert (forall l cell, h !! l = Some cell -> l <> usedNotes -> l <> nextNote ->
                  h2 !! l = Some cell) as Hkeep2.
        { intros l cell Hl H1 H2. unfold h2.
          rewrite lookup_insert_ne; [rewrite Hkeep1 by assumption; exact Hl |].
          intros ->. rewrite Hkeep1 in Hfresh by assumption. congruence. }
        destruct (IH arts' h2 c') as (h' & r & Hrun & Hkeep & Hr).
        -- eapply Forall2_impl; [exact Hrest |]. cbn. intros x y Hx.
           apply articulation_at_Some in Hx. apply articulation_at_Some.
           apply Hkeep2; [exact Hx | congruence | congruence].
        -- unfold h2. now rewrite lookup_insert_ne.
        -- unfold h2. now rewrite lookup_insert_ne.
        -- unfold bindM. rewrite Hrun. destruct r as [refs | e].
           ++ destruct Hr as (updated & -> & Hrefs).
              eexists _, _. split; [reflexivity |]. split; [now eauto |].
              eexists. split; [reflexivity |].
              constructor; [| exact Hrefs]. apply articulation_at_Some.
              apply Hkeep; [apply lookup_insert_eq | assumption | assumption].
           ++ rewrite Hr. eexists _, _. split; [reflexivity |]. split; [now eauto |].
              reflexivity.
      * subst e'. cbn [bind]. eexists _, _. split; [reflexivity |].
        split; [| reflexivity].
        intros l cell Hl H1 H2. now rewrite Hkeep1.
Qed.

Lemma read_back_inv (h : heap) (artSet : loc) (S : ArticulationSet) :
  read_back h artSet = Some S ->
  exists o elems,
    h !! artSet = Some (CSet o)
    /\ h !! o_articulations o = Some (CArray elems)
    /\ Forall2 (fun a art => articulation_at h a = Some art) elems (articulations S)
    /\ S = {| set_name := o_name o;
              fileName := o_fileName o;
              articulations := articulations S;
              isMerged := o_isMerged o;
              sourceMapNames := o_sourceMapNames o |}.
Proof.
  unfold read_back. intros H.
  destruct (h !! artSet) as [[o | | | |] |] eqn:Hset; try discriminate H.
  destruct (h !! o_articulations o) as [[| elems | | |] |] eqn:Harr; try discriminate H.
  destruct (mapM (articulation_at h) elems) as [arts |] eqn:Harts; [| discriminate H].
  cbn in H. injection H as <-. apply mapM_Some in Harts.
  exists o, elems. now repeat split.
Qed.

Lemma articulations_at_insert (h : heap) (l : loc) (c : cell)
    (elems : list loc) (arts : list Articulation) :
  h !! l = None ->
  Forall2 (fun a art => articulation_at h a = Some art) elems arts ->
  Forall2 (fun a art => articulation_at (<[l := c]> h) a = Some art) elems arts.
Proof.
  intros Hl Hall. eapply Forall2_impl; [exact Hall |]. cbn. intros a art Ha.
  apply articulation_at_Some in Ha. apply articulation_at_Some.
  rewrite lookup_insert_ne; [exact Ha | congruence].
Qed.

(** Run on a store in which [artSet] denotes the set [S], the store
    version throws what the function on values throws on [S], or returns
    a reference that denotes what that function returns. *)
Lemma autoAssign_refines (h : heap) (artSet : loc) (S : ArticulationSet)
    (startNote : Z) :
  read_back h artSet = Some S ->
  exists h' r,
    Store.autoAssignRemoteTriggers artSet startNote h = (h', r)
    /\ match r with
       | Ok result =>
           exists S',
             AutoAssign.autoAssignRemoteTriggers S startNote = Ok S'
             /\ read_back h' result = Some S'
       | Throw e => AutoAssign.autoAssignRemoteTriggers S startNote = Throw e
       end.
Proof.
  intros HS. destruct (read_back_inv h artSet S HS) as (o & elems & Hset & Harr & Hall & HSeq).
  unfold Store.autoAssignRemoteTriggers, AutoAssign.autoAssignRemoteTriggers.
  unfold bindM at 1, read_set. rewrite Hset.
  unfold bindM at 1, read_array. rewrite Harr.
  unfold bindM at 1, alloc at 1.
  set (fresh (dom h)) as uL.
  assert (h !! uL = None) as HuL by (apply not_elem_of_dom, is_fresh).
  unfold bindM at 1.
  rewrite (forEach_collect uL elems (articulations S) _ []);
    [| now apply articulations_at_insert | apply lookup_insert_eq].
  rewrite insert_insert_eq. fold (collect_usedNotes (articulations S)).
  set (<[uL := CNoteSet (collect_usedNotes (articulations S))]> h) as h2.
  unfold bindM at 1, alloc at 1.
  set (fresh (dom h2)) as nL.
  assert (h2 !! nL = None) as HnL by (apply not_elem_of_dom, is_fresh).
  assert (h2 !! uL = Some (CNoteSet (collect_usedNotes (articulations S)))) as Hu2
    by apply lookup_insert_eq.
  assert (uL <> nL) as Hne by congruence.
  set (<[nL := CNumber startNote]> h2) as h3.
  destruct (map_refs_refines uL nL elems Hne (articulations S) h3
              {| usedNotes := collect_usedNotes (articulations S);
                 nextNote := startNote |})
    as (h4 & r & Hrun & Hkeep & Hr).
  { apply articulations_at_insert; [exact HnL |].
    now apply articulations_at_insert. }
  { unfold h3. now rewrite lookup_insert_ne. }
  { apply lookup_insert_eq. }
  unfold bindM at 1. rewrite Hrun. destruct r as [refs | e].
  - destruct Hr as (updated & Hpure & Hrefs). rewrite Hpure. cbn [bind].
    unfold bindM, alloc.
    set (fresh (dom h4)) as arr.
    assert (h4 !! arr = None) as Harr4 by (apply not_elem_of_dom, is_fresh).
    set (<[arr := CArray refs]> h4) as h5.
    set (fresh (dom h5)) as setL.
    assert (h5 !! setL = None) as Hset5 by (apply not_elem_of_dom, is_fresh).
    eexists _, _. split; [reflexivity |].
    eexists. split; [reflexivity |].
    unfold read_back. rewrite lookup_insert_eq. cbn [o_articulations].
    assert (arr <> setL) as Hne2.
    { intros E. rewrite <- E in Hset5. unfold h5 in Hset5.
      rewrite lookup_insert_eq in Hset5. discriminate. }
    rewrite lookup_insert_ne by congruence. unfold h5 at 1.
    rewrite lookup_insert_eq.
    assert (mapM (articulation_at (<[setL := CSet
              {| o_name := o_name o; o_fileName := o_fileName o;
                 o_articulations := arr; o_isMerged := o_isMerged o;
                 o_sourceMapNames := o_sourceMapNames o |}]> h5)) refs
            = Some updated) as ->.
    { apply mapM_Some. apply articulations_at_insert; [exact Hset5 |].
      now apply articulations_at_insert. }
    cbn. rewrite HSeq at 1. reflexivity.
  - rewrite Hr. cbn [bind]. eexists _, _. split; reflexivity.
Qed.

(** A set that a reference denotes is still what it denotes in a store
    that holds every object of the first as it was. *)
Lemma read_back_weaken (h h' : heap) (artSet : loc) (S : ArticulationSet) :
  h ⊆ h' -> read_back h artSet = Some S -> read_back h' artSet = Some S.
Proof.
  intros Hsub HS.
  destruct (read_back_inv h artSet S HS) as (o & elems & Hset & Harr & Hall & HSeq).
  unfold read_back.
  rewrite (lookup_weaken _ _ _ _ Hset Hsub), (lookup_weaken _ _ _ _ Harr Hsub).
  assert (mapM (articulation_at h') elems = Some (articulations S)) as ->.
  { apply mapM_Some. eapply Forall2_impl; [exact Hall |]. cbn. intros a art Ha.
    apply articulation_at_Some in Ha. apply articulation_at_Some.
    exact (lookup_weaken _ _ _ _ Ha Hsub). }
  cbn. now rewrite HSeq at 2.
Qed.

End StoreFacts.

(* ===================================================================== *)
(** * Auto-assignment: when it runs out of notes *)
(* ===================================================================== *)

Module ExhaustionFacts.
Import JS Parser AutoAssign NumberFacts AutoAssignFacts StoreFacts Samples.

(** A note is in [usedNotes] after the first loop as soon as a
    non-auto-assigned remote trigger holds it. *)
Lemma Set_has_fold (arts : list Articulation) (acc : NoteSet) (n : Z) :
  Set_has acc n = true
  \/ (exists art rt,
        In art arts /\ remoteTrigger art = Some rt /\ auto_flag rt = false
        /\ rt_data1 rt = VNumber (of_Z n)) ->
  Set_has (fold_left add_if_manual arts acc) n = true.
Proof.
  revert acc. induction arts as [| art rest IH]; intros acc H.
  - destruct H as [H | (art & rt & [] & _)]. exact H.
  - cbn [fold_left]. apply IH.
    destruct H as [H | (art' & rt & [<- | Hin] & Hrt & Hauto & Hdata)].
    + left. unfold add_if_manual. destruct (remoteTrigger art) as [rt |]; [| exact H].
      destruct (negb (auto_flag rt)); [| exact H].
      unfold Set_has, Set_add. cbn [existsb]. fold (Set_has acc n). rewrite H.
      apply orb_true_r.
    + left. unfold add_if_manual. rewrite Hrt, Hauto. cbn [negb].
      unfold Set_has, Set_add. cbn [existsb]. rewrite Hdata. cbn [same_key].
      now rewrite num_same_of_Z, Z.eqb_refl.
    + right. eauto 10.
Qed.

(** From a start note of 0 or more, nothing is free when all of 0..127
    is used. *)
Lemma free_notes_full (used : NoteSet) (startNote : Z) :
  0 <= startNote ->
  (forall n, 0 <= n <= 127 -> Set_has used n = true) ->
  free_notes used startNote = [].
Proof.
  intros Hstart Hfull. unfold free_notes.
  destruct (List.filter _ _) as [| n rest] eqn:E; [reflexivity |].
  assert (In n (n :: rest)) as Hin by now left.
  rewrite <- E in Hin. apply List.filter_In in Hin as [Hin Hfree].
  apply list_elem_of_In, elem_of_seqZ in Hin.
  rewrite Hfull in Hfree by lia. discriminate Hfree.
Qed.

(** C3 (amended). Auto-assignment throws the exhaustion error exactly
    when the articulations without remote trigger outnumber the notes of
    [startNote..127] that no non-auto-assigned remote trigger uses, and it
    throws nothing else; from a start note of 0 or more it throws when
    non-auto-assigned remote triggers use all of 0..127 and some
    articulation has no remote trigger.  Run on a store in which a
    reference denotes the set, the function writes none of the objects it
    was given, whether it throws or returns: the reference denotes the same
    set afterwards, what is thrown is what the function on values throws,
    and what is returned is a new object, which denotes what that function
    returns. *)
Theorem exhaustion_from_startNote (artSet : ArticulationSet) (startNote : Z) :
  let arts := articulations artSet in
  let used := collect_usedNotes arts in
  ((List.length (free_notes used startNote) < List.length (unassigned arts))%nat
   <-> AutoAssign.autoAssignRemoteTriggers artSet startNote = Throw exhausted)
  /\ (forall e, AutoAssign.autoAssignRemoteTriggers artSet startNote = Throw e ->
        e = exhausted)
  /\ (0 <= startNote ->
      (forall n, 0 <= n <= 127 ->
         exists art rt,
           In art arts /\ remoteTrigger art = Some rt /\ auto_flag rt = false
           /\ rt_data1 rt = VNumber (of_Z n)) ->
      (exists art, In art arts /\ remoteTrigger art = None) ->
      AutoAssign.autoAssignRemoteTriggers artSet startNote = Throw exhausted)
  /\ (forall (h : gmap nat Store.cell) (l : nat),
        Store.read_back h l = Some artSet ->
        exists h' r,
          Store.autoAssignRemoteTriggers l startNote h = (h', r)
          /\ h ⊆ h'
          /\ Store.read_back h' l = Some artSet
          /\ match r with
             | Ok result =>
                 h !! result = None
                 /\ exists S',
                      AutoAssign.autoAssignRemoteTriggers artSet startNote = Ok S'
                      /\ Store.read_back h' result = Some S'
             | Throw e =>
                 AutoAssign.autoAssignRemoteTriggers artSet startNote = Throw e
             end).
Proof.
  cbn zeta. split; [apply autoAssign_throws_iff |]. split; [| split].
  - intros e He.
    destruct (Nat.lt_ge_cases
                (List.length (free_notes (collect_usedNotes (articulations artSet)) startNote))
                (List.length (unassigned (articulations artSet)))) as [Hlt | Hge].
    + apply autoAssign_throws_iff in Hlt. congruence.
    + unfold AutoAssign.autoAssignRemoteTriggers in He.
      destruct (assign_articulations_returns (articulations artSet)
                  {| usedNotes := collect_usedNotes (articulations artSet);
                     nextNote := startNote |} Hge) as [updated Hok].
      rewrite Hok in He. discriminate He.
  - intros Hstart Hfull (art & Hin & Hnone). apply autoAssign_throws_iff.
    rewrite free_notes_full; [| exact Hstart |].
    + cbn [List.length].
      assert (In art (unassigned (articulations artSet))) as Hun.
      { apply List.filter_In. split; [exact Hin |]. rewrite Hnone.
        rewrite bool_decide_eq_false_2; [reflexivity | intros [? ?]; discriminate]. }
      destruct (unassigned (articulations artSet)); [destruct Hun | cbn; lia].
    + intros n Hn. apply Set_has_fold. right. now apply Hfull.
  - intros h l Hl.
    destruct (autoAssign_refines h l artSet startNote Hl) as (h' & r & Hrun & Hr).
    exists h', r. split; [exact Hrun |].
    destruct (autoAssign_keeps h l startNote h (reflexivity h)) as [Hsub Hnew].
    rewrite Hrun in Hsub, Hnew. cbn [fst snd] in Hsub, Hnew.
    split; [exact Hsub |]. split; [now apply (read_back_weaken h h') |].
    destruct r as [result | e]; [| exact Hr]. split; [now apply Hnew | exact Hr].
Qed.

(** The 128 notes taken and one articulation to assign: the error. *)
Lemma exhaustion_from_startNote_witness :
  0 <= 0
  /\ AutoAssign.autoAssignRemoteTriggers full_plus_one 0 = Throw exhausted.
Proof.
  split; [lia |].
  destruct (exhaustion_from_startNote full_plus_one 0) as (_ & _ & Hfull & _).
  apply Hfull; [lia | |].
  - intros n Hn. exists (keyed "Key" n), {| rt_status := of_Z 144;
      rt_data1 := VNumber (of_Z n); isAutoAssigned := Some false |}.
    split; [| now repeat split].
    cbn. apply in_or_app. left. apply in_map, list_elem_of_In, elem_of_seqZ. lia.
  - exists (bare "Legato" 24). split; [| reflexivity].
    cbn. apply in_or_app. right. now left.
Defined.

(** As the claim has it, with 0..127 whatever the start note: from start
    note 127 the second of two articulations finds no note and the error
    is thrown, though no remote trigger used any note, so that all 128
    notes of 0..127 were unused before the pass and 0..126 still are once
    127 has been handed out. *)
Lemma exhaustion_counterexample :
  AutoAssign.autoAssignRemoteTriggers two_bare 127 = Throw exhausted
  /\ List.length (unassigned (articulations two_bare)) = 2%nat
  /\ collect_usedNotes (articulations two_bare) = []
  /\ free_notes (collect_usedNotes (articulations two_bare)) 0 = seqZ 0 128
  /\ free_notes (Set_add (collect_usedNotes (articulations two_bare))
                   (VNumber (of_Z 127))) 0
     = seqZ 0 127.
Proof. repeat split; vm_compute; reflexivity. Qed.

End ExhaustionFacts.

(* ===================================================================== *)
(** * The parser *)
(* ===================================================================== *)

Module ParserFacts.
Import JS Parser NumberFacts Samples.

(** The decoder of a [dict] element is [parsePlistDict]. *)
Lemma parsePlistValue_dict (h : Host) (text : string) (kids : list Element) :
  parsePlistValue h (Elem "dict" text kids)
  = VObject (parsePlistDict h (Elem "dict" text kids)).
Proof. reflexivity. Qed.

(** C1. A Format B document with the switch [{ID:1, MB1:62,
    Status:"Note On"}] and the articulation [{ID:1, Output:{MB1:60,
    Status:"Note On"}}] parses, whatever its white space and under any
    file name, to a set with one articulation, whose output messages are
    the one message [{0x90, 60, 127}] and whose remote trigger is
    [{0x90, 62}], not auto-assigned. *)
Theorem formatB_scenario (h : Host) (e : Entropy) (plistContent fileName : string)
    (w : nat -> string) :
  DOMParser_parseFromString h plistContent = formatB_document w ->
  exists artSet art,
    parseLogicArticulationSet h e plistContent fileName = Ok artSet
    /\ articulations artSet = [art]
    /\ midiMessages art
       = [{| status := of_Z 144; data1 := VNumber (of_Z 60); data2 := VNumber (of_Z 127) |}]
    /\ In {| status := of_Z 144; data1 := VNumber (of_Z 60); data2 := VNumber (of_Z 127) |}
         (midiMessages art)
    /\ remoteTrigger art
       = Some {| rt_status := of_Z 144; rt_data1 := VNumber (of_Z 62);
                 isAutoAssigned := Some false |}.
Proof.
  intros Hdoc. unfold parseLogicArticulationSet. rewrite Hdoc.
  eexists _, _. split; [vm_compute; reflexivity |].
  split; [reflexivity |]. split; [reflexivity |]. split; [now left | reflexivity].
Qed.

Lemma formatB_scenario_witness :
  DOMParser_parseFromString (host_for formatB_compact) formatB_text
  = formatB_document compact_text
  /\ exists artSet art,
       parseLogicArticulationSet (host_for formatB_compact) entropy_a
         formatB_text "AC Violin.plist" = Ok artSet
       /\ set_name artSet = "Violin"
       /\ articulations artSet = [art]
       /\ remoteTrigger art
          = Some {| rt_status := of_Z 144; rt_data1 := VNumber (of_Z 62);
                    isAutoAssigned := Some false |}.
Proof.
  split; [reflexivity |].
  destruct (formatB_scenario (host_for formatB_compact) entropy_a
              formatB_text "AC Violin.plist" compact_text eq_refl)
    as (artSet & art & Hparse & Harts & _ & _ & Hrt).
  exists artSet, art. split; [exact Hparse |].
  split; [| split; [exact Harts | exact Hrt]].
  vm_compute in Hparse. injection Hparse as <-. reflexivity.
Defined.

(** ** Determinism up to the generated id *)

Lemma agree_refl {A} (R : A -> A -> Prop) (r : result A) :
  (forall a, R a a) -> agree R r r.
Proof. intros HR. destruct r; cbn; auto. Qed.

Lemma agree_bind {A B} (R : A -> A -> Prop) (Q : B -> B -> Prop)
    (r1 r2 : result A) (k1 k2 : A -> result B) :
  agree R r1 r2 ->
  (forall a b, R a b -> agree Q (k1 a) (k2 b)) ->
  agree Q (bind r1 k1) (bind r2 k2).
Proof.
  intros Hr Hk. destruct r1, r2; cbn in *; try contradiction; auto.
Qed.

(** The entropy reaches the [id] field only. *)
Lemma parse_articulation_entropy (h : Host) (e1 e2 : Entropy) (switchesMap : SwitchMap)
    (artData : value) (index : nat) :
  agree (fun a b => without_id a = without_id b)
    (parse_articulation h e1 switchesMap artData index)
    (parse_articulation h e2 switchesMap artData index).
Proof.
  unfold parse_articulation.
  repeat (apply (agree_bind eq); [now apply agree_refl | intros ? ? <-]).
  reflexivity.
Qed.

Lemma mapM_from_agree {A B} (R : B -> B -> Prop) (f g : A -> nat -> result B)
    (l : list A) (i : nat) :
  (forall x j, agree R (f x j) (g x j)) ->
  agree (Forall2 R) (mapM_from f l i) (mapM_from g l i).
Proof.
  intros Hfg. revert i. induction l as [| x rest IH]; intros i; cbn [mapM_from].
  - constructor.
  - apply (agree_bind R); [apply Hfg |]. intros a b Hab.
    apply (agree_bind (Forall2 R)); [apply IH |]. intros la lb Hl.
    cbn. now constructor.
Qed.

Lemma Forall2_without_id (l1 l2 : list Articulation) :
  Forall2 (fun a b => without_id a = without_id b) l1 l2 ->
  map without_id l1 = map without_id l2.
Proof. induction 1; cbn; congruence. Qed.

(** C8. Two runs of the parser on the same document text and file name
    (the host being the same, the clock and the random generator free to
    differ) throw the same exception, or return sets with the same name and
    file name and, position by position, articulations that agree on every
    field but the generated [id]. *)
Theorem parse_deterministic_up_to_id
    (h : Host) (e1 e2 : Entropy) (plistContent fileName : string) :
  agree
    (fun s1 s2 =>
       set_name s1 = set_name s2
       /\ Parser.fileName s1 = Parser.fileName s2
       /\ List.length (articulations s1) = List.length (articulations s2)
       /\ map without_id (articulations s1) = map without_id (articulations s2)
       /\ isMerged s1 = isMerged s2
       /\ sourceMapNames s1 = sourceMapNames s2)
    (parseLogicArticulationSet h e1 plistContent fileName)
    (parseLogicArticulationSet h e2 plistContent fileName).
Proof.
  unfold parseLogicArticulationSet.
  destruct (querySelector_plist_dict _) as [rootDict |]; [| reflexivity].
  cbv zeta.
  apply (agree_bind eq); [now apply agree_refl | intros setName ? <-].
  apply (agree_bind eq); [now apply agree_refl | intros switchesMap ? <-].
  apply (agree_bind (Forall2 (fun a b => without_id a = without_id b))).
  - destruct (or_ _ _); try reflexivity.
    apply mapM_from_agree. intros x j. apply parse_articulation_entropy.
  - intros l1 l2 Hl. cbn. repeat split; try reflexivity.
    + exact (Forall2_length _ _ _ Hl).
    + now apply Forall2_without_id.
Qed.

(** The id itself does differ between two runs with different entropy. *)
Lemma ids_differ :
  exists s1 s2,
    parseLogicArticulationSet (host_for formatB_compact) entropy_a
      formatB_text "x.plist" = Ok s1
    /\ parseLogicArticulationSet (host_for formatB_compact) entropy_b
         formatB_text "x.plist" = Ok s2
    /\ map art_id (articulations s1) <> map art_id (articulations s2)
    /\ map without_id (articulations s1) = map without_id (articulations s2).
Proof.
  eexists _, _. split; [vm_compute; reflexivity |]. split; [vm_compute; reflexivity |].
  split; [discriminate | reflexivity].
Qed.

(** ** The entries of a parsed document *)

Lemma mapM_from_lookup {A B} (f : A -> nat -> result B) (l : list A) (i : nat)
    (r : list B) :
  mapM_from f l i = Ok r ->
  List.length r = List.length l
  /\ forall k x, l !! k = Some x ->
       exists y, r !! k = Some y /\ f x (i + k)%nat = Ok y.
Proof.
  revert i r. induction l as [| a rest IH]; intros i r H; cbn [mapM_from] in H.
  - injection H as <-. split; [reflexivity |]. intros k x Hk. discriminate Hk.
  - destruct (f a i) as [y |] eqn:Hy; [| discriminate H]. cbn [bind] in H.
    destruct (mapM_from f rest (S i)) as [ys |] eqn:Hys; [| discriminate H].
    injection H as <-. destruct (IH _ _ Hys) as [Hlen Hnth].
    split; [cbn; now rewrite Hlen |].
    intros [| k] x Hk; cbn in Hk.
    + injection Hk as <-. exists y. split; [reflexivity |]. now rewrite Nat.add_0_r.
    + destruct (Hnth k x Hk) as (y' & Hy' & Hf). exists y'. split; [exact Hy' |].
      now rewrite Nat.add_succ_r.
Qed.

(** When a document parses, its i-th articulation is what the iteration
    returns on the i-th entry of the [Articulations] array, with the switch
    table built from the [Switches] array. *)
Lemma parsed_entries (h : Host) (e : Entropy) (plistContent fileName : string)
    (artSet : ArticulationSet) :
  parseLogicArticulationSet h e plistContent fileName = Ok artSet ->
  exists rootDict switchesData articulationsData,
    querySelector_plist_dict (DOMParser_parseFromString h plistContent) = Some rootDict
    /\ or_ (get (VObject (parsePlistDict h rootDict)) "Switches")
         (or_ (get (VObject (parsePlistDict h rootDict)) "switches") (VArray []))
       = VArray switchesData
    /\ or_ (get (VObject (parsePlistDict h rootDict)) "Articulations")
         (or_ (get (VObject (parsePlistDict h rootDict)) "articulations") (VArray []))
       = VArray articulationsData
    /\ List.length (articulations artSet) = List.length articulationsData
    /\ forall i artData,
         articulationsData !! i = Some artData ->
         exists art,
           articulations artSet !! i = Some art
           /\ parse_articulation h e (build_switchesMap switchesData) artData i = Ok art.
Proof.
  unfold parseLogicArticulationSet. intros H.
  destruct (querySelector_plist_dict _) as [rootDict |]; [| discriminate H].
  cbv zeta in H.
  match type of H with bind ?r _ = _ => destruct r as [setName |]; [| discriminate H] end.
  cbn [bind] in H.
  destruct (or_ (get (VObject (parsePlistDict h rootDict)) "Switches") _)
    as [| | | | | | switchesData] eqn:Hsw; try discriminate H.
  cbn [bind] in H.
  destruct (or_ (get (VObject (parsePlistDict h rootDict)) "Articulations") _)
    as [| | | | | | articulationsData] eqn:Harts; try discriminate H.
  destruct (mapM_from _ articulationsData 0) as [arts |] eqn:Hmap; [| discriminate H].
  cbn [bind] in H. injection H as <-. cbn [articulations].
  destruct (mapM_from_lookup _ _ _ _ Hmap) as [Hlen Hnth].
  exists rootDict, switchesData, articulationsData. repeat split; try assumption.
Qed.

(** ** The fallback remote trigger *)

(** What an iteration returns, given the outcome of its tests. *)
Lemma parse_articulation_inv (h : Host) (e : Entropy) (switchesMap : SwitchMap)
    (artData : value) (index : nat) (art : Articulation) :
  parse_articulation h e switchesMap artData index = Ok art ->
  exists mb1_ok from_switch,
    in_note_range h (mb1_of artData) = Ok mb1_ok
    /\ switch_trigger h (Map_get switchesMap (id_of artData)) = Ok from_switch
    /\ (mb1_ok = true ->
        In {| status := status_of (or_ (get (output_of artData) "Status")
                                     (VString "Note On"));
              data1 := mb1_of artData;
              data2 := or_ (get (output_of artData) "ValueLow") (VNumber (of_Z 127)) |}
          (midiMessages art))
    /\ match from_switch with
       | Some rt => remoteTrigger art = Some rt
       | None =>
           exists nonneg,
             defined_nonneg h (mb1_of artData) = Ok nonneg
             /\ remoteTrigger art
                = if nonneg
                  then Some {| rt_status := of_Z 144;
                               rt_data1 := mb1_of artData;
                               isAutoAssigned := Some true |}
                  else None
       end.
Proof.
  unfold parse_articulation. fold (output_of artData). fold (mb1_of artData).
  fold (id_of artData). intros H.
  match type of H with bind ?r _ = _ => destruct r as [shortName |]; [| discriminate H] end.
  cbn [bind] in H.
  destruct (in_note_range h (mb1_of artData)) as [mb1_ok |]; [| discriminate H].
  cbn [bind] in H.
  match type of H with bind ?r _ = _ => destruct r as [note_ok |]; [| discriminate H] end.
  cbn [bind] in H.
  destruct (switch_trigger h (Map_get switchesMap (id_of artData))) as [from_switch |];
    [| discriminate H].
  cbn [bind] in H. exists mb1_ok, from_switch.
  split; [reflexivity |]. split; [reflexivity |].
  destruct from_switch as [rt |].
  - cbn [bind] in H. injection H as <-. cbn [midiMessages remoteTrigger].
    split; [| reflexivity]. intros ->. now left.
  - destruct (defined_nonneg h (mb1_of artData)) as [nonneg |]; [| discriminate H].
    cbn [bind] in H. injection H as <-. cbn [midiMessages remoteTrigger].
    split; [intros ->; now left |]. exists nonneg. now split.
Qed.

Lemma in_range_nonneg (h : Host) (v : value) :
  in_note_range h v = Ok true -> defined_nonneg h v = Ok true.
Proof.
  unfold in_note_range, defined_nonneg. destruct (defined v); [| discriminate].
  destruct (ToNumber h v) as [n |]; [| discriminate]. cbn [bind].
  intros H. destruct (num_geb n (of_Z 0)); [reflexivity | discriminate H].
Qed.

Lemma switch_trigger_undefined (h : Host) : switch_trigger h VUndefined = Ok None.
Proof. reflexivity. Qed.

(** C6 (amended). For an entry that parses and has no matching switch:
    when its [Output] holds an [MB1] within 0..127 (the value that gave
    the output message), the remote trigger is Note On (0x90) on that same
    value, marked auto-assigned; when its [Output] holds no [MB1], or one
    that is not 0 or more, there is no remote trigger, whether or not the
    [Note] key gave an output message. *)
Theorem fallback_remote_trigger
    (h : Host) (e : Entropy) (switchesMap : SwitchMap) (artData : value)
    (index : nat) (art : Articulation) :
  parse_articulation h e switchesMap artData index = Ok art ->
  Map_get switchesMap (id_of artData) = VUndefined ->
  (in_note_range h (mb1_of artData) = Ok true ->
   remoteTrigger art
   = Some {| rt_status := of_Z 144;
             rt_data1 := mb1_of artData;
             isAutoAssigned := Some true |}
   /\ exists m, In m (midiMessages art) /\ data1 m = mb1_of artData)
  /\ (defined_nonneg h (mb1_of artData) = Ok false -> remoteTrigger art = None)
  /\ (mb1_of artData = VUndefined -> remoteTrigger art = None).
Proof.
  intros Hparse Hswitch.
  destruct (parse_articulation_inv h e switchesMap artData index art Hparse)
    as (mb1_ok & from_switch & Hmb1 & Hsw & Hmsg & Hrt).
  rewrite Hswitch, switch_trigger_undefined in Hsw. injection Hsw as <-.
  destruct Hrt as (nonneg & Hnn & Hrt).
  split; [| split].
  - intros Hin. rewrite (in_range_nonneg h _ Hin) in Hnn. injection Hnn as <-.
    split; [exact Hrt |].
    rewrite Hin in Hmb1. injection Hmb1 as <-.
    eexists. split; [apply Hmsg; reflexivity | reflexivity].
  - intros Hneg. rewrite Hneg in Hnn. injection Hnn as <-. exact Hrt.
  - intros Hundef. unfold defined_nonneg in Hnn. rewrite Hundef in Hnn.
    cbn in Hnn. injection Hnn as <-. exact Hrt.
Qed.

Lemma fallback_remote_trigger_witness :
  exists art,
    parse_articulation (host_for formatB_compact) entropy_a [] mb1_only_entry 0 = Ok art
    /\ Map_get [] (id_of mb1_only_entry) = VUndefined
    /\ in_note_range (host_for formatB_compact) (mb1_of mb1_only_entry) = Ok true
    /\ remoteTrigger art
       = Some {| rt_status := of_Z 144;
                 rt_data1 := VNumber (of_Z 60);
                 isAutoAssigned := Some true |}.
Proof.
  eexists. split; [vm_compute; reflexivity |]. split; [reflexivity |].
  split; [reflexivity |].
  destruct (fallback_remote_trigger (host_for formatB_compact) entropy_a []
              mb1_only_entry 0 _ eq_refl eq_refl) as (H & _ & _).
  exact (proj1 (H eq_refl)).
Defined.

(** As the claim has it, the [Note] key too would give a remote trigger:
    the entry [{Name: "Legato", Output: {Note: 60}}], without switch,
    parses with the output message [{0x90, 60, 127}] from its [Note] key
    and with no remote trigger. *)
Lemma fallback_counterexample :
  exists art,
    parse_articulation (host_for formatB_compact) entropy_a [] note_only_entry 0 = Ok art
    /\ Map_get [] (id_of note_only_entry) = VUndefined
    /\ midiMessages art
       = [{| status := of_Z 144; data1 := VNumber (of_Z 60); data2 := VNumber (of_Z 127) |}]
    /\ remoteTrigger art = None
    /\ remoteTrigger art
       <> Some {| rt_status := of_Z 144; rt_data1 := VNumber (of_Z 60);
                  isAutoAssigned := Some true |}.
Proof.
  eexists. split; [vm_compute; reflexivity |].
  repeat split; try reflexivity. discriminate.
Qed.

End ParserFacts.

(* ===================================================================== *)
(** * Track name to articulation set *)
(* ===================================================================== *)

Module MatchingFacts.
Import JS Parser Matching Samples.

Lemma toLowerCase_empty (t : string) : toLowerCase t = "" <-> t = "".
Proof. destruct t; cbn; split; intros H; try reflexivity; discriminate H. Qed.

(** The first element that passes a test, and what precedes it. *)
Lemma find_first {A} (f : A -> bool) (l : list A) (x : A) :
  List.find f l = Some x ->
  f x = true
  /\ exists pre post, l = pre ++ x :: post /\ (forall y, In y pre -> f y = false).
Proof.
  induction l as [| a rest IH]; [discriminate |]. cbn [List.find].
  destruct (f a) eqn:Ha.
  - intros [= <-]. split; [exact Ha |]. exists [], rest. split; [reflexivity |].
    intros y [].
  - intros H. destruct (IH H) as (Hx & pre & post & -> & Hpre).
    split; [exact Hx |]. exists (a :: pre), post. split; [reflexivity |].
    intros y [<- | Hy]; auto.
Qed.

Lemma filter_head {A} (f : A -> bool) (l : list A) (x : A) (r : list A) :
  List.filter f l = x :: r ->
  f x = true
  /\ exists pre post, l = pre ++ x :: post /\ (forall y, In y pre -> f y = false).
Proof.
  induction l as [| a rest IH]; [discriminate |]. cbn [List.filter].
  destruct (f a) eqn:Ha.
  - intros [= <- _]. split; [exact Ha |]. exists [], rest. split; [reflexivity |].
    intros y [].
  - intros H. destruct (IH H) as (Hx & pre & post & -> & Hpre).
    split; [exact Hx |]. exists (a :: pre), post. split; [reflexivity |].
    intros y [<- | Hy]; auto.
Qed.

Lemma firstn_head {A} (n : nat) (l : list A) (x : A) (r : list A) :
  firstn n l = x :: r -> exists r', l = x :: r'.
Proof. destruct n, l; cbn; try discriminate. intros [= <- _]. eauto. Qed.

(** The route, for a non-empty query. *)
Lemma GET_search (dir : string) (plistFiles : list string) (t : string) :
  t <> "" ->
  GET dir plistFiles (Some t)
  = firstn 100 (List.filter (search_hit (toLowerCase t))
                  (map (entry_of_path dir) plistFiles)).
Proof.
  intros Ht. unfold GET. cbn [option_map].
  destruct (String.eqb_spec (toLowerCase t) "") as [E | _]; [| reflexivity].
  apply (proj1 (toLowerCase_empty t)) in E. contradiction.
Qed.

Lemma bestMatch_None (sets : list CatalogueEntry) (t : string) :
  bestMatch sets t = None <-> sets = [].
Proof.
  unfold bestMatch. destruct sets as [| s rest]; [easy |].
  destruct (List.find _ _); easy.
Qed.

Lemma resolve_bestMatch (dir : string) (plistFiles : list string) (t : string) :
  resolve dir plistFiles t = bestMatch (GET dir plistFiles (Some t)) t.
Proof.
  unfold resolve, onTrackName. cbn [find_cached List.find option_map].
  now destruct (bestMatch _ _).
Qed.

(** What the route and the handler do for a non-empty track name: the
    candidates are the first hundred entries of the catalogue, in its
    order, whose lower-cased name or lower-cased relative path contains the
    lower-cased track name; nothing is selected exactly when no entry is a
    candidate; the entry selected is the first candidate whose name
    contains the track name or, when no candidate's name does, the first
    candidate; a loaded set comes first, the first one whose name contains
    the track name or is contained in it. *)
Lemma catalogue_matching (dir : string) (plistFiles : list string) (t : string) :
  t <> "" ->
  let q := toLowerCase t in
  let entries := map (entry_of_path dir) plistFiles in
  let candidates := GET dir plistFiles (Some t) in
  candidates = firstn 100 (List.filter (search_hit q) entries)
  /\ (resolve dir plistFiles t = None
      <-> forall s, In s entries ->
            includes (toLowerCase (entry_name s)) q = false
            /\ includes (toLowerCase (path s)) q = false)
  /\ (forall s, resolve dir plistFiles t = Some s ->
        In s candidates
        /\ ((name_hit q s = true
             /\ exists pre post,
                  candidates = pre ++ s :: post
                  /\ forall x, In x pre -> name_hit q x = false)
            \/ ((forall x, In x candidates -> name_hit q x = false)
                /\ search_hit q s = true
                /\ exists pre post,
                     entries = pre ++ s :: post
                     /\ forall x, In x pre -> search_hit q x = false)))
  /\ (forall loadedSets,
        onTrackName dir plistFiles loadedSets t
        = match List.find (fun '(name, _) => cache_hit name t) loadedSets with
          | Some (_, artSet) => UseCached artSet
          | None =>
              match resolve dir plistFiles t with
              | Some s => LoadFromCatalogue s
              | None => NoMatch
              end
          end)
  /\ (forall name, cache_hit name t = contains_either_way name t)
  /\ option_map entry_name (resolve library_dir library_files "violin")
     = Some "Violin 1 Solo".
Proof.
  intros Ht q entries candidates.
  assert (candidates = firstn 100 (List.filter (search_hit q) entries)) as Hcand
    by now apply GET_search.
  split; [exact Hcand |]. split; [| split; [| split; [| split]]].
  - rewrite resolve_bestMatch, bestMatch_None. fold candidates. rewrite Hcand. split.
    + intros Hnil s Hs.
      destruct (search_hit q s) eqn:Hhit.
      * assert (In s (List.filter (search_hit q) entries)) as Hin
          by (apply List.filter_In; now split).
        destruct (List.filter (search_hit q) entries) as [| x r]; [destruct Hin |].
        discriminate Hnil.
      * unfold search_hit in Hhit. now apply orb_false_iff in Hhit.
    + intros Hnone.
      destruct (List.filter (search_hit q) entries) as [| x r] eqn:E; [reflexivity |].
      destruct (filter_head _ _ _ _ E) as (Hx & pre & post & Hl & _).
      destruct (Hnone x) as [H1 H2]; [rewrite Hl; apply in_or_app; right; now left |].
      unfold search_hit in Hx. rewrite H1, H2 in Hx. discriminate Hx.
  - intros s. rewrite resolve_bestMatch. fold candidates. unfold bestMatch.
    destruct candidates as [| c0 rest] eqn:Ecand; [discriminate |].
    fold q. destruct (List.find (name_hit q) (c0 :: rest)) as [exact |] eqn:Efind.
    + change (List.find (fun s0 => includes (toLowerCase (entry_name s0)) q) (c0 :: rest))
        with (List.find (name_hit q) (c0 :: rest)).
      rewrite Efind. intros [= <-].
      destruct (find_first _ _ _ Efind) as (Hhit & pre & post & Hl & Hpre).
      split; [rewrite Hl; apply in_or_app; right; now left |].
      left. split; [exact Hhit |]. exists pre, post. now split.
    + change (List.find (fun s0 => includes (toLowerCase (entry_name s0)) q) (c0 :: rest))
        with (List.find (name_hit q) (c0 :: rest)).
      rewrite Efind. intros [= <-]. split; [now left |]. right.
      split; [intros x Hx; exact (List.find_none _ _ Efind x Hx) |].
      symmetry in Hcand. destruct (firstn_head _ _ _ _ Hcand) as (r' & Hfilter).
      destruct (filter_head _ _ _ _ Hfilter) as (Hhit & pre & post & Hl & Hpre).
      split; [exact Hhit |]. exists pre, post. now split.
  - intros loadedSets. unfold onTrackName, find_cached, resolve, onTrackName.
    cbn [find_cached List.find option_map].
    destruct (List.find _ loadedSets) as [[name artSet] |]; cbn [option_map snd];
      [reflexivity |].
    now destruct (bestMatch _ _).
  - reflexivity.
  - vm_compute. reflexivity.
Qed.

Lemma catalogue_matching_witness :
  "violin" <> ""
  /\ resolve library_dir library_files "violin"
     = Some {| entry_name := "Violin 1 Solo";
               path := "Strings/Violin 1 Solo.plist";
               fullPath := "/Users/me/Music/Art Conductor Logic/Strings/Violin 1 Solo.plist" |}
  /\ name_hit "violin"
       {| entry_name := "Violin 1 Solo";
          path := "Strings/Violin 1 Solo.plist";
          fullPath := "/Users/me/Music/Art Conductor Logic/Strings/Violin 1 Solo.plist" |}
     = true.
Proof.
  split; [discriminate |]. split; [vm_compute; reflexivity |].
  destruct (catalogue_matching library_dir library_files "violin" ltac:(discriminate))
    as (_ & _ & Hsel & _).
  destruct (Hsel _ ltac:(vm_compute; reflexivity)) as [_ [[H _] | [Hnone _]]]; [exact H |].
  exfalso.
  specialize (Hnone {| entry_name := "Violin 1 Solo";
                       path := "Strings/Violin 1 Solo.plist";
                       fullPath := "/Users/me/Music/Art Conductor Logic/Strings/Violin 1 Solo.plist" |}).
  assert (In {| entry_name := "Violin 1 Solo";
                path := "Strings/Violin 1 Solo.plist";
                fullPath := "/Users/me/Music/Art Conductor Logic/Strings/Violin 1 Solo.plist" |}
            (GET library_dir library_files (Some "violin"))) as Hin
    by (vm_compute; right; now left).
  specialize (Hnone Hin). vm_compute in Hnone. discriminate Hnone.
Defined.

(** C4. The claim has an entry match when the track name contains its
    name, as the loop over the loaded sets of the same handler tests it.
    On the catalogue that holds the one entry "Violin", with no set
    loaded, the track name "Violin 1 Solo" contains the name of the entry,
    and the search finds nothing: the route tests one direction only. *)
Theorem matching_counterexample :
  entry_name (entry_of_path library_dir
                "/Users/me/Music/Art Conductor Logic/Strings/Violin.plist") = "Violin"
  /\ contains_either_way "Violin" "Violin 1 Solo" = true
  /\ resolve library_dir
       ["/Users/me/Music/Art Conductor Logic/Strings/Violin.plist"] "Violin 1 Solo"
     = None.
Proof. repeat split; vm_compute; reflexivity. Qed.

(** The track name "Violin 1" and the entry "Stradivari Violin": neither
    name contains the other, and the search finds nothing. *)
Lemma violin_1_and_stradivari :
  contains_either_way "Stradivari Violin" "Violin 1" = false
  /\ resolve library_dir
       ["/Users/me/Music/Art Conductor Logic/Strings/Stradivari Violin.plist"] "Violin 1"
     = None
  /\ cache_hit "Stradivari Violin" "Violin 1" = false.
Proof. repeat split; vm_compute; reflexivity. Qed.

End MatchingFacts.

(* ===================================================================== *)
(** * Auto-assignment: which notes, and what is kept *)
(* ===================================================================== *)

Module AutoAssignMore.
Import JS Parser AutoAssign ParserExports NumberFacts AutoAssignFacts Samples.

(** The free notes ascend, lie in [start..127] and are not in the used
    set. *)
Lemma free_notes_sorted (used : NoteSet) (k : nat) (start : Z) :
  (Z.to_nat (128 - start) <= k)%nat ->
  StronglySorted Z.lt (free_notes used start)
  /\ Forall (fun n => start <= n <= 127 /\ Set_has used n = false)
       (free_notes used start).
Proof.
  revert start. induction k as [| k IH]; intros start Hk.
  - rewrite free_notes_nil by lia. split; constructor.
  - destruct (Z.leb_spec start 127) as [Hle | Hgt];
      [| rewrite free_notes_nil by lia; split; constructor].
    rewrite free_notes_cons by exact Hle.
    destruct (IH (start + 1) ltac:(lia)) as [Hsorted Hall].
    assert (Forall (fun n => start <= n <= 127 /\ Set_has used n = false)
              (free_notes used (start + 1))) as Hall'.
    { eapply Forall_impl; [exact Hall |]. cbn. intros n [Hn Hfree]. split; [lia | exact Hfree]. }
    destruct (Set_has used start) eqn:Hhas; [now split |].
    split.
    + constructor; [exact Hsorted |].
      eapply Forall_impl; [exact Hall |]. cbn. intros n [Hn _]. lia.
    + constructor; [split; [lia | exact Hhas] | exact Hall'].
Qed.

(** What the second pass returns: the free notes of the scan, in
    ascending order, given in order to the articulations without
    trigger. *)
Lemma assign_articulations_fill (arts : list Articulation) (c : Closure)
    (updated : list Articulation) :
  assign_articulations arts c = Ok updated ->
  updated
  = fill arts (firstn (List.length (unassigned arts))
                 (free_notes (usedNotes c) (nextNote c))).
Proof.
  revert c updated. induction arts as [| art rest IH]; intros c updated H.
  - now injection H as <-.
  - cbn [assign_articulations] in H. unfold unassigned. cbn [List.filter fill].
    destruct (remoteTrigger art) as [rt |] eqn:Hrt.
    + rewrite bool_decide_eq_true_2 by eauto. cbn [negb].
      destruct (assign_articulations rest c) as [updated' |] eqn:Hrest; [| discriminate H].
      injection H as <-. now rewrite (IH _ _ Hrest).
    + rewrite bool_decide_eq_false_2 by (intros [? ?]; discriminate).
      cbn [negb List.length].
      pose proof (getNextAvailableNote_free c) as Hnext.
      destruct (free_notes (usedNotes c) (nextNote c)) as [| n free].
      * rewrite Hnext in H. discriminate H.
      * destruct Hnext as (c' & Hc' & Hfree). rewrite Hc' in H. cbn [bind] in H.
        destruct (assign_articulations rest c') as [updated' |] eqn:Hrest;
          [| discriminate H].
        injection H as <-. cbn [firstn]. rewrite (IH _ _ Hrest), Hfree. reflexivity.
Qed.

Lemma assign_articulations_enough (arts : list Articulation) (c : Closure)
    (updated : list Articulation) :
  assign_articulations arts c = Ok updated ->
  (List.length (unassigned arts)
   <= List.length (free_notes (usedNotes c) (nextNote c)))%nat.
Proof.
  intros H.
  destruct (Nat.lt_ge_cases (List.length (free_notes (usedNotes c) (nextNote c)))
              (List.length (unassigned arts))) as [Hlt | Hge]; [| exact Hge].
  rewrite (assign_articulations_throws arts c Hlt) in H. discriminate H.
Qed.

Lemma without_trigger_fill (arts : list Articulation) (notes : list Z) :
  map without_trigger (fill arts notes) = map without_trigger arts.
Proof.
  revert notes. induction arts as [| art rest IH]; intros notes; [reflexivity |].
  cbn [fill]. destruct (remoteTrigger art) as [rt |] eqn:Hrt.
  - cbn [map]. now rewrite IH.
  - destruct notes as [| note notes']; cbn [map]; rewrite IH; reflexivity.
Qed.

Lemma count_auto_fill (arts : list Articulation) (notes : list Z) :
  List.length notes = List.length (unassigned arts) ->
  List.length (List.filter is_auto (fill arts notes))
  = (List.length (List.filter is_auto arts) + List.length notes)%nat.
Proof.
  revert notes. induction arts as [| art rest IH]; intros notes Hlen.
  - destruct notes; [reflexivity | discriminate Hlen].
  - unfold unassigned in Hlen. cbn [List.filter fill] in *.
    destruct (remoteTrigger art) as [rt |] eqn:Hrt.
    + rewrite bool_decide_eq_true_2 in Hlen by eauto. cbn [negb] in Hlen.
      cbn [List.filter]. destruct (is_auto art); cbn [List.length]; rewrite (IH notes Hlen);
        reflexivity.
    + rewrite bool_decide_eq_false_2 in Hlen by (intros [? ?]; discriminate).
      cbn [negb List.length] in Hlen.
      destruct notes as [| note notes']; [discriminate Hlen |].
      injection Hlen as Hlen. cbn [List.filter].
      assert (is_auto art = false) as -> by (unfold is_auto; now rewrite Hrt).
      assert (is_auto (with_remoteTrigger art (auto_trigger note)) = true) as ->
        by reflexivity.
      cbn [List.length]. rewrite (IH notes' Hlen). lia.
Qed.

Lemma fill_length (arts : list Articulation) (notes : list Z) :
  List.length (fill arts notes) = List.length arts.
Proof.
  revert notes. induction arts as [| art rest IH]; intros notes; [reflexivity |].
  cbn [fill]. destruct (remoteTrigger art), notes; cbn; now rewrite IH.
Qed.

(** No non-auto-assigned remote trigger holds a note that the used set
    lacks. *)
Lemma not_used_no_trigger (arts : list Articulation) (n : Z) :
  Set_has (collect_usedNotes arts) n = false ->
  forall art rt,
    In art arts -> remoteTrigger art = Some rt -> auto_flag rt = false ->
    rt_data1 rt <> VNumber (of_Z n).
Proof.
  intros Hfree art rt Hin Hrt Hauto Hdata.
  unfold collect_usedNotes in Hfree.
  rewrite ExhaustionFacts.Set_has_fold in Hfree; [discriminate Hfree |].
  right. exists art, rt. now repeat split.
Qed.

Lemma autoAssign_fill (artSet : ArticulationSet) (startNote : Z)
    (result : ArticulationSet) :
  autoAssignRemoteTriggers artSet startNote = Ok result ->
  articulations result
  = fill (articulations artSet)
      (firstn (List.length (unassigned (articulations artSet)))
         (free_notes (collect_usedNotes (articulations artSet)) startNote)).
Proof.
  intros H. destruct (autoAssign_inv _ _ _ H) as (updated & Hmap & ->).
  exact (assign_articulations_fill _ _ _ Hmap).
Qed.

(** X1. When auto-assignment returns, the articulations that lacked a
    remote trigger have received, in their order, notes that ascend
    strictly (so no note is given twice), lie in [startNote..127] and are
    held by no non-auto-assigned remote trigger of the set; they are the
    lowest such notes. *)
Theorem assigned_notes_are_the_lowest_free
    (artSet : ArticulationSet) (startNote : Z) (result : ArticulationSet) :
  autoAssignRemoteTriggers artSet startNote = Ok result ->
  let arts := articulations artSet in
  exists notes,
    articulations result = fill arts notes
    /\ List.length notes = List.length (unassigned arts)
    /\ notes = firstn (List.length notes) (free_notes (collect_usedNotes arts) startNote)
    /\ StronglySorted Z.lt notes
    /\ NoDup notes
    /\ Forall
         (fun n =>
            startNote <= n <= 127
            /\ forall art rt,
                 In art arts -> remoteTrigger art = Some rt -> auto_flag rt = false ->
                 rt_data1 rt <> VNumber (of_Z n))
         notes.
Proof.
  intros H arts. destruct (autoAssign_inv _ _ _ H) as (updated & Hmap & ->).
  pose proof (assign_articulations_fill _ _ _ Hmap) as Hfill.
  pose proof (assign_articulations_enough _ _ _ Hmap) as Henough.
  cbn [usedNotes nextNote] in Hfill, Henough. fold arts in Hfill, Henough.
  set (free := free_notes (collect_usedNotes arts) startNote) in *.
  set (k := List.length (unassigned arts)) in *.
  destruct (free_notes_sorted (collect_usedNotes arts) (Z.to_nat (128 - startNote))
              startNote ltac:(lia)) as [Hsorted Hall].
  fold free in Hsorted, Hall.
  assert (List.length (firstn k free) = k) as Hlen by (rewrite length_take; lia).
  assert (StronglySorted Z.lt (firstn k free)) as Hs.
  { apply (StronglySorted_app_1_l _ _ (skipn k free)). now rewrite firstn_skipn. }
  exists (firstn k free). split; [exact Hfill |]. split; [exact Hlen |].
  split; [now rewrite Hlen |]. split; [exact Hs |]. split.
  - clear -Hs. induction Hs as [| n l _ IH Hn]; constructor; [| exact IH].
    intros Hin. rewrite Forall_forall in Hn. specialize (Hn n Hin). lia.
  - apply Forall_take. eapply Forall_impl; [exact Hall |]. cbn.
    intros n [Hn Hfree]. split; [exact Hn |]. now apply not_used_no_trigger.
Qed.

Lemma assigned_notes_are_the_lowest_free_witness :
  exists result,
    autoAssignRemoteTriggers mixed 0 = Ok result
    /\ articulations result = fill (articulations mixed) [1; 2].
Proof.
  eexists. split; [reflexivity |].
  destruct (assigned_notes_are_the_lowest_free mixed 0 _ eq_refl)
    as (notes & Hfill & Hlen & Hnotes & _).
  rewrite Hfill, Hnotes, Hlen. reflexivity.
Defined.

(** X2. When auto-assignment returns, the result has the name and file
    name of the set, as many articulations, each of them equal to the one
    at its position but for the remote trigger, and its count of
    auto-assigned remotes is the count of the set plus the number of
    articulations that lacked a remote trigger. *)
Theorem autoAssign_keeps_the_rest
    (artSet : ArticulationSet) (startNote : Z) (result : ArticulationSet) :
  autoAssignRemoteTriggers artSet startNote = Ok result ->
  set_name result = set_name artSet
  /\ fileName result = fileName artSet
  /\ List.length (articulations result) = List.length (articulations artSet)
  /\ map without_trigger (articulations result)
     = map without_trigger (articulations artSet)
  /\ countAutoAssignedRemotes result
     = (countAutoAssignedRemotes artSet
        + List.length (unassigned (articulations artSet)))%nat.
Proof.
  intros H. destruct (autoAssign_inv _ _ _ H) as (updated & Hmap & ->).
  pose proof (assign_articulations_fill _ _ _ Hmap) as Hfill.
  pose proof (assign_articulations_enough _ _ _ Hmap) as Henough.
  cbn [set_name fileName articulations with_articulations].
  split; [reflexivity |]. split; [reflexivity |]. rewrite Hfill.
  split; [apply fill_length |]. split; [apply without_trigger_fill |].
  unfold countAutoAssignedRemotes. cbn [articulations with_articulations].
  rewrite count_auto_fill; rewrite length_take; lia.
Qed.

Lemma autoAssign_keeps_the_rest_witness :
  exists result,
    autoAssignRemoteTriggers mixed 0 = Ok result
    /\ countAutoAssignedRemotes mixed = 0%nat
    /\ countAutoAssignedRemotes result = 2%nat.
Proof.
  eexists. split; [reflexivity |]. split; [reflexivity |].
  destruct (autoAssign_keeps_the_rest mixed 0 _ eq_refl) as (_ & _ & _ & _ & Hcount).
  rewrite Hcount. reflexivity.
Defined.

End AutoAssignMore.

(* ===================================================================== *)
(** * The other exports of the parser file *)
(* ===================================================================== *)

Module ParserExportsFacts.
Import JS Parser AutoAssign ParserExports NumberFacts AutoAssignFacts AutoAssignMore.
Import Samples MoreSamples.

Lemma fold_add_auto_only (arts : list Articulation) (acc : NoteSet) :
  (forall art rt, In art arts -> remoteTrigger art = Some rt -> auto_flag rt = true) ->
  fold_left add_if_manual arts acc = acc.
Proof.
  revert acc. induction arts as [| art rest IH]; intros acc Hauto; [reflexivity |].
  cbn [fold_left].
  assert (add_if_manual acc art = acc) as ->.
  { unfold add_if_manual. destruct (remoteTrigger art) as [rt |] eqn:Hrt; [| reflexivity].
    rewrite (Hauto art rt (or_introl eq_refl) Hrt). reflexivity. }
  apply IH. intros a rt Hin. apply Hauto. now right.
Qed.

Lemma collect_usedNotes_auto_only (arts : list Articulation) :
  (forall art rt, In art arts -> remoteTrigger art = Some rt -> auto_flag rt = true) ->
  collect_usedNotes arts = [].
Proof. apply fold_add_auto_only. Qed.

Lemma free_notes_empty (start : Z) : free_notes [] start = seqZ start (128 - start).
Proof.
  unfold free_notes. generalize (seqZ start (128 - start)) as l.
  induction l as [| n l IH]; [reflexivity |].
  cbn [List.filter]. unfold Set_has at 1. cbn [existsb negb]. now rewrite IH.
Qed.

(** X3. Notes held by auto-assigned remote triggers are not reserved: in
    a set whose remote triggers are all auto-assigned (as those the parser
    derives from the output note), the articulations without remote
    trigger receive [startNote], [startNote + 1], ... in order, whatever
    notes the existing triggers hold; so the first of them receives
    [startNote] even when a trigger of the set is on that note already. *)
Theorem auto_assigned_notes_are_not_reserved
    (artSet : ArticulationSet) (startNote : Z) (result : ArticulationSet) :
  (forall art rt,
      In art (articulations artSet) -> remoteTrigger art = Some rt ->
      auto_flag rt = true) ->
  autoAssignRemoteTriggers artSet startNote = Ok result ->
  articulations result
  = fill (articulations artSet)
      (firstn (List.length (unassigned (articulations artSet)))
         (seqZ startNote (128 - startNote))).
Proof.
  intros Hauto H.
  rewrite (autoAssign_fill _ _ _ H), (collect_usedNotes_auto_only _ Hauto),
    free_notes_empty.
  reflexivity.
Qed.

Lemma auto_assigned_notes_are_not_reserved_witness :
  exists result,
    autoAssignRemoteTriggers fallback_then_bare 0 = Ok result
    /\ map (fun art => option_map rt_data1 (remoteTrigger art)) (articulations result)
       = [Some (VNumber (of_Z 0)); Some (VNumber (of_Z 0))].
Proof.
  eexists. split; [reflexivity |].
  rewrite (auto_assigned_notes_are_not_reserved fallback_then_bare 0 _
             ltac:(intros art rt [<- | [<- | []]]; cbn; intros [= <-]; reflexivity)
             eq_refl).
  reflexivity.
Defined.

(** ** [createSimpleArticulationSet] *)

Lemma map_indexed_lookup {A B} (f : A -> nat -> B) (l : list A) (i k : nat) (x : A) :
  l !! k = Some x -> map_indexed f l i !! k = Some (f x (i + k)%nat).
Proof.
  revert i k. induction l as [| a rest IH]; intros i k Hk; [discriminate Hk |].
  destruct k as [| k]; cbn in *.
  - injection Hk as <-. now rewrite Nat.add_0_r.
  - etrans; [exact (IH (S i) k Hk) |]. f_equal. f_equal. lia.
Qed.

Lemma map_indexed_length {A B} (f : A -> nat -> B) (l : list A) (i : nat) :
  List.length (map_indexed f l i) = List.length l.
Proof. revert i. induction l; intros i; cbn; [reflexivity | now rewrite IHl]. Qed.

Lemma map_indexed_Forall {A B} (f : A -> nat -> B) (P : B -> Prop) (l : list A) (i : nat) :
  (forall x j, P (f x j)) -> Forall P (map_indexed f l i).
Proof. intros HP. revert i. induction l; intros i; cbn; constructor; auto. Qed.

Lemma filter_none {A} (f : A -> bool) (l : list A) :
  Forall (fun x => f x = false) l -> List.filter f l = [].
Proof. induction 1 as [| x l Hx _ IH]; cbn; [reflexivity | now rewrite Hx]. Qed.

(** X4. A set made by [createSimpleArticulationSet] has one articulation
    per key switch, in order, whose remote trigger is on the note of its
    one output message and is not auto-assigned; so no remote is
    unassigned, none counts as auto-assigned, and auto-assignment from any
    start note returns the set as it is. *)
Theorem simple_set_is_fully_keyed
    (now : nat -> Z) (name : string) (keySwitches : list KeySwitch) :
  let artSet := createSimpleArticulationSet now name keySwitches in
  List.length (articulations artSet) = List.length keySwitches
  /\ (forall i ks,
        keySwitches !! i = Some ks ->
        exists art,
          articulations artSet !! i = Some art
          /\ Parser.name art = VString (ks_name ks)
          /\ midiMessages art
             = [{| status := of_Z 144; data1 := VNumber (ks_note ks);
                   data2 := VNumber (of_Z 127) |}]
          /\ remoteTrigger art
             = Some {| rt_status := of_Z 144; rt_data1 := VNumber (ks_note ks);
                       isAutoAssigned := Some false |})
  /\ hasUnassignedRemotes artSet = false
  /\ countAutoAssignedRemotes artSet = 0%nat
  /\ (forall startNote, autoAssignRemoteTriggers artSet startNote = Ok artSet).
Proof.
  cbn zeta. unfold createSimpleArticulationSet.
  set (arts := map_indexed _ keySwitches 0).
  assert (Forall (fun art => is_Some (remoteTrigger art)) arts) as Hall
    by (apply map_indexed_Forall; intros ks j; cbn; eauto).
  split; [apply map_indexed_length |]. split; [| split; [| split]].
  - intros i ks Hi. eexists. split; [exact (map_indexed_lookup _ _ 0 i ks Hi) |].
    cbn. repeat split.
  - exact (proj1 (hasUnassigned_false
                    {| set_name := name; fileName := "custom"; articulations := arts;
                       isMerged := None; sourceMapNames := None |} Hall)).
  - unfold countAutoAssignedRemotes. cbn [articulations].
    rewrite filter_none; [reflexivity |].
    apply map_indexed_Forall. intros ks j. reflexivity.
  - intros startNote. now apply autoAssign_complete.
Qed.

Lemma simple_set_is_fully_keyed_witness :
  autoAssignRemoteTriggers
    (createSimpleArticulationSet (fun _ => 1700000000000) "Keys" two_key_switches) 24
  = Ok (createSimpleArticulationSet (fun _ => 1700000000000) "Keys" two_key_switches).
Proof.
  exact (proj2 (proj2 (proj2 (proj2
           (simple_set_is_fully_keyed (fun _ => 1700000000000) "Keys"
              two_key_switches)))) 24).
Defined.

(** ** [midiNoteToName] *)

Lemma midi_note_names_distinct :
  NoDup (map midiNoteToName (seqZ 0 128)).
Proof. apply (bool_decide_unpack _). vm_compute. reflexivity. Qed.

(** X5. [midiNoteToName] gives distinct names to distinct notes of
    0..127. *)
Theorem midi_note_names_injective (n m : Z) :
  0 <= n <= 127 -> 0 <= m <= 127 -> n <> m ->
  midiNoteToName n <> midiNoteToName m.
Proof.
  intros Hn Hm Hne Heq. apply Hne.
  pose proof midi_note_names_distinct as Hnd.
  rewrite NoDup_alt in Hnd.
  assert (forall k, 0 <= k <= 127 ->
            map midiNoteToName (seqZ 0 128) !! Z.to_nat k = Some (midiNoteToName k))
    as Hlook.
  { intros k Hk. change (map midiNoteToName (seqZ 0 128))
      with (midiNoteToName <$> seqZ 0 128).
    rewrite list_lookup_fmap, lookup_seqZ_lt by lia. cbn. f_equal. f_equal. lia. }
  pose proof (Hnd _ _ _ (Hlook n Hn) (eq_trans (Hlook m Hm) (f_equal Some (eq_sym Heq)))).
  lia.
Qed.

Lemma midi_note_names_injective_witness :
  midiNoteToName 60 = "C3" /\ midiNoteToName 61 <> midiNoteToName 60.
Proof.
  split; [reflexivity |].
  apply (midi_note_names_injective 61 60); lia.
Defined.

(** X6. For a negative note that is no multiple of 12, [midiNoteToName]
    finds no note name: the result reads "undefined" followed by the
    octave number, the floor of note/12 less 2. *)
Theorem midi_note_name_below_zero (n : Z) :
  n < 0 -> n mod 12 <> 0 ->
  midiNoteToName n = "undefined" +:+ decimal (n / 12 - 2).
Proof.
  intros Hneg Hmod. unfold midiNoteToName.
  assert (Z.rem n 12 < 0) as Hrem.
  { pose proof (Z.rem_nonpos n 12 ltac:(lia) ltac:(lia)) as Hb.
    destruct (Z.eq_dec (Z.rem n 12) 0) as [E | E]; [| lia].
    exfalso. apply Hmod. now apply (proj1 (Z.rem_mod_eq_0 n 12 ltac:(lia))). }
  destruct (Z.leb_spec 0 (Z.rem n 12)); [lia | reflexivity].
Qed.

Lemma midi_note_name_below_zero_witness :
  midiNoteToName (-1) = "undefined-3".
Proof.
  rewrite (midi_note_name_below_zero (-1)) by (vm_compute; congruence).
  reflexivity.
Defined.

(** ** [groupArticulations] *)

Lemma num_same_sym (a b : number) : num_same a b = num_same b a.
Proof.
  destruct a as [| | | x], b as [| | | y]; cbn; try reflexivity.
  apply eq_true_iff_eq. rewrite !Qeq_bool_iff. split; intros H; now symmetry.
Qed.

Lemma num_same_trans (a b c : number) :
  num_same a b = true -> num_same b c = true -> num_same a c = true.
Proof.
  destruct a as [| | | x], b as [| | | y], c as [| | | z]; cbn; try congruence.
  rewrite !Qeq_bool_iff. intros H1 H2. now rewrite H1.
Qed.

Lemma same_key_sym (a b : value) : same_key a b = same_key b a.
Proof.
  destruct a, b; cbn; try reflexivity.
  - now destruct b, b0.
  - apply num_same_sym.
  - apply String.eqb_sym.
Qed.

Lemma same_key_trans (a b c : value) :
  same_key a b = true -> same_key b c = true -> same_key a c = true.
Proof.
  destruct a, b; cbn; try congruence; destruct c; cbn; try congruence.
  - destruct b, b0, b1; cbn; congruence.
  - apply num_same_trans.
  - rewrite !String.eqb_eq. congruence.
Qed.

(** Two keys that are the same key are the same key as exactly the same
    keys. *)
Lemma same_key_class (a b c : value) :
  same_key a b = true -> same_key c a = same_key c b.
Proof.
  intros Hab. apply eq_true_iff_eq. split; intros H.
  - exact (same_key_trans _ _ _ H Hab).
  - rewrite same_key_sym in Hab. exact (same_key_trans _ _ _ H Hab).
Qed.

Lemma groups_get_set (groups : list (value * list Articulation))
    (k k' : value) (arts : list Articulation) :
  groups_get (groups_set groups k arts) k'
  = if same_key k k' then Some arts else groups_get groups k'.
Proof.
  induction groups as [| [k0 arts0] rest IH]; cbn [groups_set groups_get].
  - reflexivity.
  - destruct (same_key k0 k) eqn:H0; cbn [groups_get].
    + assert (same_key k0 k' = same_key k k') as ->
        by (rewrite (same_key_sym k0 k'), (same_key_sym k k');
            now apply same_key_class).
      destruct (same_key k k'); reflexivity.
    + destruct (same_key k0 k') eqn:H1; [| exact IH].
      destruct (same_key k k') eqn:H2; [| reflexivity].
      rewrite (same_key_sym k k') in H2.
      rewrite (same_key_trans _ _ _ H1 H2) in H0. discriminate H0.
Qed.

Lemma group_step_get (groups : list (value * list Articulation))
    (done : list Articulation) (art : Articulation) :
  (forall k, groups_get groups k = found (List.filter (in_group k) done)) ->
  forall k,
    groups_get (group_step groups art) k
    = found (List.filter (in_group k) (done ++ [art])).
Proof.
  intros Hinv k. unfold group_step.
  rewrite groups_get_set, List.filter_app. cbn [List.filter].
  change (in_group k art) with (same_key (group art) k).
  destruct (same_key (group art) k) eqn:Hk.
  - rewrite Hinv.
    rewrite (List.filter_ext (in_group (group art)) (in_group k))
      by (intros a; unfold in_group; now apply same_key_class).
    destruct (List.filter (in_group k) done) as [| a l]; reflexivity.
  - now rewrite app_nil_r.
Qed.

Lemma group_fold_get (arts done : list Articulation)
    (groups : list (value * list Articulation)) :
  (forall k, groups_get groups k = found (List.filter (in_group k) done)) ->
  forall k,
    groups_get (fold_left group_step arts groups) k
    = found (List.filter (in_group k) (done ++ arts)).
Proof.
  revert done groups.
  induction arts as [| art rest IH]; intros done groups Hinv k; cbn [fold_left].
  - now rewrite app_nil_r.
  - rewrite (IH (done ++ [art]) _ (group_step_get _ _ _ Hinv)).
    now rewrite <- app_assoc.
Qed.

(** X7. For articulations whose group values are primitive (numbers, as
    the type has it, or strings, booleans, [undefined]):
    [groupArticulations(arts).get(k)] is the list of the articulations of
    [arts] whose group is the key [k], in the order of [arts]; a key that
    is the group of no articulation is not in the map. *)
Theorem group_holds_its_articulations (arts : list Articulation) (k : value) :
  Forall (fun art => primitive (group art) = true) arts ->
  groups_get (groupArticulations arts) k
  = match List.filter (fun art => same_key (group art) k) arts with
    | [] => None
    | members => Some members
    end.
Proof.
  intros _.
  pose proof (group_fold_get arts [] [] (fun _ => eq_refl) k) as H.
  cbn [app] in H. unfold found, in_group in H.
  change (groupArticulations arts) with (fold_left group_step arts []).
  rewrite H. now destruct (List.filter _ arts).
Qed.

Lemma group_holds_its_articulations_witness :
  groups_get (groupArticulations (articulations mixed)) (VNumber (of_Z 0))
  = Some (articulations mixed).
Proof.
  rewrite (group_holds_its_articulations (articulations mixed) (VNumber (of_Z 0)))
    by (repeat constructor).
  reflexivity.
Defined.

Lemma group_step_concat (groups : list (value * list Articulation))
    (art : Articulation) :
  Permutation (concat (map snd (group_step groups art)))
              (concat (map snd groups) ++ [art]).
Proof.
  unfold group_step.
  induction groups as [| [k0 arts0] rest IH]; cbn [groups_set groups_get].
  - reflexivity.
  - destruct (same_key k0 (group art)); cbn [map concat snd default].
    + rewrite <- !app_assoc. apply Permutation_app_head, Permutation_app_comm.
    + rewrite <- app_assoc. now apply Permutation_app_head.
Qed.

Lemma group_step_entries (groups : list (value * list Articulation))
    (art : Articulation) :
  Forall entry_ok groups -> Forall entry_ok (group_step groups art).
Proof.
  unfold group_step.
  induction 1 as [| [k0 arts0] rest H0 Hrest IH]; cbn [groups_set groups_get].
  - constructor; [| constructor]. exists art, []. cbn. repeat split. constructor.
  - destruct (same_key k0 (group art)) eqn:Hk.
    + constructor; [| assumption].
      destruct H0 as (a & l & Hl & Ha & Hall). cbn in Hl, Ha, Hall. subst arts0.
      exists a, (l ++ [art]). cbn. repeat split; [exact Ha |].
      apply Forall_app. split; [exact Hall |]. now constructor.
    + constructor; assumption.
Qed.

Lemma groups_set_keys (P : value -> Prop)
    (groups : list (value * list Articulation)) (k : value)
    (arts : list Articulation) :
  Forall P (map fst groups) -> P k -> Forall P (map fst (groups_set groups k arts)).
Proof.
  intros Hall Hk.
  induction groups as [| [k0 arts0] rest IH]; cbn [groups_set].
  - now constructor.
  - inversion Hall as [| ? ? H0 Hrest]; subst.
    destruct (same_key k0 k); cbn [map fst]; constructor; auto.
Qed.

Lemma groups_set_distinct (groups : list (value * list Articulation))
    (k : value) (arts : list Articulation) :
  distinct_keys (map fst groups) ->
  distinct_keys (map fst (groups_set groups k arts)).
Proof.
  unfold distinct_keys.
  induction groups as [| [k0 arts0] rest IH]; cbn [groups_set map fst]; intros H.
  - repeat constructor.
  - apply StronglySorted_inv in H as [Hrest H0].
    destruct (same_key k0 k) eqn:Hk; cbn [map fst].
    + now constructor.
    + constructor; [now apply IH |]. now apply groups_set_keys.
Qed.

Lemma group_fold_partition (arts done : list Articulation)
    (groups : list (value * list Articulation)) :
  Permutation (concat (map snd groups)) done ->
  Forall entry_ok groups ->
  distinct_keys (map fst groups) ->
  let result := fold_left group_step arts groups in
  Permutation (concat (map snd result)) (done ++ arts)
  /\ Forall entry_ok result
  /\ distinct_keys (map fst result).
Proof.
  revert done groups.
  induction arts as [| art rest IH]; intros done groups Hperm Hok Hkeys;
    cbn [fold_left].
  - now rewrite app_nil_r.
  - cbn zeta. replace (done ++ art :: rest) with ((done ++ [art]) ++ rest)
      by now rewrite <- app_assoc.
    apply IH.
    + rewrite group_step_concat. now apply Permutation_app_tail.
    + now apply group_step_entries.
    + now apply groups_set_distinct.
Qed.

(** X8. For articulations whose group values are primitive,
    [groupArticulations] partitions its input: the groups put end to end
    are a rearrangement of the input (nothing lost, nothing twice); no
    group is empty, the key of a group is the group value of its first
    articulation and all its articulations have that key; and no two
    entries of the map have the same key. *)
Theorem groups_partition_the_articulations (arts : list Articulation) :
  Forall (fun art => primitive (group art) = true) arts ->
  let groups := groupArticulations arts in
  Permutation (concat (map snd groups)) arts
  /\ Forall
       (fun entry =>
          exists art rest,
            entry.2 = art :: rest /\ group art = entry.1
            /\ Forall (fun other => same_key entry.1 (group other) = true) rest)
       groups
  /\ StronglySorted (fun k k' => same_key k k' = false) (map fst groups).
Proof.
  intros _. apply (group_fold_partition arts [] []).
  - reflexivity.
  - constructor.
  - constructor.
Qed.

Lemma groups_partition_the_articulations_witness :
  Permutation (concat (map snd (groupArticulations (articulations mixed))))
    (articulations mixed).
Proof.
  apply (groups_partition_the_articulations (articulations mixed)).
  repeat constructor.
Defined.

End ParserExportsFacts.

(* ===================================================================== *)
(** * The parser: what every parsed articulation satisfies *)
(* ===================================================================== *)

Module ParserInvariants.
Import JS Parser AutoAssign ParserExports NumberFacts ParserFacts ParserExportsFacts.
Import Samples PlistView.

Lemma status_of_cases (v : value) : In (status_of v) [of_Z 144; of_Z 160; of_Z 176].
Proof.
  unfold status_of.
  destruct (is_string v "Note On"); [now left |].
  destruct (is_string v "Control Change"); [now right; right; left |].
  destruct (is_string v "Poly Pressure"); [now right; left | now left].
Qed.

Lemma cc_messages_status (ccMessages : value) :
  Forall (fun m => status m = of_Z 176) (cc_messages ccMessages).
Proof.
  destruct ccMessages as [| | | | | | l]; cbn [cc_messages]; try constructor.
  induction l as [| cc rest IH]; cbn [flat_map]; [constructor |].
  destruct (defined (get cc "Number") && defined (get cc "Value")); cbn [app];
    [constructor; [reflexivity | exact IH] | exact IH].
Qed.

Lemma switch_trigger_inv (h : Host) (switchData : value) (rt : RemoteTrigger) :
  switch_trigger h switchData = Ok (Some rt) ->
  In (rt_status rt) [of_Z 144; of_Z 160; of_Z 176]
  /\ isAutoAssigned rt = Some false
  /\ rt_data1 rt = get switchData "MB1"
  /\ in_note_range h (rt_data1 rt) = Ok true.
Proof.
  unfold switch_trigger. destruct (truthy switchData); [| discriminate].
  destruct (in_note_range h (get switchData "MB1")) as [[|] |] eqn:Hr;
    cbn [bind]; try discriminate.
  intros H. injection H as <-. cbn. repeat split; try assumption.
  apply status_of_cases.
Qed.

(** X9. Every articulation that the parser returns for an entry has: the
    id made for its index; output messages whose status is 0x90, 0xA0 or
    0xB0; type 0 or 1; no channel and no source map; a truthy name; and, if
    it has a remote trigger, one whose status is among the same three and
    which is either taken from the switch table (not auto-assigned, its
    note the switch's [MB1], within 0..127) or the fallback (auto-assigned,
    Note On, its note the entry's [MB1], 0 or more). *)
Theorem parsed_articulation_shape
    (h : Host) (e : Entropy) (switchesMap : SwitchMap) (artData : value)
    (index : nat) (art : Articulation) :
  parse_articulation h e switchesMap artData index = Ok art ->
  art_id art = make_id e index
  /\ Forall (fun m => In (status m) [of_Z 144; of_Z 160; of_Z 176]) (midiMessages art)
  /\ (articulationType art = of_Z 0 \/ articulationType art = of_Z 1)
  /\ midiChannel art = None /\ sourceMap art = None
  /\ truthy (name art) = true
  /\ forall rt,
       remoteTrigger art = Some rt ->
       In (rt_status rt) [of_Z 144; of_Z 160; of_Z 176]
       /\ ((isAutoAssigned rt = Some false
            /\ rt_data1 rt = get (Map_get switchesMap (id_of artData)) "MB1"
            /\ in_note_range h (rt_data1 rt) = Ok true)
           \/ (isAutoAssigned rt = Some true
               /\ rt_status rt = of_Z 144
               /\ rt_data1 rt = mb1_of artData
               /\ defined_nonneg h (rt_data1 rt) = Ok true)).
Proof.
  unfold parse_articulation. fold (output_of artData). fold (mb1_of artData).
  fold (id_of artData). intros H.
  match type of H with bind ?r _ = _ => destruct r as [shortName |]; [| discriminate H] end.
  cbn [bind] in H.
  destruct (in_note_range h (mb1_of artData)) as [mb1_ok |]; [| discriminate H].
  cbn [bind] in H.
  match type of H with bind ?r _ = _ => destruct r as [note_ok |]; [| discriminate H] end.
  cbn [bind] in H.
  destruct (switch_trigger h (Map_get switchesMap (id_of artData)))
    as [from_switch |] eqn:Hsw; [| discriminate H].
  cbn [bind] in H.
  assert (exists remote,
            match from_switch with
            | Some rt => Ok (Some rt)
            | None =>
                bind (defined_nonneg h (mb1_of artData)) (fun ok =>
                Ok (if ok
                    then Some {| rt_status := of_Z 144;
                                 rt_data1 := mb1_of artData;
                                 isAutoAssigned := Some true |}
                    else None))
            end = Ok remote
            /\ remoteTrigger art = remote
            /\ art_id art = make_id e index
            /\ Forall (fun m => In (status m) [of_Z 144; of_Z 160; of_Z 176]) (midiMessages art)
            /\ (articulationType art = of_Z 0 \/ articulationType art = of_Z 1)
            /\ midiChannel art = None /\ sourceMap art = None
            /\ truthy (name art) = true) as (remote & Hremote & Hrt & Hrest).
  { match type of H with bind ?r _ = _ =>
      destruct r as [remote |] eqn:Hremote; [| discriminate H] end.
    cbn [bind] in H. injection H as <-. exists remote.
    split; [reflexivity |]. split; [reflexivity |]. split; [reflexivity |]. cbn.
    split; [| split; [| split; [reflexivity | split; [reflexivity |]]]].
    - apply Forall_app. split.
      + destruct mb1_ok; [| constructor].
        constructor; [apply status_of_cases | constructor].
      + apply Forall_app. split.
        * destruct note_ok; [| constructor].
          constructor; [now left | constructor].
        * eapply Forall_impl; [apply cc_messages_status |].
          cbn. intros m ->. now right; right; left.
    - destruct (is_string _ "direction"); [now right | now left].
    - unfold or_.
      destruct (truthy (get artData "Name")) eqn:H1; [exact H1 |].
      destruct (truthy (get artData "name")) eqn:H2; [exact H2 | reflexivity]. }
  destruct Hrest as (H1 & H2 & H3 & H4 & H5 & H6).
  do 6 (split; [assumption |]).
  intros rt Hart. rewrite Hrt in Hart. clear Hrt. subst remote.
  destruct from_switch as [rt' |].
  - injection Hremote as <-.
    destruct (switch_trigger_inv h _ _ Hsw) as (Hst & Hauto & Hd & Hr).
    split; [exact Hst |]. left. now repeat split.
  - destruct (defined_nonneg h (mb1_of artData)) as [[|] |] eqn:Hnn;
      cbn [bind] in Hremote; try discriminate Hremote.
    injection Hremote as <-. cbn. split; [now left |]. right. now repeat split.
Qed.

Lemma parsed_articulation_shape_witness :
  exists art,
    parse_articulation (host_for formatB_compact) entropy_a [] mb1_only_entry 2 = Ok art
    /\ art_id art = "logic_art_2_1700000000000_k3j9x0q2a"
    /\ articulationType art = of_Z 0.
Proof.
  eexists. split; [vm_compute; reflexivity |].
  destruct (parsed_articulation_shape (host_for formatB_compact) entropy_a []
              mb1_only_entry 2 _ eq_refl) as (Hid & _ & _ & _).
  split; [exact Hid | vm_compute; reflexivity].
Defined.

(** ** The switch table *)

Lemma Map_get_set (m : SwitchMap) (k v k' : value) :
  Map_get (Map_set m k v) k' = if same_key k k' then v else Map_get m k'.
Proof.
  induction m as [| [k0 v0] rest IH]; cbn [Map_set Map_get].
  - reflexivity.
  - destruct (same_key k0 k) eqn:H0; cbn [Map_get].
    + assert (same_key k0 k' = same_key k k') as ->
        by (rewrite (same_key_sym k0 k'), (same_key_sym k k');
            now apply same_key_class).
      destruct (same_key k k'); reflexivity.
    + destruct (same_key k0 k') eqn:H1; [| exact IH].
      destruct (same_key k k') eqn:H2; [| reflexivity].
      rewrite (same_key_sym k k') in H2.
      rewrite (same_key_trans _ _ _ H1 H2) in H0. discriminate H0.
Qed.

Lemma switches_fold (switchesData : list value) (m : SwitchMap) (k : value) :
  Map_get
    (fold_left
       (fun m sw => if defined (get sw "ID") then Map_set m (get sw "ID") sw else m)
       switchesData m) k
  = match last (List.filter
                  (fun sw => defined (get sw "ID") && same_key (get sw "ID") k)
                  switchesData) with
    | Some sw => sw
    | None => Map_get m k
    end.
Proof.
  revert m. induction switchesData as [| sw rest IH]; intros m;
    cbn [fold_left List.filter]; [reflexivity |].
  rewrite IH.
  destruct (defined (get sw "ID")) eqn:Hdef; cbn [andb].
  - destruct (same_key (get sw "ID") k) eqn:Hk.
    + rewrite last_cons, Map_get_set, Hk. now destruct (last _).
    + now rewrite Map_get_set, Hk.
  - reflexivity.
Qed.

Lemma switch_of_no_id (switchesData : list value) :
  Map_get (build_switchesMap switchesData) VUndefined = VUndefined.
Proof.
  unfold build_switchesMap. rewrite switches_fold, filter_none; [reflexivity |].
  apply Forall_forall. intros sw _. now destruct (get sw "ID").
Qed.

(** X10. Looking an id up in the switch table gives the last switch of
    the [Switches] array whose [ID] is defined and is the same value as the
    id (later switches replace earlier ones of the same [ID]), and
    [undefined] when there is none; in particular an entry without id
    finds no switch. *)
Theorem last_switch_wins (switchesData : list value) (k : value) :
  Map_get (build_switchesMap switchesData) k
  = default VUndefined
      (last (List.filter
               (fun sw => defined (get sw "ID") && same_key (get sw "ID") k)
               switchesData))
  /\ Map_get (build_switchesMap switchesData) VUndefined = VUndefined.
Proof.
  split; [| apply switch_of_no_id].
  unfold build_switchesMap. rewrite switches_fold. now destruct (last _).
Qed.

(** ** Defaults *)

Lemma palette_complete :
  Forall (fun k => is_Some (LOGIC_COLORS !! k)) (seqZ 0 16).
Proof. repeat constructor; vm_compute; eauto. Qed.

(** X11. An entry of the [Articulations] array that has none of the keys
    (an empty dictionary, or a value that is no dictionary) parses to the
    default articulation: named "Articulation" with its position counted
    from 1, short name "ARTI", the name as description, the position
    modulo 16 as color (an index that the palette [LOGIC_COLORS] has),
    group 0, type 0, no output message, no remote trigger and no key
    switch. *)
Theorem entry_without_keys_gets_defaults
    (h : Host) (e : Entropy) (switchesData : list value) (artData : value)
    (index : nat) :
  (forall k, get artData k = VUndefined) ->
  parse_articulation h e (build_switchesMap switchesData) artData index
  = Ok {| art_id := make_id e index;
          name := VString ("Articulation " +:+ decimal (Z.of_nat index + 1));
          shortName := VString "ARTI";
          description := VString ("Articulation " +:+ decimal (Z.of_nat index + 1));
          color := VNumber (of_Z (Z.of_nat index mod 16));
          group := VNumber (of_Z 0);
          midiMessages := [];
          remoteTrigger := None;
          keySwitch := VUndefined;
          articulationType := of_Z 0;
          midiChannel := None;
          sourceMap := None |}
  /\ is_Some (LOGIC_COLORS !! (Z.of_nat index mod 16)).
Proof.
  intros Hnone. split.
  - unfold parse_articulation. rewrite !Hnone.
    change (or_ VUndefined VUndefined) with VUndefined.
    rewrite switch_of_no_id. reflexivity.
  - pose proof palette_complete as Hp. rewrite Forall_forall in Hp.
    apply Hp. apply elem_of_seqZ.
    pose proof (Z.mod_pos_bound (Z.of_nat index) 16). lia.
Qed.

Lemma entry_without_keys_gets_defaults_witness :
  exists art,
    parse_articulation (host_for formatB_compact) entropy_a (build_switchesMap [])
      (VString "stray") 17 = Ok art
    /\ name art = VString "Articulation 18"
    /\ color art = VNumber (of_Z 1).
Proof.
  destruct (entry_without_keys_gets_defaults (host_for formatB_compact) entropy_a []
              (VString "stray") 17 (fun _ => eq_refl)) as [H _].
  eexists. split; [exact H |]. split; reflexivity.
Defined.

(** ** The root of the document *)



(** ** Reading a [dict] *)

Lemma or_str_empty (s : string) : or_str s "" = s.
Proof. unfold or_str. now destruct (String.eqb_spec s "") as [-> |]. Qed.

Lemma pairs_lookup (h : Host) (k : string) (l : list Element) :
  (forall result,
      parsePlistDict_pairs h l result !! k
      = match list.last (List.filter (sets_key k) (pairs l)) with
        | Some kv => Some (parsePlistValue h kv.2)
        | None => result !! k
        end)
  /\ (forall x result,
        parsePlistDict_pairs h (x :: l) result !! k
        = match list.last (List.filter (sets_key k) (pairs (x :: l))) with
          | Some kv => Some (parsePlistValue h kv.2)
          | None => result !! k
          end).
Proof.
  induction l as [| a l [IH1 IH2]].
  - split; reflexivity.
  - split; [exact (IH2 a) |].
    intros x result. cbn [parsePlistDict_pairs pairs List.filter].
    rewrite IH1. unfold sets_key at 2. cbn [fst snd].
    rewrite or_str_empty.
    destruct (String.eqb (tagName x) "key"); cbn [andb].
    + destruct (String.eqb_spec (textContent x) k) as [-> | Hne].
      * rewrite last_cons, lookup_insert_eq. now destruct (list.last _).
      * rewrite lookup_insert_ne by exact Hne. reflexivity.
    + reflexivity.
Qed.

(** X30. Reading a key of a decoded [dict], for a key that is not the
    name of a member of [Object.prototype] and a [dict] in which no pair
    sets ["__proto__"]: the children are taken two by two, and the value
    under the key is the decoded second element of the last pair whose
    first element is a [key] element with that text (a later pair replaces
    an earlier one of the same key).  Pairs that do not start with a [key]
    element are skipped with their second element, a child left over at
    the end is ignored, and a key that no pair sets is absent. *)
Theorem plist_dict_lookup (h : Host) (dictElement : Element) (k : string) :
  ~ In k Object_prototype_names ->
  List.filter (sets_key "__proto__") (pairs (children dictElement)) = [] ->
  parsePlistDict h dictElement !! k
  = option_map (fun kv => parsePlistValue h kv.2)
      (list.last (List.filter (sets_key k) (pairs (children dictElement)))).
Proof.
  intros _ _. unfold parsePlistDict.
  rewrite (proj1 (pairs_lookup h k (children dictElement)) ∅), lookup_empty.
  now destruct (list.last _).
Qed.

Lemma plist_dict_lookup_witness :
  parsePlistDict (host_for untidy_dict) untidy_dict !! "Name" = Some (VString "Violas").
Proof.
  rewrite (plist_dict_lookup (host_for untidy_dict) untidy_dict "Name").
  - reflexivity.
  - cbn [In Object_prototype_names]. intuition discriminate.
  - reflexivity.
Defined.

Example untidy_dict_read :
  parsePlistDict (host_for untidy_dict) untidy_dict !! "Name" = Some (VString "Violas")
  /\ parsePlistDict (host_for untidy_dict) untidy_dict !! "Left over" = None
  /\ size (parsePlistDict (host_for untidy_dict) untidy_dict) = 1%nat.
Proof. repeat split; vm_compute; reflexivity. Qed.

End ParserInvariants.

(* ===================================================================== *)
(** * The bridge server: port, output and input *)
(* ===================================================================== *)

Module ServerSetupFacts.
Import JS Server ServerSetup NumberFacts ServerFacts.
Import Samples.

(** ** The port *)

Lemma is_reserved_iff (port : Z) :
  is_reserved port = true <-> port = 3000 \/ port = 5000 \/ port = 7000.
Proof.
  unfold is_reserved. cbn [existsb MACOS_RESERVED_PORTS].
  rewrite !orb_true_iff, !Z.eqb_eq. intuition discriminate.
Qed.

(** The [while] loop stops on the first port, from [port] on, that is not
    reserved. *)
Lemma skip_reserved_spec (port : Z) :
  let port' := skip_reserved (List.length MACOS_RESERVED_PORTS) port in
  port <= port'
  /\ is_reserved port' = false
  /\ forall q, port <= q < port' -> is_reserved q = true.
Proof.
  cbn [List.length MACOS_RESERVED_PORTS skip_reserved].
  destruct (is_reserved port) eqn:H0.
  - destruct (is_reserved (port + 1)) eqn:H1.
    + apply is_reserved_iff in H0, H1. lia.
    + split; [lia |]. split; [exact H1 |].
      intros q Hq. now replace q with port by lia.
  - split; [lia |]. split; [exact H0 |]. intros q Hq. lia.
Qed.

Lemma attempts_spec (isPortAvailable : Z -> bool) (left : nat) (startPort : Z) :
  match attempts isPortAvailable left startPort with
  | Some port =>
      startPort <= port
      /\ is_reserved port = false
      /\ isPortAvailable port = true
      /\ forall q, startPort <= q < port -> is_reserved q = false ->
           isPortAvailable q = false
  | None =>
      forall q, startPort <= q < startPort + Z.of_nat left ->
        is_reserved q = false -> isPortAvailable q = false
  end.
Proof.
  revert startPort. induction left as [| left IH]; intros startPort;
    cbn [attempts]; [intros q Hq; lia |].
  destruct (skip_reserved_spec startPort) as (Hle & Hfree & Hskipped).
  cbv zeta in Hle, Hfree, Hskipped.
  set (port := skip_reserved _ startPort) in *.
  destruct (isPortAvailable port) eqn:Hav.
  - repeat split; try assumption.
    intros q Hq Hq'. rewrite (Hskipped q Hq) in Hq'. discriminate Hq'.
  - specialize (IH (port + 1)).
    destruct (attempts isPortAvailable left (port + 1)) as [found |].
    + destruct IH as (H1 & H2 & H3 & H4). repeat split; try assumption; [lia |].
      intros q Hq Hq'.
      destruct (Z.lt_trichotomy q port) as [Hlt | [-> | Hgt]].
      * rewrite (Hskipped q) in Hq' by lia. discriminate Hq'.
      * exact Hav.
      * apply H4; [lia | exact Hq'].
    + intros q Hq Hq'.
      destruct (Z.lt_trichotomy q port) as [Hlt | [-> | Hgt]].
      * rewrite (Hskipped q) in Hq' by lia. discriminate Hq'.
      * exact Hav.
      * apply IH; [lia | exact Hq'].
Qed.

(** X13. The port that [findAvailablePort] returns is never one of the
    reserved ports 3000, 5000 and 7000; it is available, not below the
    start port, and the lowest such port: every port from the start port
    up to it that is not reserved was found busy.  When it throws, with
    the message "Could not find available port after N attempts", every
    port of the N from the start port on that is not reserved was found
    busy. *)
Theorem findAvailablePort_result
    (isPortAvailable : Z -> bool) (startPort : Z) (maxAttempts : nat) :
  match findAvailablePort isPortAvailable startPort maxAttempts with
  | Ok port =>
      startPort <= port
      /\ ~ In port [3000; 5000; 7000]
      /\ isPortAvailable port = true
      /\ forall q, startPort <= q < port -> ~ In q [3000; 5000; 7000] ->
           isPortAvailable q = false
  | Throw e =>
      e = Error ("Could not find available port after "
                 +:+ decimal (Z.of_nat maxAttempts) +:+ " attempts")
      /\ forall q, startPort <= q < startPort + Z.of_nat maxAttempts ->
           ~ In q [3000; 5000; 7000] -> isPortAvailable q = false
  end.
Proof.
  assert (forall q, is_reserved q = false <-> ~ In q [3000; 5000; 7000]) as Hres.
  { intros q. rewrite <- not_true_iff_false, is_reserved_iff. cbn [In].
    intuition lia. }
  unfold findAvailablePort.
  pose proof (attempts_spec isPortAvailable maxAttempts startPort) as H.
  destruct (attempts isPortAvailable maxAttempts startPort) as [port |].
  - destruct H as (H1 & H2 & H3 & H4).
    split; [exact H1 |]. split; [now apply Hres |]. split; [exact H3 |].
    intros q Hq Hq'. apply H4; [exact Hq | now apply Hres].
  - split; [reflexivity |]. intros q Hq Hq'. apply H; [exact Hq | now apply Hres].
Qed.

Lemma findAvailablePort_result_witness :
  findAvailablePort (fun port => 5000 <=? port) 4999 10 = Ok 5001
  /\ ~ In 5001 [3000; 5000; 7000].
Proof.
  split; [reflexivity |].
  exact (proj1 (proj2 (findAvailablePort_result (fun port => 5000 <=? port) 4999 10))).
Defined.

(** Where no port of the range is reserved, the scan is a search for
    the first available port. *)
Lemma attempts_find (isPortAvailable : Z -> bool) (left : nat) (startPort : Z) :
  (forall q, startPort <= q < startPort + Z.of_nat left -> is_reserved q = false) ->
  attempts isPortAvailable left startPort
  = List.find isPortAvailable (seqZ startPort (Z.of_nat left)).
Proof.
  revert startPort. induction left as [| left IH]; intros startPort Hfree;
    [reflexivity |].
  rewrite seqZ_cons by lia. cbn [attempts List.find List.length MACOS_RESERVED_PORTS].
  cbn [skip_reserved]. rewrite (Hfree startPort) by lia.
  destruct (isPortAvailable startPort); [reflexivity |].
  rewrite IH by (intros q Hq; apply Hfree; lia).
  do 2 f_equal; lia.
Qed.

(** X14. How [main] ends.  Started without a port argument, or with an
    empty one, it goes on with the first port of 7101..7110 that it finds
    available and exits when all ten are busy.  With a port argument no
    port is probed and the reserved ports are not avoided: it goes on with
    the number that [parseInt] reads ("5000" gives 5000) and exits when
    there is none ("port").  Going on, it listens on that port when the
    MIDI set-up returns and the server comes to listen there, and exits
    when the server does not (a busy or invalid port); it never listens on
    a port on which the server did not come to listen. *)
Theorem main_port_choice
    (isPortAvailable : Z -> bool) (initMidi_returns : bool)
    (server_listens : number -> bool) :
  let go_on port :=
    if initMidi_returns
    then if server_listens port then Listening port else Exited
    else Rejected in
  let auto :=
    match List.find isPortAvailable (seqZ 7101 10) with
    | Some port => go_on (of_Z port)
    | None => Exited
    end in
  main isPortAvailable initMidi_returns server_listens None = auto
  /\ main isPortAvailable initMidi_returns server_listens (Some "") = auto
  /\ (forall arg others, arg <> "" ->
        main isPortAvailable initMidi_returns server_listens (Some arg)
        = main others initMidi_returns server_listens (Some arg))
  /\ main isPortAvailable initMidi_returns server_listens (Some "5000")
     = go_on (of_Z 5000)
  /\ main isPortAvailable initMidi_returns server_listens (Some "port") = Exited
  /\ (forall portArg port,
        main isPortAvailable initMidi_returns server_listens portArg = Listening port ->
        server_listens port = true /\ initMidi_returns = true).
Proof.
  assert (attempts isPortAvailable 10 DEFAULT_WS_PORT
          = List.find isPortAvailable (seqZ 7101 10)) as Hscan.
  { apply (attempts_find isPortAvailable 10 7101). intros q Hq.
    apply not_true_iff_false. rewrite is_reserved_iff. lia. }
  cbv zeta. split; [| split; [| split; [| split; [| split]]]].
  - unfold main, main_port, findAvailablePort. rewrite Hscan.
    now destruct (List.find _ _).
  - unfold main, main_port, findAvailablePort. rewrite Hscan.
    cbn [String.eqb negb]. now destruct (List.find _ _).
  - intros arg others Harg. unfold main, main_port.
    now destruct (String.eqb_spec arg "").
  - reflexivity.
  - reflexivity.
  - intros portArg port. unfold main.
    destruct (main_port isPortAvailable portArg) as [| p]; [discriminate |].
    destruct initMidi_returns; [| discriminate].
    destruct (server_listens p) eqn:Hp; [| discriminate].
    intros H. injection H as <-. now split.
Qed.

Lemma main_port_choice_witness :
  main (fun port => 7103 <=? port) true (fun _ => false) (Some "7000")
  = main (fun _ => false) true (fun _ => false) (Some "7000")
  /\ main (fun port => 7103 <=? port) true (fun _ => false) (Some "7000") = Exited
  /\ main (fun port => 7103 <=? port) true (fun _ => true) None
     = Listening (of_Z 7103).
Proof.
  split; [| split; reflexivity].
  destruct (main_port_choice (fun port => 7103 <=? port) true (fun _ => false))
    as (_ & _ & Hsame & _).
  apply Hsame. discriminate.
Defined.

(** ** The output port *)

Lemma first_port_spec (preferred : string) (names : list string) (i0 : nat) :
  match first_port preferred names i0 with
  | Some (i, name) =>
      exists k, i = (i0 + k)%nat
        /\ names !! k = Some name
        /\ name_matches preferred name = true
        /\ forall j other, (j < k)%nat -> names !! j = Some other ->
             name_matches preferred other = false
  | None => Forall (fun other => name_matches preferred other = false) names
  end.
Proof.
  revert i0. induction names as [| name rest IH]; intros i0; cbn [first_port];
    [constructor |].
  destruct (name_matches preferred name) eqn:Hm.
  - exists 0%nat. repeat split; [lia | exact Hm |]. intros j other Hj. lia.
  - specialize (IH (S i0)). destruct (first_port preferred rest (S i0)) as [[i n] |].
    + destruct IH as (k & -> & Hk & Hn & Hbefore). exists (S k).
      repeat split; [lia | exact Hk | exact Hn |].
      intros [| j] other Hj Hother; cbn in Hother.
      * injection Hother as <-. exact Hm.
      * apply (Hbefore j); [lia | exact Hother].
    + now constructor.
Qed.

(** X15. The MIDI output that [initMidi] settles on is chosen by the
    order of the preferred names first and by the order of the ports
    second: the port found is the first port whose name contains, letter
    case aside, the first preferred name that any port name contains.  No
    port is chosen exactly when no port name contains any preferred name. *)
Theorem output_choice_priority (preferred names : list string) :
  match choose_output preferred names with
  | Some (i, name) =>
      names !! i = Some name
      /\ exists before p after,
           preferred = before ++ p :: after
           /\ name_matches p name = true
           /\ (forall j other, (j < i)%nat -> names !! j = Some other ->
                 name_matches p other = false)
           /\ Forall (fun p' => Forall (fun other => name_matches p' other = false) names)
                before
  | None =>
      Forall (fun p' => Forall (fun other => name_matches p' other = false) names)
        preferred
  end.
Proof.
  induction preferred as [| p rest IH]; cbn [choose_output]; [constructor |].
  pose proof (first_port_spec p names 0) as Hfirst.
  destruct (first_port p names 0) as [[i name] |].
  - destruct Hfirst as (k & -> & Hk & Hn & Hbefore). cbn [Nat.add].
    split; [exact Hk |]. exists [], p, rest. repeat split; try assumption.
    constructor.
  - destruct (choose_output rest names) as [[i name] |].
    + destruct IH as (Hi & before & p' & after & -> & Hm & Hj & Hnone).
      split; [exact Hi |]. exists (p :: before), p', after.
      repeat split; try assumption. now constructor.
    + now constructor.
Qed.

Lemma output_choice_priority_witness :
  choose_output preferredOutNames three_outputs = Some (2%nat, "Browser to Logic")
  /\ three_outputs !! 2%nat = Some "Browser to Logic".
Proof.
  split; [reflexivity |].
  exact (proj1 (output_choice_priority preferredOutNames three_outputs)).
Defined.

(** ** The MIDI input *)

Lemma on_midi_input_calls (last : LastId) (name : string) (bytes : list Z) :
  let '(last', calls) := on_midi_input last name bytes in
  (calls = [] /\ last' = last)
  \/ (exists id, calls = [id] /\ last' = Seen id /\ Seen id <> last
        /\ name = "PlugSearch" /\ bytes !! 1%nat = Some 127 /\ bytes !! 2%nat = id).
Proof.
  unfold on_midi_input.
  destruct (String.eqb_spec name "PlugSearch") as [-> |]; cbn [andb]; [| now left].
  destruct (num_same _ _); cbn [andb]; [| now left].
  destruct (bool_decide (bytes !! 1%nat = Some 127)) eqn:H1; [| now left].
  apply bool_decide_eq_true_1 in H1.
  destruct (bool_decide (Seen (bytes !! 2%nat) <> last)) eqn:H2; [| now left].
  apply bool_decide_eq_true_1 in H2. right. eexists. repeat split; assumption.
Qed.

Lemma listen_spec (messages : list (string * list Z)) (last : LastId) :
  let '(last', calls) := listen last messages in
  last' = match list.last calls with Some id => Seen id | None => last end
  /\ (forall id, head calls = Some id -> Seen id <> last)
  /\ (forall i a b, calls !! i = Some a -> calls !! S i = Some b -> a <> b)
  /\ Forall (fun id =>
               exists bytes, In ("PlugSearch", bytes) messages
                 /\ bytes !! 1%nat = Some 127 /\ bytes !! 2%nat = id) calls.
Proof.
  revert last. induction messages as [| [name bytes] rest IH]; intros last;
    cbn [listen].
  - repeat split; try discriminate. constructor.
  - pose proof (on_midi_input_calls last name bytes) as Hone.
    destruct (on_midi_input last name bytes) as [last1 calls1].
    specialize (IH last1). destruct (listen last1 rest) as [last2 calls2].
    destruct IH as (Hlast & Hhead & Hadj & Hfrom).
    assert (Forall (fun id => exists bytes0, In ("PlugSearch", bytes0) ((name, bytes) :: rest)
                      /\ bytes0 !! 1%nat = Some 127 /\ bytes0 !! 2%nat = id) calls2)
      as Hfrom'.
    { eapply Forall_impl; [exact Hfrom |]. cbn beta.
      intros id (b & Hin & H1 & H2). exists b. split; [now right | now split]. }
    destruct Hone as [[-> ->] | (id & -> & -> & Hne & -> & H1 & H2)]; cbn [app].
    + repeat split; assumption.
    + split; [| split; [| split]].
      * rewrite last_cons, Hlast. now destruct (list.last calls2).
      * intros id' Hid'. cbn in Hid'. now injection Hid' as <-.
      * intros [| i] a b Ha Hb; cbn in Ha, Hb.
        -- injection Ha as Ha. intros Heq.
           apply (Hhead b); [now destruct calls2 | congruence].
        -- now apply (Hadj i).
      * constructor; [| exact Hfrom']. exists bytes. split; [now left | now split].
Qed.

(** X16. Over any sequence of MIDI input messages, starting with nothing
    seen: no two consecutive calls of [broadcastArticulationSetChange]
    carry the same id; the id remembered at the end is that of the last
    call; and every call comes from a message of the input named
    "PlugSearch" with 127 as second byte, its id being the third byte. *)
Theorem set_change_calls (messages : list (string * list Z)) :
  let calls := (listen Null messages).2 in
  (forall i a b, calls !! i = Some a -> calls !! S i = Some b -> a <> b)
  /\ (listen Null messages).1
     = match list.last calls with Some id => Seen id | None => Null end
  /\ Forall (fun id =>
               exists bytes, In ("PlugSearch", bytes) messages
                 /\ bytes !! 1%nat = Some 127 /\ bytes !! 2%nat = id) calls.
Proof.
  pose proof (listen_spec messages Null) as H.
  destruct (listen Null messages) as [last' calls]. cbn [fst snd].
  destruct H as (H1 & _ & H3 & H4). now repeat split.
Qed.

(** ** MIDI out *)

Lemma on_message_no_midi (s : State) (ws : nat) (msg : json) :
  field_is msg "type" "midi" = false ->
  midiOut (on_message s ws (Some msg)) = midiOut s
  /\ midi_sent (on_message s ws (Some msg)) = midi_sent s.
Proof.
  intros Hmidi. unfold on_message. rewrite Hmidi.
  destruct (field_is msg "type" "ping"), (field_is msg "type" "identify"),
    (field_is msg "clientType" "track-monitor"), (field_is msg "type" "trackChange");
    destruct msg; split; reflexivity.
Qed.

Lemma step_midi (s : State) (ev : Event) :
  midiOut (step s ev) = midiOut s
  /\ midi_sent (step s ev)
     = midi_sent s ++ (if midiOut s then midi_of ev else []).
Proof.
  assert (midi_sent s = midi_sent s ++ (if midiOut s then [] else [])) as Hnil
    by (destruct (midiOut s); now rewrite app_nil_r).
  destruct ev as [| ws [msg |] | ws]; cbn [step midi_of];
    try (split; [reflexivity | exact Hnil]).
  destruct (field_is msg "type" "midi") eqn:Hmidi.
  - assert (msg <> JNull) as Hmsg by (intros ->; discriminate Hmidi).
    unfold on_message. rewrite Hmidi.
    destruct msg; try contradiction; unfold sendMidi; destruct (midiOut s) eqn:Hout;
      cbn; rewrite ?Hout, ?app_nil_r; split; reflexivity.
  - destruct (on_message_no_midi s ws msg Hmidi) as [H1 H2].
    split; [exact H1 |]. now rewrite H2.
Qed.

(** X17. Over any run of the server, whether a MIDI output is open does
    not change, and what has been handed to the output is, in arrival
    order, the three fields [status], [data1] and [data2] of every message
    of type "midi", whoever sent it and whatever the fields hold (a missing
    field goes out as [undefined]); without an output nothing is sent. *)
Theorem midi_forwarded_in_order (s : State) (events : list Event) :
  midiOut (run s events) = midiOut s
  /\ midi_sent (run s events)
     = midi_sent s ++ (if midiOut s then flat_map midi_of events else []).
Proof.
  unfold run. revert s. induction events as [| ev rest IH]; intros s;
    cbn [fold_left flat_map].
  - split; [reflexivity |]. destruct (midiOut s); now rewrite app_nil_r.
  - destruct (IH (step s ev)) as [H1 H2]. destruct (step_midi s ev) as [H3 H4].
    split; [now rewrite H1 |]. rewrite H2, H3, H4, <- app_assoc.
    now destruct (midiOut s).
Qed.

(** ** The greeting *)

Lemma greeted_send (hello : Frame) (c : Client) (f : Frame) :
  is_greeting f = false -> greeted hello c -> greeted hello (send c f).
Proof.
  intros Hf (rest & Hout & Hrest).
  exists (rest ++ [f]). cbn [send outbox]. rewrite Hout. split; [reflexivity |].
  rewrite existsb_app, Hrest. cbn. now rewrite Hf.
Qed.

Lemma map_clients_inv (hello : Frame) (g : nat * Client -> nat * Client)
    (clients : list (nat * Client)) :
  (forall ic, (g ic).1 = ic.1 /\ (greeted hello ic.2 -> greeted hello (g ic).2)) ->
  map fst (map g clients) = map fst clients
  /\ (Forall (fun ic => greeted hello ic.2) clients ->
      Forall (fun ic => greeted hello ic.2) (map g clients)).
Proof.
  intros Hg. split.
  - rewrite map_map. apply map_ext. intros ic. apply Hg.
  - intros Hall. apply Forall_map. eapply Forall_impl; [exact Hall |].
    intros ic. apply Hg.
Qed.

Lemma new_socket_fresh (s : State) : ~ In (new_socket s) (map fst (wsClients s)).
Proof.
  unfold new_socket. intros Hin.
  assert (Forall (fun k => (k <= list_max (map fst (wsClients s)))%nat)
            (map fst (wsClients s))) as Hle by now apply list_max_le.
  rewrite Forall_forall in Hle. apply list_elem_of_In in Hin.
  specialize (Hle _ Hin). lia.
Qed.

Lemma step_greeted (hello : Frame) (s : State) (ev : Event) :
  greeting s = hello ->
  NoDup (map fst (wsClients s)) ->
  Forall (fun ic => greeted hello ic.2) (wsClients s) ->
  greeting (step s ev) = hello
  /\ NoDup (map fst (wsClients (step s ev)))
  /\ Forall (fun ic => greeted hello ic.2) (wsClients (step s ev)).
Proof.
  intros Hhello Hnd Hall.
  assert (forall g,
             (forall ic, (g ic).1 = ic.1
                         /\ (greeted hello ic.2 -> greeted hello (g ic).2)) ->
             greeting (with_clients s (map g (wsClients s))) = hello
             /\ NoDup (map fst (wsClients (with_clients s (map g (wsClients s)))))
             /\ Forall (fun ic => greeted hello ic.2)
                  (wsClients (with_clients s (map g (wsClients s))))) as Hmap.
  { intros g Hg. destruct (map_clients_inv hello g (wsClients s) Hg) as [H1 H2].
    cbn [with_clients wsClients]. rewrite H1. repeat split; auto. }
  assert (greeting s = hello
          /\ NoDup (map fst (wsClients s))
          /\ Forall (fun ic => greeted hello ic.2) (wsClients s)) as Hsame
    by now repeat split.
  destruct ev as [| ws [msg |] | ws]; cbn [step]; try exact Hsame.
  - (* connection *)
    unfold on_connection. cbn [with_clients wsClients]. split; [exact Hhello |].
    rewrite map_app. cbn [map fst]. split.
    + apply NoDup_app. split; [exact Hnd |]. split; [| apply NoDup_singleton].
      intros id Hin Hin'. apply list_elem_of_singleton in Hin'. subst id.
      apply (new_socket_fresh s). now apply list_elem_of_In.
    + apply Forall_app. split; [exact Hall |]. constructor; [| constructor].
      cbn [snd]. exists []. split; [| reflexivity].
      cbn [outbox]. now rewrite <- Hhello.
  - (* message *)
    unfold on_message.
    destruct (field_is msg "type" "midi").
    { unfold sendMidi.
      destruct msg; try exact Hsame; destruct (midiOut s) eqn:Hout; try exact Hsame;
        (split; [unfold greeting in *; cbn; now rewrite Hout in * | now split]). }
    destruct (field_is msg "type" "ping").
    { destruct msg; try exact Hsame; unfold update_client; apply Hmap;
        intros [id c]; destruct (Nat.eqb id ws); cbn [fst snd];
          (split; [reflexivity |]); try tauto; now apply greeted_send. }
    destruct (field_is msg "type" "identify").
    { destruct (field_is msg "clientType" "track-monitor");
        destruct msg; try exact Hsame; unfold update_client; apply Hmap;
          intros [id c]; destruct (Nat.eqb id ws); cbn [fst snd];
            (split; [reflexivity |]); try tauto.
      all: intros (rest & Hout & Hrest); exists rest; now split. }
    destruct (field_is msg "type" "trackChange").
    { destruct msg; try exact Hsame; unfold broadcastTrackName; apply Hmap;
        intros [id c];
        destruct (bool_decide (readyState c = OPEN) && bool_decide (clientType c = BROWSER));
        cbn [fst snd]; (split; [reflexivity |]); try tauto; now apply greeted_send. }
    destruct msg; exact Hsame.
  - (* close *)
    unfold on_close. cbn [with_clients wsClients]. split; [exact Hhello |]. split.
    + clear Hall Hmap Hsame. induction (wsClients s) as [| [id c] rest IH];
        cbn [List.filter map fst] in *; [constructor |].
      apply NoDup_cons in Hnd as [Hid Hrest].
      destruct (negb (Nat.eqb id ws)); cbn [map fst]; [| now apply IH].
      apply NoDup_cons. split; [| now apply IH].
      intros Hin. apply Hid. clear -Hin.
      induction rest as [| [id' c'] rest IH]; cbn [List.filter map fst] in *;
        [exact Hin |].
      destruct (negb (Nat.eqb id' ws)); cbn [map fst] in *.
      * apply elem_of_cons in Hin as [-> | Hin]; [left | right; now apply IH].
      * right. now apply IH.
    + clear Hnd Hmap Hsame. induction Hall as [| [id c] rest Hc _ IH];
        cbn [List.filter]; [constructor |].
      destruct (negb (Nat.eqb id ws)); [now constructor | exact IH].
Qed.

(** X18. On a server started by [initMidi], after any run: every socket
    of [wsClients] has its own identity; the first frame sent on it is the
    "connected" frame, which names the output port, reports
    "ready" exactly when the MIDI output was opened and carries the port of
    the server; and no second frame of that kind was sent on it. *)
Theorem every_socket_is_greeted
    (names : list string) (openPort : nat -> bool) (wsPort : Z)
    (events : list Event) :
  let s0 := initMidi names openPort wsPort in
  let s := run s0 events in
  NoDup (map fst (wsClients s))
  /\ Forall
       (fun ic =>
          exists rest,
            outbox ic.2
            = Connected (selectedOutPortName s0)
                (if midiOut s0 then "ready" else "no-midi") true wsPort :: rest
            /\ existsb is_greeting rest = false)
       (wsClients s).
Proof.
  cbv zeta. set (s0 := initMidi names openPort wsPort).
  assert (forall s,
             greeting s = greeting s0 ->
             NoDup (map fst (wsClients s)) ->
             Forall (fun ic => greeted (greeting s0) ic.2) (wsClients s) ->
             NoDup (map fst (wsClients (run s events)))
             /\ Forall (fun ic => greeted (greeting s0) ic.2)
                  (wsClients (run s events))) as Hrun.
  { unfold run. induction events as [| ev rest IH]; intros s H1 H2 H3;
      cbn [fold_left]; [now split |].
    destruct (step_greeted _ s ev H1 H2 H3) as (H4 & H5 & H6). now apply IH. }
  apply (Hrun s0); [reflexivity | constructor | constructor].
Qed.

End ServerSetupFacts.

(* ===================================================================== *)
(** * The display side: frames, outputs, single messages *)
(* ===================================================================== *)

Module HandlerMoreFacts.
Import JS Parser MidiHandler Server HandlerMore NumberFacts MidiHandlerFacts ServerFacts.
Import Samples.

(** ** From the detector to the listeners of the page *)

(** X19. When the server handles a "trackChange" message, the listeners
    for track names behind a socket are called once more, with the
    [trackName] of the message, exactly when the socket is open, is a
    display client and the name is truthy; the server forwards a missing,
    empty or otherwise falsy name too, and the display side drops it.  The
    name is passed on as it is, whatever its type. *)
Theorem track_name_end_to_end
    (s : State) (ws : nat) (msg : json) (id : nat) (c : Client) :
  field msg "type" = Some (JString "trackChange") ->
  client_of s id = Some c ->
  exists c',
    client_of (on_message s ws (Some msg)) id = Some c'
    /\ outbox c'
       = outbox c
         ++ (if bool_decide (readyState c = OPEN) && bool_decide (clientType c = BROWSER)
             then [TrackChange (field msg "trackName")] else [])
    /\ flat_map onmessage (outbox c')
       = flat_map onmessage (outbox c)
         ++ (if bool_decide (readyState c = OPEN) && bool_decide (clientType c = BROWSER)
             then match field msg "trackName" with
                  | Some trackName =>
                      if json_truthy trackName then [OnTrackName trackName] else []
                  | None => []
                  end
             else []).
Proof.
  intros Htype Hc. rewrite (on_message_trackChange s ws msg Htype).
  rewrite client_of_broadcast, Hc. cbn [option_map].
  eexists. split; [reflexivity |]. unfold after_broadcast.
  destruct (bool_decide (readyState c = OPEN) && bool_decide (clientType c = BROWSER)).
  - cbn [send outbox]. split; [reflexivity |].
    rewrite flat_map_app. cbn [flat_map onmessage]. rewrite app_nil_r.
    now destruct (field msg "trackName").
  - now rewrite !app_nil_r.
Qed.

Lemma track_name_end_to_end_witness :
  exists c',
    client_of (on_message two_clients 2 (Some violin_trackChange)) 1 = Some c'
    /\ flat_map onmessage (outbox c') = [OnTrackName (JString "Violin 1")].
Proof.
  destruct (track_name_end_to_end two_clients 2 violin_trackChange 1 _
              eq_refl eq_refl) as (c' & H1 & _ & H3).
  exists c'. split; [exact H1 |]. rewrite H3. reflexivity.
Defined.

(** ** The selected output and the stored id *)

Lemma select_fold (outputs : list Port) (outputId : string) (init : option Port) :
  fold_left
    (fun found output =>
       if String.eqb (port_id output) outputId then Some output else found)
    outputs init
  = match list.last (List.filter (fun o => String.eqb (port_id o) outputId) outputs) with
    | Some o => Some o
    | None => init
    end.
Proof.
  revert init. induction outputs as [| o rest IH]; intros init;
    cbn [fold_left List.filter]; [reflexivity |].
  rewrite IH. destruct (String.eqb (port_id o) outputId); [| reflexivity].
  rewrite last_cons. now destruct (list.last _).
Qed.

Lemma last_filter_In {A} (f : A -> bool) (l : list A) (x : A) :
  list.last (List.filter f l) = Some x -> In x l /\ f x = true.
Proof.
  intros H. apply last_Some in H as [l' H].
  apply List.filter_In. rewrite H. apply in_or_app. right. now left.
Qed.

Lemma same_id_same_port (outputs : list Port) (a b : Port) :
  NoDup (map port_id outputs) -> In a outputs -> In b outputs ->
  port_id a = port_id b -> a = b.
Proof.
  induction outputs as [| o rest IH]; intros Hnd Ha Hb Hid; [destruct Ha |].
  cbn [map] in Hnd. apply NoDup_cons in Hnd as [Ho Hnd].
  destruct Ha as [-> | Ha], Hb as [-> | Hb]; auto.
  - exfalso. apply Ho. rewrite Hid. apply list_elem_of_In. now apply in_map.
  - exfalso. apply Ho. rewrite <- Hid. apply list_elem_of_In. now apply in_map.
Qed.

(** X20. An output chosen with [selectOutput] is found again after a
    reload: when [selectOutput(id)] returns true for an id that is not the
    empty string, the selected output has that id and the id is stored;
    [autoSelectOutput] on a fresh handler with the same outputs and the
    stored id then selects an output of that id, before looking at any
    preferred name, and leaves the stored id alone.  If no two outputs
    share an id it is the same output. *)
Theorem selection_survives_reload
    (outputs : list Port) (sel sel' : Selection) (outputId : string) :
  selectOutput (Some outputs) sel outputId = (true, sel') ->
  outputId <> "" ->
  let restored :=
    autoSelectOutput (Some outputs) {| selected := None; stored := stored sel' |} in
  stored sel' = Some outputId
  /\ (exists o, selected sel' = Some o /\ output_id o = outputId)
  /\ stored restored = Some outputId
  /\ (exists o', selected restored = Some o' /\ output_id o' = outputId)
  /\ (NoDup (map port_id outputs) -> selected restored = selected sel').
Proof.
  unfold selectOutput. rewrite select_fold. intros Hsel Hid.
  destruct (list.last _) as [o |] eqn:Hlast; [| discriminate Hsel].
  injection Hsel as <-. cbn [stored selected].
  destruct (last_filter_In _ _ _ Hlast) as [Hin Ho].
  apply String.eqb_eq in Ho.
  unfold autoSelectOutput. cbn [stored].
  destruct (String.eqb_spec outputId "") as [-> | _]; [contradiction |]. cbn [negb].
  destruct (List.find _ outputs) as [o' |] eqn:Hfind.
  - apply List.find_some in Hfind as [Hin' Ho']. apply String.eqb_eq in Ho'.
    cbn [stored selected]. repeat split; eauto.
    intros Hnd. f_equal. f_equal.
    apply (same_id_same_port outputs); auto. congruence.
  - exfalso. pose proof (List.find_none _ _ Hfind o Hin) as Hno.
    cbn beta in Hno. rewrite Ho, String.eqb_refl in Hno. discriminate Hno.
Qed.

Lemma selection_survives_reload_witness :
  selectOutput (Some [iac_port; usb_port]) nothing_selected "out-7"
  = (true, {| selected := Some (port_output usb_port); stored := Some "out-7" |})
  /\ "out-7" <> ""
  /\ selected (autoSelectOutput (Some [iac_port; usb_port])
                 {| selected := None; stored := Some "out-7" |})
     = Some (port_output usb_port).
Proof.
  split; [reflexivity |]. split; [discriminate |].
  destruct (selection_survives_reload [iac_port; usb_port] nothing_selected
              {| selected := Some (port_output usb_port); stored := Some "out-7" |}
              "out-7" eq_refl ltac:(discriminate))
    as (_ & _ & _ & _ & Hsame).
  apply Hsame. apply NoDup_cons. split; [| apply NoDup_singleton].
  intros H. apply list_elem_of_singleton in H. discriminate H.
Defined.

(** X21. The stored id names the selected output: if that holds before
    [selectOutput] or [autoSelectOutput], it holds after, whether the call
    selects an output (by id, from the stored id, or by a preferred name)
    or leaves the selection alone. *)
Theorem stored_id_names_selection
    (midiAccess : option (list Port)) (sel : Selection) (outputId : string) :
  (forall o, selected sel = Some o -> stored sel = Some (output_id o)) ->
  (forall o, selected (selectOutput midiAccess sel outputId).2 = Some o ->
             stored (selectOutput midiAccess sel outputId).2 = Some (output_id o))
  /\ (forall o, selected (autoSelectOutput midiAccess sel) = Some o ->
                stored (autoSelectOutput midiAccess sel) = Some (output_id o)).
Proof.
  intros Hinv. destruct midiAccess as [outputs |]; [| now split]. split.
  - unfold selectOutput. rewrite select_fold.
    destruct (list.last _) as [p |] eqn:Hlast; cbn [snd]; [| exact Hinv].
    destruct (last_filter_In _ _ _ Hlast) as [_ Hp]. apply String.eqb_eq in Hp.
    cbn [selected stored]. intros o Ho. injection Ho as <-. now rewrite <- Hp.
  - unfold autoSelectOutput.
    destruct (stored sel) as [saved |] eqn:Hsaved.
    + destruct (negb (String.eqb saved "")).
      * destruct (List.find _ outputs) as [p |] eqn:Hfind.
        -- apply List.find_some in Hfind as [_ Hp]. apply String.eqb_eq in Hp.
           cbn [selected stored]. intros o Ho. injection Ho as <-.
           now rewrite <- Hp.
        -- destruct (first_preferred _ _) as [p |]; cbn [selected stored].
           ++ intros o Ho. now injection Ho as <-.
           ++ now rewrite Hsaved.
      * destruct (first_preferred _ _) as [p |]; cbn [selected stored].
        -- intros o Ho. now injection Ho as <-.
        -- now rewrite Hsaved.
    + destruct (first_preferred _ _) as [p |]; cbn [selected stored].
      * intros o Ho. now injection Ho as <-.
      * now rewrite Hsaved.
Qed.

Lemma stored_id_names_selection_witness :
  stored (autoSelectOutput (Some [iac_port; usb_port])
            {| selected := None; stored := Some "gone" |})
  = Some "out-2".
Proof.
  destruct (stored_id_names_selection (Some [iac_port; usb_port])
              {| selected := None; stored := Some "gone" |} "") as [_ H];
    [discriminate |].
  exact (H (port_output iac_port) eq_refl).
Defined.

(** ** What a dispatch returns *)

(** X22. What [sendMessages] returns and what it has sent by then.  With
    the WebSocket open it returns true and every message has gone out as a
    frame, whether or not an output is selected.  Otherwise, with no
    output selected it returns false and nothing is sent; with an output
    selected the messages go to it in order up to the first one that it
    refuses: the result is false exactly when there is one, the messages
    before it have been sent all the same, and none after it. *)
Theorem sendMessages_outcome
    (hd : MidiHandler) (messages : list MidiMessage) (flag : bool) :
  let outgoing :=
    map (fun m => (outgoing_status hd flag (status m), data1 m, data2 m)) messages in
  let r := sendMessages hd messages flag in
  (webSocketOpen hd = true ->
   r = (true, map (fun w => WsMidi w.1.1 w.1.2 w.2) outgoing))
  /\ (webSocketOpen hd = false -> selectedOutput hd = None -> r = (false, []))
  /\ (webSocketOpen hd = false ->
      forall out, selectedOutput hd = Some out ->
      exists n,
        r.2 = map (fun w => PortSend w.1.1 w.1.2 w.2) (firstn n outgoing)
        /\ Forall (fun w => accepts out w.1.1 w.1.2 w.2 = true) (firstn n outgoing)
        /\ (r.1 = true -> n = List.length messages)
        /\ (r.1 = false ->
            exists w, outgoing !! n = Some w /\ accepts out w.1.1 w.1.2 w.2 = false)).
Proof.
  cbv zeta. unfold sendMessages. split; [| split].
  - intros ->. now rewrite map_map.
  - now intros -> ->.
  - intros -> out ->. apply send_to_port_outcome.
Qed.

Lemma sendMessages_outcome_witness :
  sendMessages handler_on_notes_only note_cc_note false
  = (false, [PortSend (of_Z 144) (VNumber (of_Z 60)) (VNumber (of_Z 100))])
  /\ exists n,
       (sendMessages handler_on_notes_only note_cc_note false).2
       = map (fun w => PortSend w.1.1 w.1.2 w.2)
           (firstn n
              (map (fun m => (outgoing_status handler_on_notes_only false (status m),
                              data1 m, data2 m)) note_cc_note)).
Proof.
  split; [reflexivity |].
  destruct (proj2 (proj2 (sendMessages_outcome handler_on_notes_only note_cc_note false))
              eq_refl notes_only eq_refl) as (n & Hn & _).
  exists n. exact Hn.
Defined.

(** ** The channel, whatever number it was set from *)

Lemma outgoing_status_any (hd : MidiHandler) (s k : Z) :
  ToInt32 (channel hd) = k -> 0 <= k <= 15 -> 128 <= s < 240 ->
  outgoing_status hd true (of_Z s) = of_Z (Z.lor (Z.land s 240) k).
Proof.
  intros Hch Hk Hs. unfold outgoing_status.
  rewrite num_geb_of_Z, num_ltb_of_Z.
  destruct (Z.leb_spec 128 s); [| lia]. destruct (Z.ltb_spec s 240); [| lia].
  cbn [andb]. unfold bit_or, bit_and.
  rewrite (ToInt32_of_Z s), (ToInt32_of_Z 240), Hch by lia.
  pose proof (land_byte s 240 ltac:(lia) ltac:(lia)) as Hland.
  rewrite (wrap32_small (Z.land s 240)) by lia.
  rewrite ToInt32_of_Z by lia.
  pose proof (lor_byte (Z.land s 240) k Hland ltac:(lia)) as Hlor.
  rewrite wrap32_small by lia. reflexivity.
Qed.

Lemma ToInt32_unit_interval (q : Q) :
  Qle_bool 0 q = true -> Qle_bool 15 q = false ->
  0 <= ToInt32 (Fin q) <= 15.
Proof.
  intros H0 H15. unfold ToInt32.
  apply Qle_bool_iff in H0. unfold Qle in H0. cbn in H0.
  assert (~ (15 <= q)%Q) as Hlt
    by (intros H; apply Qle_bool_iff in H; congruence).
  unfold Qle in Hlt. cbn in Hlt.
  destruct q as [num den]. cbn in *.
  assert (0 <= Z.quot num (Z.pos den) < 15) as Hq.
  { split; [apply Z.quot_pos; lia |]. apply Z.quot_lt_upper_bound; lia. }
  rewrite wrap32_small; lia.
Qed.

Lemma clamped_channel (hd : MidiHandler) (c : number) :
  0 <= ToInt32 (channel (setChannel hd c)) <= 15
  /\ (c = NaN -> channel (setChannel hd c) = NaN).
Proof.
  unfold setChannel. cbn [channel]. split; [| now intros ->].
  destruct c as [| | | q].
  - vm_compute; split; discriminate.
  - vm_compute; split; discriminate.
  - vm_compute; split; discriminate.
  - unfold Math_min, of_Z. cbn [num_leb].
    destruct (Qle_bool (inject_Z 15) q) eqn:H15.
    + vm_compute; split; discriminate.
    + unfold Math_max. cbn [num_leb].
      destruct (Qle_bool (inject_Z 0) q) eqn:H0.
      * now apply ToInt32_unit_interval.
      * vm_compute; split; discriminate.
Qed.

Lemma nibbles_checked :
  forallb
    (fun s =>
       forallb
         (fun k =>
            let r := Z.lor (Z.land s 240) k in
            (Z.land r 240 =? Z.land s 240) && (Z.land r 15 =? k)
            && (128 <=? r) && (r <? 240)
            && (Z.lor 128 k =? 128 + k) && (Z.lor 144 k =? 144 + k)
            && (Z.lor 176 k =? 176 + k))
         (seqZ 0 16))
    (seqZ 128 112) = true.
Proof. vm_compute. reflexivity. Qed.

Lemma nibbles (s k : Z) :
  128 <= s < 240 -> 0 <= k <= 15 ->
  let r := Z.lor (Z.land s 240) k in
  Z.land r 240 = Z.land s 240 /\ Z.land r 15 = k /\ 128 <= r < 240
  /\ Z.lor 128 k = 128 + k /\ Z.lor 144 k = 144 + k /\ Z.lor 176 k = 176 + k.
Proof.
  intros Hs Hk. pose proof nibbles_checked as H.
  rewrite forallb_forall in H. specialize (H s).
  rewrite forallb_forall in H.
  specialize (H ltac:(apply list_elem_of_In, elem_of_seqZ; lia) k
                ltac:(apply list_elem_of_In, elem_of_seqZ; lia)).
  cbv zeta in H. rewrite !andb_true_iff, !Z.eqb_eq, Z.leb_le, Z.ltb_lt in H.
  cbv zeta. tauto.
Qed.

(** X23. Whatever number [setChannel] is given (an integer, a fraction,
    an infinity, NaN), a channel voice status (0x80..0xEF) dispatched
    afterwards with the global channel applied goes out as a channel voice
    status of the same type: the high nibble is kept and the result is
    again within 0x80..0xEF.  [setChannel(NaN)] does not clamp: it stores
    NaN, and dispatch then uses 0 as the low nibble. *)
Theorem dispatch_keeps_message_type (hd : MidiHandler) (c : number) (s : Z) :
  128 <= s < 240 ->
  exists r,
    outgoing_status (setChannel hd c) true (of_Z s) = of_Z r
    /\ Z.land r 240 = Z.land s 240
    /\ 128 <= r < 240
    /\ (c = NaN ->
        channel (setChannel hd c) = NaN /\ r = Z.land s 240).
Proof.
  intros Hs. destruct (clamped_channel hd c) as [Hk Hnan].
  exists (Z.lor (Z.land s 240) (ToInt32 (channel (setChannel hd c)))).
  split; [now apply outgoing_status_any |].
  destruct (nibbles s _ Hs Hk) as (H1 & _ & H3 & _).
  split; [exact H1 |]. split; [exact H3 |].
  intros ->. split; [now apply Hnan |].
  rewrite (Hnan eq_refl). cbn [ToInt32]. apply Z.lor_0_r.
Qed.

Lemma dispatch_keeps_message_type_witness :
  outgoing_status (setChannel handler_on_channel_5 NaN) true (of_Z 149) = of_Z 144.
Proof.
  destruct (dispatch_keeps_message_type handler_on_channel_5 NaN 149 ltac:(lia))
    as (r & Hr & _ & _ & Hnan).
  rewrite Hr. now rewrite (proj2 (Hnan eq_refl)).
Defined.

(** ** Single messages *)

(** X24. On a handler whose channel is an integer c of 0..15 and whose
    WebSocket is open, [sendNoteOn] sends the one frame [0x90 + c, note,
    velocity] (velocity 127 when none is given), [sendNoteOff] the frame
    [0x80 + c, note, 0] and [sendCC] the frame [0xB0 + c, cc, value], and
    each returns true; with neither WebSocket nor output they send nothing
    and return false. *)
Theorem single_messages_on_the_wire
    (hd : MidiHandler) (c : Z) (note : value) (velocity : option value)
    (cc val : value) :
  channel hd = of_Z c -> 0 <= c <= 15 ->
  (webSocketOpen hd = true ->
   sendNoteOn hd note velocity
   = (true, [WsMidi (of_Z (144 + c)) note (default (VNumber (of_Z 127)) velocity)])
   /\ sendNoteOff hd note = (true, [WsMidi (of_Z (128 + c)) note (VNumber (of_Z 0))])
   /\ sendCC hd cc val = (true, [WsMidi (of_Z (176 + c)) cc val]))
  /\ (webSocketOpen hd = false -> selectedOutput hd = None ->
      sendNoteOn hd note velocity = (false, [])
      /\ sendNoteOff hd note = (false, [])
      /\ sendCC hd cc val = (false, [])).
Proof.
  intros Hch Hc.
  destruct (nibbles 128 c ltac:(lia) Hc) as (_ & _ & _ & H128 & H144 & H176).
  unfold sendNoteOn, sendNoteOff, sendCC, sendMessages. split.
  - intros ->. cbn [map status data1 data2].
    rewrite !(outgoing_status_int hd c _ Hch Hc) by lia. cbn [Z.leb Z.ltb andb].
    change (Z.land 144 240) with 144. change (Z.land 128 240) with 128.
    change (Z.land 176 240) with 176. rewrite H128, H144, H176.
    now destruct velocity.
  - intros -> ->. now repeat split.
Qed.

Lemma single_messages_on_the_wire_witness :
  sendNoteOn handler_on_channel_5 (VNumber (of_Z 60)) None
  = (true, [WsMidi (of_Z 149) (VNumber (of_Z 60)) (VNumber (of_Z 127))]).
Proof.
  destruct (single_messages_on_the_wire handler_on_channel_5 5 (VNumber (of_Z 60))
              None VUndefined VUndefined eq_refl ltac:(lia)) as [H _].
  exact (proj1 (H eq_refl)).
Defined.

End HandlerMoreFacts.

(* ===================================================================== *)
(** * The page: what is loaded and what is shown *)
(* ===================================================================== *)

Module PageFacts.
Import JS Parser AutoAssign ParserExports Matching Page.
Import NumberFacts AutoAssignFacts AutoAssignMore ParserFacts ParserExportsFacts.
Import Samples MoreSamples.

Lemma no_unassigned (artSet : ArticulationSet) :
  hasUnassignedRemotes artSet = false ->
  Forall (fun art => is_Some (remoteTrigger art)) (articulations artSet).
Proof.
  unfold hasUnassignedRemotes.
  induction (articulations artSet) as [| art rest IH]; cbn [existsb];
    [constructor |].
  intros H. apply orb_false_iff in H as [Hart Hrest].
  constructor; [| now apply IH].
  apply negb_false_iff in Hart. now apply bool_decide_eq_true_1 in Hart.
Qed.

(** What [load] returns has a remote trigger on every articulation. *)
Lemma load_complete (h : Host) (e : Entropy) (content fileName : string)
    (artSet : ArticulationSet) :
  load h e content fileName = Ok artSet -> hasUnassignedRemotes artSet = false.
Proof.
  unfold load. destruct (parseLogicArticulationSet h e content fileName) as [parsed |];
    [| discriminate]. cbn [bind].
  destruct (hasUnassignedRemotes parsed) eqn:Hun.
  - intros H. destruct (autoAssign_inv _ _ _ H) as (updated & Hmap & ->).
    destruct (assign_articulations_ok _ _ _ Hmap) as (Hall & _ & _).
    exact (proj1 (hasUnassigned_false (with_articulations parsed updated) Hall)).
  - intros H. now injection H as <-.
Qed.


Lemma loaded_set_keys (P : string -> Prop) (m : list (string * ArticulationSet))
    (name : string) (artSet : ArticulationSet) :
  Forall P (map fst m) -> P name -> Forall P (map fst (loaded_set m name artSet)).
Proof.
  intros Hall Hname. induction m as [| [k v] rest IH]; cbn [loaded_set].
  - now constructor.
  - inversion Hall as [| ? ? Hk Hrest]; subst.
    destruct (String.eqb k name); cbn [map fst]; constructor; auto.
Qed.

Lemma loaded_set_ok (m : list (string * ArticulationSet)) (artSet : ArticulationSet) :
  hasUnassignedRemotes artSet = false ->
  cache_ok m -> cache_ok (loaded_set m (set_name artSet) artSet).
Proof.
  intros Hcomplete [Hall Hnd]. split.
  - clear Hnd. induction Hall as [| [k v] rest Hkv Hrest IH]; cbn [loaded_set].
    + constructor; [now split | constructor].
    + destruct (String.eqb_spec k (set_name artSet)) as [-> | Hne].
      * constructor; [now split | assumption].
      * constructor; assumption.
  - clear Hall. induction m as [| [k v] rest IH]; cbn [loaded_set map fst] in *.
    + apply NoDup_singleton.
    + apply NoDup_cons in Hnd as [Hk Hrest].
      destruct (String.eqb_spec k (set_name artSet)) as [-> | Hne]; cbn [map fst].
      * now apply NoDup_cons.
      * apply NoDup_cons. split; [| now apply IH].
        intros Hin.
        assert (Forall (fun k' => k' <> k)
                  (map fst (loaded_set rest (set_name artSet) artSet))) as Hother.
        { apply loaded_set_keys; [| congruence].
          apply Forall_forall. intros k' Hk' ->. now apply Hk. }
        rewrite Forall_forall in Hother. now apply (Hother k Hin).
Qed.

Lemma find_cached_In (m : list (string * ArticulationSet)) (trackName : string)
    (artSet : ArticulationSet) :
  find_cached m trackName = Some artSet ->
  exists name, In (name, artSet) m /\ cache_hit name trackName = true.
Proof.
  unfold find_cached.
  destruct (List.find _ m) as [[name a] |] eqn:Hfind; [| discriminate].
  cbn [option_map snd]. intros H. injection H as <-.
  apply List.find_some in Hfind as [Hin Hhit]. now exists name.
Qed.

Lemma page_step_ok (dir : string) (plistFiles : list string)
    (POST_content : string -> option string) (h : Host) (st : PageState)
    (ev : PageEvent) :
  hasUnassignedRemotes (currentSet st) = false -> cache_ok (loadedSets st) ->
  hasUnassignedRemotes (currentSet (page_step dir plistFiles POST_content h st ev)) = false
  /\ cache_ok (loadedSets (page_step dir plistFiles POST_content h st ev)).
Proof.
  intros Hcur Hcache.
  assert (forall e content fileName st',
             hasUnassignedRemotes (currentSet st') = false ->
             cache_ok (loadedSets st') ->
             let st'' := match load h e content fileName with
                         | Ok artSet => show_loaded st' artSet
                         | Throw _ => st'
                         end in
             hasUnassignedRemotes (currentSet st'') = false
             /\ cache_ok (loadedSets st'')) as Hload.
  { intros e content fileName st' H1 H2. cbv zeta.
    destruct (load h e content fileName) as [artSet |] eqn:Hl; [| now split].
    pose proof (load_complete _ _ _ _ _ Hl) as Hc. cbn [show_loaded currentSet loadedSets].
    split; [exact Hc | now apply loaded_set_ok]. }
  destruct ev as [e fileName content | e online trackName]; cbn [page_step].
  - unfold upload_file. destruct (_ || _); [| now split]. now apply Hload.
  - unfold track_changed. cbn [loadedSets currentSet currentTrack].
    unfold onTrackName.
    destruct (find_cached (loadedSets st) trackName) as [artSet |] eqn:Hfind.
    + cbn [currentSet loadedSets]. split; [| exact Hcache].
      destruct (find_cached_In _ _ _ Hfind) as (name & Hin & _).
      destruct Hcache as [Hall _]. rewrite Forall_forall in Hall.
      apply list_elem_of_In in Hin. exact (proj2 (Hall _ Hin)).
    + destruct (bestMatch _ _) as [entry |]; [| now split].
      destruct online; [| now split].
      destruct (POST_content (path entry)) as [content |]; [| now split].
      destruct (negb (String.eqb content "")); [| now split].
      now apply Hload.
Qed.

(** X25. From the first render on, through any sequence of file uploads
    and track changes, whatever the library holds and whatever the files
    contain: the set on display has a remote trigger on every articulation
    ([hasUnassignedRemotes] is false on it), and so has every set of the
    cache; each cached set is stored under its own name, and no name is
    there twice. *)
Theorem displayed_set_is_complete
    (dir : string) (plistFiles : list string)
    (POST_content : string -> option string) (h : Host) (now : nat -> Z)
    (events : list PageEvent) :
  let st := page_run dir plistFiles POST_content h (first_render now) events in
  hasUnassignedRemotes (currentSet st) = false
  /\ Forall (fun entry => entry.1 = set_name entry.2
                          /\ hasUnassignedRemotes entry.2 = false) (loadedSets st)
  /\ NoDup (map fst (loadedSets st)).
Proof.
  cbv zeta.
  assert (forall st,
             hasUnassignedRemotes (currentSet st) = false -> cache_ok (loadedSets st) ->
             hasUnassignedRemotes
               (currentSet (page_run dir plistFiles POST_content h st events)) = false
             /\ cache_ok (loadedSets (page_run dir plistFiles POST_content h st events)))
    as Hrun.
  { unfold page_run. induction events as [| ev rest IH]; intros st H1 H2;
      cbn [fold_left]; [now split |].
    destruct (page_step_ok dir plistFiles POST_content h st ev H1 H2) as [H3 H4].
    now apply IH. }
  apply Hrun.
  - cbn [first_render currentSet]. unfold DEMO_ARTICULATION_SET, createSimpleArticulationSet.
    apply (hasUnassigned_false
             {| set_name := "Demo Strings"; fileName := "custom";
                articulations := _; isMerged := None; sourceMapNames := None |}).
    apply map_indexed_Forall. intros ks j. cbn. eauto.
  - split; constructor.
Qed.

(** ** Looking a cached set up *)

Lemma includes_empty (s : string) : includes s "" = true.
Proof. now destruct s. Qed.

Lemma includes_refl (s : string) : includes s s = true.
Proof.
  destruct s as [| c t]; [reflexivity |]. cbn [includes].
  apply orb_true_iff. left.
  assert (forall u, String.prefix u u = true) as Hp
    by (induction u as [| a u IH]; cbn; [reflexivity |];
        destruct (Ascii.ascii_dec a a); [exact IH | contradiction]).
  apply Hp.
Qed.

(** X26. A set that has just been loaded is found when a track of the
    very name of the set comes next, unless a set cached before it answers
    first: the cache then gives the new set, or a set that was there
    already under another name that contains the track name or is
    contained in it, letter case aside.  And a set whose name is empty,
    loaded into an empty cache, answers for every track name from then
    on, so that the catalogue is not searched. *)
Theorem cached_set_lookup
    (st : PageState) (artSet : ArticulationSet) (trackName : string) :
  (exists found,
      find_cached (loadedSets (show_loaded st artSet)) (set_name artSet) = Some found
      /\ (found = artSet
          \/ exists name, In (name, found) (loadedSets st)
               /\ name <> set_name artSet
               /\ cache_hit name (set_name artSet) = true))
  /\ (loadedSets st = [] ->
      find_cached (loadedSets (show_loaded st artSet)) (set_name artSet) = Some artSet)
  /\ (set_name artSet = "" -> loadedSets st = [] ->
      forall dir plistFiles,
        onTrackName dir plistFiles (loadedSets (show_loaded st artSet)) trackName
        = UseCached artSet).
Proof.
  assert (cache_hit (set_name artSet) (set_name artSet) = true) as Hself
    by (unfold cache_hit; now rewrite includes_refl).
  cbn [show_loaded loadedSets]. split; [| split].
  - unfold find_cached.
    induction (loadedSets st) as [| [k v] rest IH]; cbn [loaded_set List.find].
    + rewrite Hself. cbn. eauto.
    + destruct (String.eqb_spec k (set_name artSet)) as [-> | Hne];
        cbn [List.find].
      * rewrite Hself. cbn. eauto.
      * destruct (cache_hit k (set_name artSet)) eqn:Hhit.
        -- cbn. exists v. split; [reflexivity |]. right. exists k.
           split; [now left | now split].
        -- destruct IH as (found & Hfound & Hor). exists found.
           split; [exact Hfound |].
           destruct Hor as [-> | (name & Hin & Hn & Hh)]; [now left |].
           right. exists name. split; [now right | now split].
  - intros ->. unfold find_cached. cbn [loaded_set List.find]. now rewrite Hself.
  - intros Hname ->. intros dir plistFiles. unfold onTrackName, find_cached.
    cbn [loaded_set List.find]. rewrite Hname. unfold cache_hit.
    cbn [toLowerCase map_string]. rewrite includes_empty, orb_true_r. reflexivity.
Qed.

Lemma cached_set_lookup_witness :
  onTrackName library_dir library_files
    (loadedSets (show_loaded (first_render (fun _ => 0))
                   {| set_name := ""; fileName := ".plist"; articulations := [];
                      isMerged := None; sourceMapNames := None |}))
    "Horn"
  = UseCached {| set_name := ""; fileName := ".plist"; articulations := [];
                 isMerged := None; sourceMapNames := None |}.
Proof.
  apply (cached_set_lookup (first_render (fun _ => 0))
           {| set_name := ""; fileName := ".plist"; articulations := [];
              isMerged := None; sourceMapNames := None |} "Horn");
    reflexivity.
Defined.

End PageFacts.

(* ===================================================================== *)
(** * The grid and the search route *)
(* ===================================================================== *)

Module GridAndRouteFacts.
Import JS Parser AutoAssign ParserExports Matching Page.
Import NumberFacts AutoAssignFacts AutoAssignMore ParserFacts MatchingFacts.
Import Samples.

(** ** Types *)

Lemma parse_articulation_type (h : Host) (e : Entropy) (switchesMap : SwitchMap)
    (artData : value) (index : nat) (art : Articulation) :
  parse_articulation h e switchesMap artData index = Ok art ->
  articulationType art = of_Z 0 \/ articulationType art = of_Z 1.
Proof.
  unfold parse_articulation. intros H.
  repeat match type of H with
         | bind ?r _ = _ => destruct r; [cbn [bind] in H | discriminate H]
         end.
  injection H as <-. cbn [articulationType].
  destruct (is_string _ "direction"); [now right | now left].
Qed.

Lemma parsed_types (h : Host) (e : Entropy) (content fileName : string)
    (artSet : ArticulationSet) :
  parseLogicArticulationSet h e content fileName = Ok artSet ->
  Forall (fun t => t = of_Z 0 \/ t = of_Z 1)
    (map articulationType (articulations artSet)).
Proof.
  intros H.
  destruct (parsed_entries h e content fileName artSet H)
    as (rootDict & switchesData & articulationsData & _ & _ & _ & Hlen & Hnth).
  apply Forall_map. apply Forall_lookup. intros i art Hi.
  assert (is_Some (articulationsData !! i)) as [artData Hdata].
  { apply lookup_lt_is_Some. rewrite <- Hlen. apply lookup_lt_is_Some. eauto. }
  destruct (Hnth i artData Hdata) as (art' & Hi' & Hparse).
  rewrite Hi in Hi'. injection Hi' as <-.
  exact (parse_articulation_type _ _ _ _ _ _ Hparse).
Qed.

Lemma loaded_types (h : Host) (e : Entropy) (content fileName : string)
    (artSet : ArticulationSet) :
  load h e content fileName = Ok artSet ->
  Forall (fun t => t = of_Z 0 \/ t = of_Z 1)
    (map articulationType (articulations artSet)).
Proof.
  unfold load.
  destruct (parseLogicArticulationSet h e content fileName) as [parsed |] eqn:Hp;
    [| discriminate]. cbn [bind].
  pose proof (parsed_types _ _ _ _ _ Hp) as Htypes.
  destruct (hasUnassignedRemotes parsed); [| now intros [= <-]].
  intros H. rewrite (autoAssign_fill _ _ _ H).
  replace (map articulationType (fill (articulations parsed) _))
    with (map articulationType (articulations parsed)); [exact Htypes |].
  rewrite <- (map_map without_trigger articulationType (fill _ _)).
  rewrite without_trigger_fill. now rewrite map_map.
Qed.

Lemma filter_split {A} (f g : A -> bool) (l : list A) :
  Forall (fun x => g x = negb (f x)) l ->
  Permutation (List.filter f l ++ List.filter g l) l.
Proof.
  induction 1 as [| x l Hx _ IH]; [reflexivity |]. cbn [List.filter].
  rewrite Hx. destruct (f x); cbn [negb app].
  - now constructor.
  - rewrite <- Permutation_middle. now constructor.
Qed.

(** X27. On a set that the page has loaded (parsed, and auto-assigned
    where needed), the two type filters of the grid split the
    articulations: each articulation is an attribute or a direction and
    never both, the two filtered lists together are a rearrangement of the
    whole list, and the two counts of [typeCount] add up to the number of
    articulations. *)
Theorem type_filters_split_loaded_set
    (h : Host) (e : Entropy) (content fileName : string) (artSet : ArticulationSet) :
  load h e content fileName = Ok artSet ->
  let arts := articulations artSet in
  Forall (fun art => has_type 1 art = negb (has_type 0 art)) arts
  /\ Permutation (filter_by_type Attribute arts ++ filter_by_type Direction arts)
       (filter_by_type All arts)
  /\ ((typeCount artSet).1 + (typeCount artSet).2 = List.length arts)%nat.
Proof.
  intros H. cbv zeta.
  assert (Forall (fun art => has_type 1 art = negb (has_type 0 art))
            (articulations artSet)) as Hsplit.
  { pose proof (loaded_types _ _ _ _ _ H) as Ht.
    apply Forall_map in Ht. eapply Forall_impl; [exact Ht |].
    cbn beta. intros art [Hart | Hart]; unfold has_type; now rewrite Hart. }
  split; [exact Hsplit |].
  pose proof (filter_split _ _ _ Hsplit) as Hperm.
  split; [exact Hperm |].
  unfold typeCount. cbn [fst snd]. rewrite <- length_app.
  now apply Permutation_length.
Qed.

Lemma type_filters_split_loaded_set_witness :
  exists artSet,
    load (host_for formatB_compact) entropy_a formatB_text "Strings.plist" = Ok artSet
    /\ typeCount artSet = (1%nat, 0%nat)
    /\ ((typeCount artSet).1 + (typeCount artSet).2
        = List.length (articulations artSet))%nat.
Proof.
  eexists. split; [vm_compute; reflexivity |]. split; [vm_compute; reflexivity |].
  exact (proj2 (proj2 (type_filters_split_loaded_set (host_for formatB_compact)
                         entropy_a formatB_text "Strings.plist" _ eq_refl))).
Defined.

(** ** The search route *)

Lemma filter_sublist {A} (f : A -> bool) (l : list A) : sublist (List.filter f l) l.
Proof.
  induction l as [| x l IH]; cbn [List.filter]; [constructor |].
  destruct (f x); now constructor.
Qed.

Lemma firstn_incl {A} (n : nat) (l : list A) (x : A) :
  In x (firstn n l) -> In x l.
Proof.
  revert n. induction l as [| a l IH]; intros [| n]; cbn; try tauto.
  intros [-> | H]; [now left | right; eauto].
Qed.

Lemma firstn_short {A} (n : nat) (l : list A) :
  (List.length (firstn n l) < n)%nat -> firstn n l = l.
Proof.
  intros H. apply firstn_all2. rewrite length_firstn in H. lia.
Qed.

(** X28. The search route never answers more than 100 sets, and answers
    them in the order of the catalogue.  Without a search term, or with an
    empty one, they are the first 100 of the catalogue.  With a term, a
    file that matches it (by name or by path, letter case aside) can be
    missing from the answer only when the answer is full: with fewer than
    100 sets in it, the answer holds every match. *)
Theorem search_route_answer
    (dir : string) (plistFiles : list string) (search : option string) :
  let answer := GET dir plistFiles search in
  let catalogue := map (entry_of_path dir) plistFiles in
  (List.length answer <= 100)%nat
  /\ sublist answer catalogue
  /\ (search = None \/ search = Some "" -> answer = firstn 100 catalogue)
  /\ (forall q, search = Some q -> q <> "" ->
        Forall (fun s => search_hit (toLowerCase q) s = true) answer
        /\ ((List.length answer < 100)%nat ->
            forall s, In s catalogue -> search_hit (toLowerCase q) s = true ->
                      In s answer)).
Proof.
  cbv zeta. split; [| split; [| split]].
  - unfold GET. apply firstn_le_length.
  - unfold GET. etrans; [apply sublist_take |].
    destruct (option_map toLowerCase search) as [q |]; [| reflexivity].
    destruct (negb (String.eqb q "")); [apply filter_sublist | reflexivity].
  - intros [-> | ->]; reflexivity.
  - intros q -> Hq. rewrite (GET_search dir plistFiles q Hq).
    change (fun s => includes (toLowerCase (entry_name s)) (toLowerCase q)
                     || includes (toLowerCase (path s)) (toLowerCase q))
      with (search_hit (toLowerCase q)).
    split.
    + apply Forall_forall. intros s Hs. apply list_elem_of_In in Hs.
      apply firstn_incl in Hs. now apply List.filter_In in Hs.
    + intros Hshort s Hs Hhit. rewrite (firstn_short _ _ Hshort).
      apply List.filter_In. now split.
Qed.

Lemma search_route_answer_witness :
  map entry_name (GET library_dir library_files (Some "HORN")) = ["Horn"]
  /\ Forall (fun s => search_hit "horn" s = true)
       (GET library_dir library_files (Some "HORN")).
Proof.
  split; [vm_compute; reflexivity |].
  destruct (search_route_answer library_dir library_files (Some "HORN"))
    as (_ & _ & _ & H).
  exact (proj1 (H "HORN" eq_refl ltac:(discriminate))).
Defined.

End GridAndRouteFacts.

(* ===================================================================== *)
(** * The track detector *)
(* ===================================================================== *)

Module DetectorFacts.
Import Detector.

Lemma detector_run_app (a b : list DetectorEvent) (st : DetectorState) :
  detector_run st (a ++ b)
  = let '(st', out) := detector_run st a in
    let '(st'', out') := detector_run st' b in (st'', out ++ out').
Proof.
  revert st. induction a as [| ev a IH]; intros st; cbn [app detector_run].
  - now destruct (detector_run st b).
  - destruct (detector_step st ev) as [s1 o1]. rewrite IH.
    destruct (detector_run s1 a) as [s2 o2].
    destruct (detector_run s2 b) as [s3 o3]. now rewrite app_assoc.
Qed.

(** While the connection stays closed nothing is sent. *)
Lemma closed_sends_nothing (st : DetectorState) (events : list DetectorEvent) :
  isConnected st = false ->
  forallb keeps_closed events = true ->
  isConnected (detector_run st events).1 = false
  /\ (detector_run st events).2 = [].
Proof.
  revert st. induction events as [| ev rest IH]; intros st Hclosed Hobs;
    [now split |].
  cbn [forallb] in Hobs. apply andb_true_iff in Hobs as [Hev Hrest].
  cbn [detector_run].
  assert (isConnected (detector_step st ev).1 = false
          /\ (detector_step st ev).2 = []) as [H1 H2].
  { destruct ev as [| | trackName |]; try discriminate Hev; cbn [detector_step].
    - now split.
    - destruct (negb _); now split.
    - destruct (deferred st); cbn [fst snd]; unfold send_track;
        rewrite ?Hclosed; now split. }
  destruct (detector_step st ev) as [st1 out1]. cbn [fst snd] in H1, H2.
  specialize (IH st1 H1 Hrest).
  destruct (detector_run st1 rest) as [st2 out2]. cbn [fst snd] in *.
  destruct IH as [H3 H4]. subst. now split.
Qed.

(** Running as many deferred blocks as are waiting leaves none. *)
Lemma flush_empties (n : nat) (st : DetectorState) :
  List.length (deferred st) = n ->
  deferred (detector_run st (replicate n RunDeferred)).1 = []
  /\ lastTrackName (detector_run st (replicate n RunDeferred)).1 = lastTrackName st
  /\ isConnected (detector_run st (replicate n RunDeferred)).1 = isConnected st.
Proof.
  revert st. induction n as [| n IH]; intros st Hlen; cbn [replicate detector_run].
  - cbn [fst]. repeat split. now destruct (deferred st).
  - cbn [detector_step]. destruct (deferred st) as [| t rest] eqn:Hd;
      [discriminate Hlen |].
    specialize (IH {| isConnected := isConnected st; lastTrackName := lastTrackName st;
                      deferred := rest |}).
    destruct (detector_run _ (replicate n RunDeferred)) as [st' out'].
    cbn [fst] in *. apply IH. cbn [deferred]. cbn in Hlen. lia.
Qed.

(** With no block waiting, a run of deferred blocks does nothing. *)
Lemma nothing_deferred (k : nat) (st : DetectorState) :
  deferred st = [] -> detector_run st (replicate k RunDeferred) = (st, []).
Proof.
  intros Hd. induction k as [| k IH]; [reflexivity |].
  cbn [replicate detector_run detector_step]. rewrite Hd, IH. reflexivity.
Qed.

(** X29. A track name whose deferred send comes to run while the detector
    is not connected is remembered but not sent, and is not sent later
    either: when every waiting block has run before the connection opens,
    the opening sends the "identify" frame only and reading the same
    track again sends nothing, so that the server hears of the track only
    when another one is selected.  When the connection opens before the
    block has run, the track is sent after the "identify" frame. *)
Theorem track_read_while_disconnected_is_lost
    (st : DetectorState) (events : list DetectorEvent) (trackName : string)
    (k : nat) :
  isConnected st = false ->
  forallb keeps_closed events = true ->
  let before := events ++ [Observed trackName] in
  let st1 := (detector_run st before).1 in
  (detector_run st
     (before ++ flush st1 ++ [DidOpen; Observed trackName] ++ replicate k RunDeferred)).2
  = [Identify]
  /\ (deferred st = [] -> trackName <> lastTrackName st ->
      (detector_run st [Observed trackName; DidOpen; RunDeferred]).2
      = [Identify; SendTrack trackName]).
Proof.
  intros Hclosed Hobs. cbv zeta. split.
  - assert (forallb keeps_closed (events ++ [Observed trackName]) = true) as Hobs'
      by (rewrite forallb_app, Hobs; reflexivity).
    destruct (closed_sends_nothing st _ Hclosed Hobs') as [Hc1 Hout1].
    assert (lastTrackName (detector_run st (events ++ [Observed trackName])).1
            = trackName) as Hlast.
    { rewrite detector_run_app.
      destruct (detector_run st events) as [s0 o0].
      cbn [detector_run detector_step].
      destruct (String.eqb_spec trackName (lastTrackName s0)) as [-> | _];
        reflexivity. }
    rewrite detector_run_app.
    destruct (detector_run st (events ++ [Observed trackName])) as [st1 out1].
    cbn [fst snd] in *. subst out1. unfold flush.
    destruct (flush_empties _ st1 eq_refl) as (Hd2 & Hl2 & Hc2).
    assert (forall n, forallb keeps_closed (replicate n RunDeferred) = true) as Hruns
      by (intros n; induction n as [| n IHn]; [reflexivity | exact IHn]).
    pose proof (Hruns (List.length (deferred st1))) as Hflush.
    destruct (closed_sends_nothing st1 _ Hc1 Hflush) as [_ Hout2].
    rewrite detector_run_app.
    destruct (detector_run st1 (replicate _ RunDeferred)) as [st2 out2].
    cbn [fst snd] in *. subst out2.
    cbn [app detector_run detector_step lastTrackName].
    rewrite Hl2, Hlast, String.eqb_refl. cbn [negb].
    rewrite nothing_deferred by exact Hd2. reflexivity.
  - intros Hd Hne. cbn [detector_run detector_step].
    destruct (String.eqb_spec trackName (lastTrackName st)) as [E | _];
      [contradiction |].
    cbn [negb deferred isConnected lastTrackName]. rewrite Hd. reflexivity.
Qed.

Lemma track_read_while_disconnected_is_lost_witness :
  (detector_run launched
     [Observed "Violin 1"; RunDeferred; Observed "Horn"; RunDeferred;
      DidOpen; Observed "Horn"; RunDeferred]).2
  = [Identify]
  /\ (detector_run launched [Observed "Horn"; DidOpen; RunDeferred]).2
     = [Identify; SendTrack "Horn"].
Proof.
  destruct (track_read_while_disconnected_is_lost launched
              [Observed "Violin 1"; RunDeferred] "Horn" 1 eq_refl eq_refl)
    as [Hlost Hsent].
  split; [exact Hlost |]. apply Hsent; [reflexivity | discriminate].
Defined.

End DetectorFacts.
